(** * png2obj: wall perimeter tracing, normalisation and Wavefront export

    A shallow embedding of [tools/png2obj/png2obj.py] and
    [tools/png2obj/wavefront.py], and the properties of the geometry
    pipeline proved about it.

    Conventions of the embedding:
    - Python integers are [Z]; lattice vertices, boxes and versors are pairs
      of [Z]; tuples compare lexicographically, as in Python.
    - a [dict] is a [gmap]; [dict.get(k, 0)] and [Counter] reads are lookups
      with default [0]; a failing [d[k]] (KeyError) is [None].
    - a raised exception (KeyError, IndexError, ValueError, ZeroDivisionError,
      NameError) is [None] in the option monad; loops that Python writes
      with [while] take a fuel argument and also answer [None] when the fuel
      runs out.  Every theorem that says the code returns a value proves
      that it is [Some] for every large enough fuel. *)

From Stdlib Require Import ZArith QArith Qround Lia String Ascii.
From stdpp Require Import base tactics option list list_numbers gmap finite strings pretty sorting.

Local Open Scope Z_scope.

(** ** Data model *)

Abbreviation Pos := (Z * Z)%type (only parsing).
Abbreviation Versor2D := (Z * Z)%type (only parsing).
Abbreviation Vertex2D := (Z * Z)%type (only parsing).
Abbreviation WallPerimeter := (list Vertex2D)%type (only parsing).
Abbreviation WalkableMatrix := (list (list Z))%type (only parsing).
Abbreviation BlockMatrix := ((Z * Z) * (Z * Z))%type (only parsing).

Record VertexBoxes : Type := mkVertexBoxes {
  upleft : Pos;
  upright : Pos;
  downright : Pos;
  downleft : Pos;
}.

Definition LEFT : Versor2D := (-1, 0).
Definition UP : Versor2D := (0, -1).
Definition RIGHT : Versor2D := (1, 0).
Definition DOWN : Versor2D := (0, 1).
Definition HERE : Versor2D := (0, 0).
Definition STILL : Versor2D := (0, 0).

(** [POSSIBLE_DIRECTIONS]: for each of the 16 cases of the 4 boxes around a
    vertex, the directions in which the wall perimeter may leave it. *)
Definition POSSIBLE_DIRECTIONS : gmap BlockMatrix (list Versor2D) :=
  list_to_map [
    (((0, 0), (0, 0)), []);
    (((0, 0), (0, 1)), [RIGHT; DOWN]);
    (((0, 0), (1, 0)), [LEFT; DOWN]);
    (((0, 0), (1, 1)), [LEFT; RIGHT]);
    (((0, 1), (0, 0)), [UP; RIGHT]);
    (((0, 1), (0, 1)), [UP; DOWN]);
    (((0, 1), (1, 0)), [LEFT; UP; RIGHT; DOWN]);
    (((0, 1), (1, 1)), [LEFT; UP]);
    (((1, 0), (0, 0)), [LEFT; UP]);
    (((1, 0), (0, 1)), [LEFT; UP; RIGHT; DOWN]);
    (((1, 0), (1, 0)), [UP; DOWN]);
    (((1, 0), (1, 1)), [UP; RIGHT]);
    (((1, 1), (0, 0)), [LEFT; RIGHT]);
    (((1, 1), (0, 1)), [LEFT; DOWN]);
    (((1, 1), (1, 0)), [RIGHT; DOWN]);
    (((1, 1), (1, 1)), [])
  ].

(** [RULES]: per case, the map from the versor of arrival to the versor of
    departure. *)
Definition RULES : gmap BlockMatrix (gmap Versor2D Versor2D) :=
  list_to_map [
    (((0, 0), (0, 0)),
     list_to_map [(STILL, STILL); (UP, UP); (LEFT, LEFT); (RIGHT, RIGHT); (DOWN, DOWN)]);
    (((0, 0), (0, 1)), list_to_map [(STILL, RIGHT); (UP, RIGHT); (LEFT, DOWN)]);
    (((0, 0), (1, 0)), list_to_map [(STILL, DOWN); (UP, LEFT); (RIGHT, DOWN)]);
    (((0, 0), (1, 1)), list_to_map [(STILL, RIGHT); (RIGHT, RIGHT); (LEFT, LEFT)]);
    (((0, 1), (0, 0)), list_to_map [(STILL, UP); (LEFT, UP); (DOWN, RIGHT)]);
    (((0, 1), (0, 1)), list_to_map [(STILL, UP); (UP, UP); (DOWN, DOWN)]);
    (((0, 1), (1, 0)),
     list_to_map [(STILL, RIGHT); (UP, RIGHT); (LEFT, DOWN); (RIGHT, UP); (DOWN, LEFT)]);
    (((0, 1), (1, 1)), list_to_map [(STILL, UP); (RIGHT, UP); (DOWN, LEFT)]);
    (((1, 0), (0, 0)), list_to_map [(STILL, LEFT); (RIGHT, UP); (DOWN, LEFT)]);
    (((1, 0), (0, 1)),
     list_to_map [(STILL, RIGHT); (UP, LEFT); (DOWN, RIGHT); (LEFT, UP); (RIGHT, DOWN)]);
    (((1, 0), (1, 0)), list_to_map [(STILL, UP); (UP, UP); (DOWN, DOWN)]);
    (((1, 0), (1, 1)), list_to_map [(STILL, RIGHT); (LEFT, UP); (DOWN, RIGHT)]);
    (((1, 1), (0, 0)), list_to_map [(STILL, RIGHT); (LEFT, LEFT); (RIGHT, RIGHT)]);
    (((1, 1), (0, 1)), list_to_map [(STILL, LEFT); (UP, LEFT); (RIGHT, DOWN)]);
    (((1, 1), (1, 0)), list_to_map [(STILL, RIGHT); (UP, RIGHT); (LEFT, DOWN)]);
    (((1, 1), (1, 1)),
     list_to_map [(STILL, STILL); (UP, STILL); (DOWN, STILL); (LEFT, STILL); (RIGHT, STILL)])
  ].

Definition sum_vectors (v1 v2 : Z * Z) : Z * Z :=
  (v1.1 + v2.1, v1.2 + v2.2).

(** ** Order of Python tuples and lists *)

(** [a <= b] on pairs of integers, as Python compares tuples. *)
Definition point_leb (a b : Z * Z) : bool :=
  (a.1 <? b.1) || ((a.1 =? b.1) && (a.2 <=? b.2)).

(** [a <= b] on lists of points, as Python compares lists. *)
Fixpoint perimeter_leb (a b : list (Z * Z)) : bool :=
  match a, b with
  | [], _ => true
  | _ :: _, [] => false
  | x :: a', y :: b' =>
      if decide (x = y) then perimeter_leb a' b' else point_leb x y
  end.

Section sorting.
Context {A : Type} (leb : A → A → bool).

(** Insertion after every element that is not greater: the sort is stable,
    as Python's is. *)
Fixpoint insert_sorted (x : A) (l : list A) : list A :=
  match l with
  | [] => [x]
  | y :: l' => if leb y x then y :: insert_sorted x l' else x :: l
  end.

Definition sorted (l : list A) : list A :=
  foldl (λ acc x, insert_sorted x acc) [] l.
End sorting.

(** ** PerimeterNormalizer *)

(** One turn of the loop of [remove_internal_edge_points]: index [i] is kept
    when the step into [vertices[i]] differs from the step out of it. *)
Definition edge_point_step (vertices : list Vertex2D)
    (ret : option (list Vertex2D)) (i : nat) : option (list Vertex2D) :=
  ret ← ret;
  prev ← vertices !! (i - 1)%nat;
  cur ← vertices !! i;
  next ← vertices !! (i + 1)%nat;
  let dx1 := cur.1 - prev.1 in
  let dy1 := cur.2 - prev.2 in
  let dx2 := next.1 - cur.1 in
  let dy2 := next.2 - cur.2 in
  if negb (dx1 =? dx2) || negb (dy1 =? dy2)
  then Some (ret ++ [cur])
  else Some ret.

(** [remove_internal_edge_points]: [range(1, len(vertices) - 1)] is
    [seq 1 (len - 2)]; [vertices[0]] and [vertices[-1]] fail on the empty
    list. *)
Definition remove_internal_edge_points (vertices : list Vertex2D)
    : option (list Vertex2D) :=
  first ← vertices !! 0%nat;
  ret ← foldl (edge_point_step vertices) (Some [first])
        (seq 1 (length vertices - 2));
  final ← last vertices;
  Some (ret ++ [final]).

(** The loop of [remove_contiguous_values], on the index [i] and the list
    being edited in place: [del lst[i]] is [delete i lst]. *)
Fixpoint remove_contiguous_loop (fuel : nat) (i : nat) (lst : list Vertex2D)
    : option (list Vertex2D) :=
  if decide (i < length lst - 1)%nat then
    match fuel with
    | O => None
    | S fuel' =>
        a ← lst !! i;
        b ← lst !! (i + 1)%nat;
        if decide (a = b)
        then remove_contiguous_loop fuel' i (delete i lst)
        else remove_contiguous_loop fuel' (i + 1)%nat lst
    end
  else Some lst.

Definition remove_contiguous_values (lst : list Vertex2D)
    : option (list Vertex2D) :=
  remove_contiguous_loop (length lst) 0 lst.

(** [min] of a list of tuples; [None] on the empty list (ValueError). *)
Definition min_point (l : list Vertex2D) : option Vertex2D :=
  match l with
  | [] => None
  | x :: l' => Some (foldl (λ m y, if point_leb m y then m else y) x l')
  end.

(** [deque.rotate(1)]: the last element moves to the front. *)
Definition rotate1 (deq : list Vertex2D) : list Vertex2D :=
  match last deq with
  | Some x => x :: removelast deq
  | None => []
  end.

(** [while deq[0] != minimum: deq.rotate(1)] *)
Fixpoint rotate_to (fuel : nat) (minimum : Vertex2D) (deq : list Vertex2D)
    : option (list Vertex2D) :=
  front ← deq !! 0%nat;
  if decide (front = minimum) then Some deq
  else match fuel with
       | O => None
       | S fuel' => rotate_to fuel' minimum (rotate1 deq)
       end.

Definition normalized_perimeter (wall_perimeter : WallPerimeter)
    : option WallPerimeter :=
  minimum ← min_point wall_perimeter;
  deq ← rotate_to (length wall_perimeter) minimum wall_perimeter;
  front ← deq !! 0%nat;
  remove_contiguous_values (deq ++ [front]).

(** ** GridModel and PerimeterTracer *)

Record BlocksMap : Type := mkBlocksMap {
  map : gmap Pos Z;
  map_size : Z * Z;
  box_size : Z;
}.

(** [Counter] reads and [dict.get(key, 0)]. *)
Definition get0 (d : gmap (Z * Z) Z) (k : Z * Z) : Z := default 0 (d !! k).

(** [tracked_vertices[v] += n] *)
Definition counter_add (d : gmap Vertex2D Z) (v : Vertex2D) (n : Z)
    : gmap Vertex2D Z :=
  <[v := get0 d v + n]> d.

Section BlocksMap.
Variable self : BlocksMap.

(** The generator of [get_grid_vertices], as the list it yields: [bx] in
    the outer loop, [by] in the inner one. *)
Definition get_grid_vertices : list Vertex2D :=
  bx ← seqZ 0 (map_size self).1;
  by_ ← seqZ 0 (map_size self).2;
  [(bx * box_size self, by_ * box_size self)].

(** [int(x / box_size)]: the true division is truncated towards zero, and
    fails when [box_size] is zero. *)
Definition map_vertex (xy : Vertex2D) : option Pos :=
  if decide (box_size self = 0) then None
  else Some (Z.quot xy.1 (box_size self), Z.quot xy.2 (box_size self)).

Definition vertex2boxes (xy : Vertex2D) : option VertexBoxes :=
  b ← map_vertex xy;
  Some {| upleft := (b.1 - 1, b.2 - 1); upright := (b.1, b.2 - 1);
          downleft := (b.1 - 1, b.2); downright := (b.1, b.2) |}.

Definition boxes2block_matrix (boxes : VertexBoxes) : BlockMatrix :=
  ((get0 (map self) (upleft boxes), get0 (map self) (upright boxes)),
   (get0 (map self) (downleft boxes), get0 (map self) (downright boxes))).

(** The [while True] loop of [build].  The state is the counter, the
    perimeter so far, the versor of arrival and the current vertex. *)
Fixpoint walk (fuel : nat) (first_vertex : Vertex2D)
    (tracked_vertices : gmap Vertex2D Z) (wall_perimeter : WallPerimeter)
    (versor : Versor2D) (wall_vertex : Vertex2D)
    : option (gmap Vertex2D Z * WallPerimeter) :=
  match fuel with
  | O => None
  | S fuel' =>
      v_boxes ← vertex2boxes wall_vertex;
      let blocks_matrix := boxes2block_matrix v_boxes in
      versors ← POSSIBLE_DIRECTIONS !! blocks_matrix;
      let tracked_vertices :=
        counter_add tracked_vertices wall_vertex
          (if decide (length versors = 4%nat) then 1 else 2) in
      rules ← RULES !! blocks_matrix;
      versor_next ← rules !! versor;
      let v_next := sum_vectors wall_vertex versor_next in
      let wall_perimeter := wall_perimeter ++ [v_next] in
      if decide (v_next = first_vertex)
      then Some (tracked_vertices, wall_perimeter)
      else walk fuel' first_vertex tracked_vertices wall_perimeter
             versor_next v_next
  end.

(** The body of the [for] loop of [build] over the grid vertices. *)
Definition build_step (fuel : nat)
    (st : option (gmap Vertex2D Z * list WallPerimeter)) (vertex : Vertex2D)
    : option (gmap Vertex2D Z * list WallPerimeter) :=
  '(tracked_vertices, ret) ← st;
  v_boxes ← vertex2boxes vertex;
  let blocks_matrix := boxes2block_matrix v_boxes in
  versors ← POSSIBLE_DIRECTIONS !! blocks_matrix;
  let n_versors := length versors in
  if decide (n_versors = 0%nat) then Some (tracked_vertices, ret)
  else
    let n_passes := get0 tracked_vertices vertex in
    if decide (n_versors = 4%nat ∧ 1 < n_passes) then Some (tracked_vertices, ret)
    else if decide (n_versors ≠ 4%nat ∧ 0 < n_passes) then Some (tracked_vertices, ret)
    else
      '(tracked_vertices, wall_perimeter) ←
         walk fuel vertex tracked_vertices [vertex] STILL vertex;
      wall_perimeter ← remove_internal_edge_points wall_perimeter;
      wall_perimeter ← normalized_perimeter wall_perimeter;
      Some (tracked_vertices, ret ++ [wall_perimeter]).

(** The loop of [build] with the counter it leaves behind. *)
Definition build_loop (fuel : nat)
    : option (gmap Vertex2D Z * list WallPerimeter) :=
  foldl (build_step fuel) (Some (∅, [])) get_grid_vertices.

(** [build]: the drawing done under [debug] has no part in the value that
    is returned and is left out. *)
Definition build (fuel : nat) : option (list WallPerimeter) :=
  if decide (map self = ∅) then Some []
  else
    '(_, ret) ← build_loop fuel;
    Some (sorted perimeter_leb ret).
End BlocksMap.

(** [mat2map]: [x] and [y] are the loop variables, read after the loops; they
    are unbound ([None]) until a first row, respectively a first box, has
    been visited. *)
Definition mat2map_row (y : Z) (st : gmap Pos Z * option Z)
    (xw : Z * Z) : gmap Pos Z * option Z :=
  let '(x, walkable) := xw in
  ((if decide (walkable = 0) then <[(x, y) := 1]> st.1 else st.1), Some x).

Definition enumerate {A} (l : list A) : list (Z * A) :=
  zip (seqZ 0 (Z.of_nat (length l))) l.

Definition mat2map_rows (matrix : WalkableMatrix)
    : gmap Pos Z * option Z * option Z :=
  foldl (λ st yrow,
           let '(ret, x, _) := st in
           let '(y, row) := yrow in
           let '(ret, x) := foldl (mat2map_row y) (ret, x) (enumerate row) in
           (ret, x, Some y))
        (∅, None, None) (enumerate matrix).

Definition mat2map (matrix : WalkableMatrix) : option BlocksMap :=
  let '(ret, x, y) := mat2map_rows matrix in
  x ← x;
  y ← y;
  Some {| map := ret; map_size := (x + 1, y + 1); box_size := 1 |}.


(** ** CapTriangulator *)

(** Coordinates produced by [x + 0.5] and by the triangulation library are
    floats; they are rationals here. [x + 0.5] is [(2 x + 1) / 2]. *)
Abbreviation Hole := (Q * Q)%type (only parsing).
Abbreviation Triangle2D := ((Q * Q) * (Q * Q) * (Q * Q))%type (only parsing).

Definition half_after (x : Z) : Q := Qmake (2 * x + 1) 2.

Definition matrix2holes (matrix : WalkableMatrix) : list Hole :=
  foldl (λ ret yrow,
           foldl (λ ret xw,
                    if decide (xw.2 = 0) then ret
                    else ret ++ [(half_after xw.1, half_after yrow.1)])
                 ret (enumerate yrow.2))
        [] (enumerate matrix).

(** The argument and the answer of [triangle.triangulate]; the key [holes]
    of the dictionary is present only when set. *)
Record TriangulateDict : Type := mkTriangulateDict {
  dict_vertices : list Vertex2D;
  dict_segments : list (Z * Z);
  dict_holes : option (list Hole);
}.

Record TriangulateResult : Type := mkTriangulateResult {
  tri_vertices : list (list Q);
  tri_triangles : list (list nat);
}.

(** What a run of [triangulate_walls] does: it returns, raises, exports its
    dictionary for debugging, or calls the triangulation library and goes on
    with its answer. *)
Inductive Run (R : Type) : Type :=
  | Return (r : R)
  | Raise
  | DumpDict (dic : TriangulateDict) (k : Run R)
  | CallTriangulate (dic : TriangulateDict) (k : TriangulateResult → Run R).
Arguments Return {R} r.
Arguments Raise {R}.
Arguments DumpDict {R} dic k.
Arguments CallTriangulate {R} dic k.

Definition of_option {R} (o : option R) : Run R :=
  match o with Some r => Return r | None => Raise end.

Definition list_to_index_map (the_list : list Vertex2D)
    : option (gmap Vertex2D Z) :=
  if decide (NoDup the_list)
  then Some (foldl (λ ret ie, <[ie.2 := ie.1]> ret) ∅ (enumerate the_list))
  else None.

Definition wall_perimeters_to_unique_vertices
    (wall_perimeters : list WallPerimeter) : list Vertex2D :=
  foldl (λ ret wall,
           foldl (λ ret vertex,
                    if decide (vertex ∈ ret) then ret else ret ++ [vertex])
                 ret wall)
        [] wall_perimeters.

(** The segments of one wall, appended to those found so far. *)
Definition wall_segments (vertices_indices : gmap Vertex2D Z)
    (segments : option (list (Z * Z))) (wall : WallPerimeter)
    : option (list (Z * Z)) :=
  segments ← segments;
  first ← wall !! 0%nat;
  final ← last wall;
  if decide (first = final) then
    foldl (λ segments i,
             segments ← segments;
             va ← wall !! i;
             vb ← wall !! (i + 1)%nat;
             ia ← vertices_indices !! va;
             ib ← vertices_indices !! vb;
             Some (segments ++ [(ia, ib)]))
          (Some segments) (seq 0 (length wall - 1))
  else None.

(** The check that the segments match the walls; the state is the running
    index [i] into [segments]. *)
Definition check_wall (unique_vertices : list Vertex2D)
    (segments : list (Z * Z)) (i : option nat) (wall : WallPerimeter)
    : option nat :=
  foldl (λ i ie,
           i ← i;
           wall_vertex0 ← wall !! ie;
           wall_vertex1 ← wall !! (ie + 1)%nat;
           segment ← segments !! i;
           guard (0 ≤ segment.1 ∧ 0 ≤ segment.2);;
           va ← unique_vertices !! (Z.to_nat segment.1);
           vb ← unique_vertices !! (Z.to_nat segment.2);
           if decide ((va, vb) = (wall_vertex0, wall_vertex1))
           then Some (i + 1)%nat else None)
        i (seq 0 (length wall - 1)).

(** A triangle of indices turned into a triangle of vertices. *)
Definition triangle_face (tri : TriangulateResult)
    (triangle_indices : list nat) : option Triangle2D :=
  face ← mapM (λ vertex_index,
                 vertex ← tri_vertices tri !! vertex_index;
                 match vertex with
                 | [x; y] => Some (x, y)
                 | _ => None
                 end) triangle_indices;
  f0 ← face !! 0%nat;
  f1 ← face !! 1%nat;
  f2 ← face !! 2%nat;
  Some (f0, f1, f2).

Definition triangulate_walls (wall_perimeters : list WallPerimeter)
    (holes : list Hole) : Run (list Triangle2D) :=
  let unique_vertices := wall_perimeters_to_unique_vertices wall_perimeters in
  match list_to_index_map unique_vertices with
  | None => Raise
  | Some vertices_indices =>
      match foldl (wall_segments vertices_indices) (Some []) wall_perimeters with
      | None => Raise
      | Some segments =>
          match foldl (λ i wall, check_wall unique_vertices segments i wall)
                      (Some 0%nat) wall_perimeters with
          | None => Raise
          | Some _ =>
              let dic :=
                {| dict_vertices := unique_vertices;
                   dict_segments := segments;
                   dict_holes := match holes with [] => None | _ => Some holes end |} in
              match dict_vertices dic with
              | [] => Return []
              | _ =>
                  DumpDict dic
                    (CallTriangulate dic (λ tri,
                       of_option (mapM (triangle_face tri) (tri_triangles tri))))
              end
          end
      end
  end.

(** The start of [matrix2obj]: the blocks map is built and its walls are
    traced before anything else is done. *)
Definition matrix2obj_wall_perimeters (fuel : nat) (matrix : WalkableMatrix)
    : option (list WallPerimeter) :=
  blocks_map ← mat2map matrix;
  sorted perimeter_leb <$> build blocks_map fuel.


(** ** MeshExporter ([wavefront.py]) *)

(** A coordinate is a Python number: an [int], or a [float].  The floats
    are kept as a sign and a magnitude, the way they are stored, so that the
    float [-0.0] is told from [0.0].  The magnitudes are the integral ones:
    the coordinates of the vertices of a lattice, as floats. *)
Inductive Number : Type :=
  | PyInt (z : Z)
  | PyFloat (negative : bool) (magnitude : N).

(** The value of a number.  Python compares numbers by value: [==], [<] and
    [hash] do not tell [0] from [0.0], nor [0.0] from [-0.0]. *)
Definition number_value (n : Number) : Z :=
  match n with
  | PyInt z => z
  | PyFloat negative magnitude =>
      if negative then - Z.of_N magnitude else Z.of_N magnitude
  end.

(** [number * sign] for an [int] [sign]: an [int] for an [int]; for a
    [float] the sign is converted and the product is a [float], its sign the
    exclusive or of the two signs, also when the product is a zero. *)
Definition number_times (n : Number) (sign : Z) : Number :=
  match n with
  | PyInt z => PyInt (z * sign)
  | PyFloat negative magnitude =>
      PyFloat (xorb negative (sign <? 0)) (magnitude * Z.abs_N sign)
  end.

(** A vertex is a tuple of three numbers.  Tuples are compared entry by
    entry, so by the values of their entries: [vertex_value] is what [==]
    and [hash] see of a vertex, and two vertices with one value are one key
    of a [dict] and one element of a [set]. *)
Abbreviation Vertex := (Number * Number * Number)%type (only parsing).
Abbreviation Face := (list Vertex)%type (only parsing).
Abbreviation Mesh := (list Face)%type (only parsing).
Abbreviation ExportSettings := ((nat * Z) * (nat * Z) * (nat * Z))%type (only parsing).

Definition vertex_value (vertex : Vertex) : Z * Z * Z :=
  (number_value vertex.1.1, number_value vertex.1.2, number_value vertex.2).

(** A [set] of vertices: a map from the value of an element to the element
    that the set holds for it. *)
Abbreviation VertexSet := (gmap (Z * Z * Z) (Number * Number * Number)) (only parsing).

(** [unique.add(vertex)]: a vertex equal to an element of the set leaves the
    set as it is, with the element it has. *)
Definition set_add (unique : VertexSet) (vertex : Vertex) : VertexSet :=
  match unique !! vertex_value vertex with
  | Some _ => unique
  | None => <[vertex_value vertex := vertex]> unique
  end.

(** [list(unique)]: the elements, in an order that is not specified. *)
Definition set_list (unique : VertexSet) : list Vertex :=
  (map_to_list unique).*2.

(** A [dict] from vertices to indices: a map from the value of a key to the
    key that the dict holds for it and the index under it. *)
Abbreviation VertexDict :=
  (gmap (Z * Z * Z) ((Number * Number * Number) * Z)) (only parsing).

(** [ret[vertex] = i]: a key equal to [vertex] keeps its place and gets
    the new index; otherwise [vertex] is a new key. *)
Definition dict_set (ret : VertexDict) (vertex : Vertex) (i : Z) : VertexDict :=
  match ret !! vertex_value vertex with
  | Some (key, _) => <[vertex_value vertex := (key, i)]> ret
  | None => <[vertex_value vertex := (vertex, i)]> ret
  end.

(** [vertices_indices[vertex]], a [KeyError] when no key equals [vertex]. *)
Definition dict_get (vertices_indices : VertexDict) (vertex : Vertex) : option Z :=
  snd <$> vertices_indices !! vertex_value vertex.

(** [vertices_indices.keys()]; the order is not kept, the keys are sorted
    where they are read. *)
Definition dict_keys (vertices_indices : VertexDict) : list Vertex :=
  (λ entry, entry.2.1) <$> map_to_list vertices_indices.

Definition AXES : string := "xyz".
Definition X_RIGHT : nat := 0.
Definition Y_FORWARD : nat := 1.
Definition Z_UP : nat := 2.
Definition DEFAULT_EXPORT_SETTINGS : list string := ["+x"; "+z"; "+y"]%string.

Definition newline : string := String "010"%char EmptyString.

Definition sign_dic : gmap ascii Z :=
  list_to_map [("-"%char, -1); ("+"%char, 1)].

Definition parse_readable_export_settings (export_settings : list string)
    : option ExportSettings :=
  ret ← mapM (λ s : string,
                c0 ← String.get 0 s;
                c1 ← String.get 1 s;
                sign ← sign_dic !! c0;
                axis ← String.index 0 (String c1 EmptyString) AXES;
                Some (axis, sign)) export_settings;
  r0 ← ret !! 0%nat;
  r1 ← ret !! 1%nat;
  r2 ← ret !! 2%nat;
  Some (r0, r1, r2).

(** [vertex[axis]] *)
Definition vertex_component (vertex : Vertex) (axis : nat) : option Number :=
  [vertex.1.1; vertex.1.2; vertex.2] !! axis.

(** ['{:.6f}'.format(component)]: an [int] is converted to a [float]; the
    text of a float of an integral magnitude is its sign, when it is
    negative (also the one of [-0.0]), the magnitude and six zero decimals. *)
Definition format_6f (component : Number) : string :=
  match component with
  | PyInt z => pretty z +:+ ".000000"
  | PyFloat negative magnitude =>
      (if negative then "-" else "") +:+ pretty magnitude +:+ ".000000"
  end.

Definition export_vertex (vertex : Vertex) (export_settings : ExportSettings)
    : option string :=
  let '(sx, sy, sz) := export_settings in
  right ← (λ c, number_times c sx.2) <$> vertex_component vertex sx.1;
  forward ← (λ c, number_times c sy.2) <$> vertex_component vertex sy.1;
  up ← (λ c, number_times c sz.2) <$> vertex_component vertex sz.1;
  Some ("v " +:+ String.concat " " (format_6f <$> [right; forward; up])).

Definition export_face_indices (face_indices : list Z) (zero_index : bool)
    : string :=
  "f " +:+ String.concat " "
             ((λ vertex_index, pretty (vertex_index + Z.b2z zero_index))
                <$> face_indices).

(** The order of Python on tuples of three numbers, on their values. *)
Definition tuple_leb (a b : Z * Z * Z) : bool :=
  if decide (a.1 = b.1) then a.2 <=? b.2 else point_leb a.1 b.1.

Definition vertex_leb (a b : Vertex) : bool :=
  tuple_leb (vertex_value a) (vertex_value b).

(** The set [unique] of [mesh2vertices]. *)
Definition mesh_unique (mesh : Mesh) : VertexSet :=
  foldl (λ unique face, foldl set_add unique face) ∅ mesh.

Definition mesh2vertices (mesh : Mesh) : VertexDict :=
  let sorted_unique := sorted vertex_leb (set_list (mesh_unique mesh)) in
  foldl (λ ret iv, dict_set ret iv.2 iv.1) ∅
        (zip (seqZ 1 (Z.of_nat (length sorted_unique))) sorted_unique).

(** The rows of the file: the list [ret] of [export_mesh] before it is
    joined. *)
Definition export_mesh_rows (mesh : Mesh) (readable_export_settings : list string)
    : option (list string) :=
  export_settings ← parse_readable_export_settings readable_export_settings;
  let vertices_indices := mesh2vertices mesh in
  vertex_rows ← mapM (λ vertex, export_vertex vertex export_settings)
                  (sorted vertex_leb (dict_keys vertices_indices));
  face_rows ← mapM (λ face : Face,
                      face_indices ← mapM (λ vertex, dict_get vertices_indices vertex) face;
                      Some (export_face_indices face_indices false)) mesh;
  Some (vertex_rows ++ face_rows).


(** ** ImageLoader ([load_png]) *)

(** What [img.getpixel] answers: a number for an image of one band (a
    palette index in mode [P]), a tuple of bands otherwise. *)
Inductive Pixel : Type :=
  | PixelIndex (n : Z)
  | PixelBands (bands : list Z).

(** The image that [Image.open] has read, as far as [load_png] looks at
    it. *)
Record Image : Type := mkImage {
  mode : string;
  width : Z;
  height : Z;
  getpixel : Z * Z → Pixel;
}.

(** The value appended to the row for one pixel.  Comparing a tuple with
    [0] and indexing a number raise TypeError; [pixel[3]] raises IndexError
    on a tuple of fewer than four bands; the slice [pixel[:3]] never
    raises. *)
Definition pixel_walkable (mode : string) (pixel : Pixel) : option Z :=
  if decide (mode = "P"%string) then
    match pixel with
    | PixelIndex n => Some (Z.b2z (0 <? n))
    | PixelBands _ => None
    end
  else
    match pixel with
    | PixelIndex _ => None
    | PixelBands bands =>
        if decide (mode = "RGBA"%string) then
          alpha ← bands !! 3%nat;
          Some (Z.b2z (bool_decide (alpha = 0)
                       || bool_decide (take 3 bands = [255; 255; 255])))
        else Some (Z.b2z (bool_decide (take 3 bands = [255; 255; 255])))
    end.

(** [load_png], from the opened image on: row [y] holds the values of the
    pixels [(x, y)], [x] in [range(img.width)]. *)
Definition load_png (img : Image) : option WalkableMatrix :=
  mapM (λ y, mapM (λ x, pixel_walkable (mode img) (getpixel img (x, y)))
                  (seqZ 0 (width img)))
       (seqZ 0 (height img)).

(** ** MeshExporter: [create_wavefront] *)

(** The result of a triangulation as [create_wavefront] reads it, the keys
    [vertices] and [triangles]: rows of numbers and rows of indices. *)
Record TriangulateOutput : Type := mkTriangulateOutput {
  out_vertices : list (list Number);
  out_triangles : list (list Z);
}.

(** A vertex of the triangulation as a vertex of the file: two coordinates
    get the float [0.0] as the third; any other length than two or three
    raises. *)
Definition triangulate_vertex (v : list Number) : option Vertex :=
  match v with
  | [x; y; z] => Some (x, y, z)
  | [x; y] => Some (x, y, PyFloat false 0)
  | _ => None
  end.

(** [create_wavefront]: the string that is returned, and the file that is
    written when [dst] is given (its path and its content).  What is
    printed on the way has no part in either and is left out.  The faces
    with an index [0] under [zero_index = False] are collected in [errors],
    and the assertion fails after the loops. *)
Definition create_wavefront (vertices : list Vertex) (faces : list (list Z))
    (zero_index : bool) (triangulate_result : option TriangulateOutput)
    (readable_export_settings : list string) (dst : option string)
    : option (string * option (string * string)) :=
  '(vertices, faces, zero_index) ←
    match triangulate_result with
    | Some tri =>
        vertices ← mapM triangulate_vertex (out_vertices tri);
        Some (vertices, out_triangles tri, true)
    | None => Some (vertices, faces, zero_index)
    end;
  export_settings ← parse_readable_export_settings readable_export_settings;
  vertex_rows ← mapM (λ vertex, export_vertex vertex export_settings) vertices;
  let face_rows := (λ face, export_face_indices face zero_index) <$> faces in
  let errors := filter (λ face, 0 ∈ face ∧ zero_index = false) faces in
  if decide (errors = []) then
    let ret := String.concat newline (vertex_rows ++ face_rows) in
    Some (ret,
          match dst with
          | Some path => if decide (path = EmptyString) then None else Some (path, ret)
          | None => None
          end)
  else None.


(** * Specification-side definitions *)

(** The interior points of a list at which the step changes: [b] in a
    window [a, b, c] is kept when [b - a] differs from [c - b]. *)
Fixpoint corner_points (vertices : list Vertex2D) : list Vertex2D :=
  match vertices with
  | [] => []
  | a :: tl =>
      match tl with
      | b :: c :: _ =>
          if decide ((b.1 - a.1, b.2 - a.2) = (c.1 - b.1, c.2 - b.2))
          then corner_points tl
          else b :: corner_points tl
      | _ => []
      end
  end.

(** A list with every run of equal contiguous points cut down to one
    point. *)
Fixpoint dedup_runs (l : list Vertex2D) : list Vertex2D :=
  match l with
  | [] => []
  | a :: tl =>
      match tl with
      | [] => [a]
      | b :: _ => if decide (a = b) then dedup_runs tl else a :: dedup_runs tl
      end
  end.

(** [l'] is [l] read circularly from another starting point. *)
Definition rotation (l l' : list Vertex2D) : Prop :=
  ∃ l1 l2, l = l1 ++ l2 ∧ l' = l2 ++ l1.

(** [m] is a smallest point of [l] in the order of Python tuples. *)
Definition smallest_point (m : Vertex2D) (l : list Vertex2D) : Prop :=
  m ∈ l ∧ ∀ x, x ∈ l → point_leb m x = true.

(** A perimeter is closed when it ends where it starts. *)
Definition closed_perimeter (p : WallPerimeter) : Prop :=
  p ≠ [] ∧ head p = last p.

(** The box [(x, y)] of the matrix is walkable: row [y] has a truthy entry at
    column [x]. *)
Definition walkable_at (matrix : WalkableMatrix) (box : Pos) : Prop :=
  0 ≤ box.1 ∧ 0 ≤ box.2 ∧
  ∃ row w, matrix !! Z.to_nat box.2 = Some row ∧
           row !! Z.to_nat box.1 = Some w ∧ w ≠ 0.

(** Two boxes that share a side. *)
Definition adjacent (a b : Pos) : Prop :=
  Z.abs (a.1 - b.1) + Z.abs (a.2 - b.2) = 1.

(** Two walkable boxes lie in the same walkable region when a path of
    walkable boxes, each sharing a side with the next, joins them. *)
Inductive same_region (matrix : WalkableMatrix) : Pos → Pos → Prop :=
  | same_region_here a :
      walkable_at matrix a → same_region matrix a a
  | same_region_next a b c :
      same_region matrix a b → adjacent b c → walkable_at matrix c →
      same_region matrix a c.

(** The box in which a hole marker lies. *)
Definition hole_box (h : Hole) : Pos :=
  (Qfloor h.1, Qfloor h.2).

(** No walkable region is marked twice: two entries of the list of holes
    that lie in the same region are the same entry. *)
Definition one_marker_per_region (matrix : WalkableMatrix)
    (holes : list Hole) : Prop :=
  ∀ i j h1 h2,
    holes !! i = Some h1 → holes !! j = Some h2 →
    same_region matrix (hole_box h1) (hole_box h2) → i = j.

(** The centre of a box. *)
Definition box_centre (box : Pos) : Hole :=
  (half_after box.1, half_after box.2).

(** The walkable boxes of a matrix, row by row. *)
Definition walkable_boxes (matrix : WalkableMatrix) : list Pos :=
  yrow ← enumerate matrix;
  xw ← enumerate yrow.2;
  if decide (xw.2 = 0) then [] else [(xw.1, yrow.1)].

(** The index of a vertex under an assignment, [0] when it has none. *)
Definition get_index (vertices_indices : VertexDict) (vertex : Vertex) : Z :=
  default 0 (dict_get vertices_indices vertex).

(** The row of a face under an assignment of indices to vertices. *)
Definition face_row (vertices_indices : VertexDict) (face : Face) : string :=
  export_face_indices ((λ vertex, get_index vertices_indices vertex) <$> face) false.

(** The list that [mesh2vertices] numbers: the elements of the set, sorted. *)
Definition sorted_unique (mesh : Mesh) : list Vertex :=
  sorted vertex_leb (set_list (mesh_unique mesh)).

(** The settings that the default [('+x', '+z', '+y')] parses to. *)
Definition default_settings : ExportSettings :=
  ((0%nat, 1), (2%nat, 1), (1%nat, 1)).


(** Two vertices that are equal for Python. *)
Definition same_vertex (v w : Vertex) : Prop := vertex_value v = vertex_value w.

(** The vertex occurs in a face of the mesh. *)
Definition mesh_vertex (mesh : Mesh) (v : Vertex) : Prop :=
  ∃ face, face ∈ mesh ∧ v ∈ face.

(** No two vertices of the mesh are equal for Python without being the same
    tuple of numbers: none differs from another by the type of a coordinate
    or by the sign of a zero only. *)
Definition one_writing (mesh : Mesh) : Prop :=
  ∀ v w, mesh_vertex mesh v → mesh_vertex mesh w → same_vertex v w → v = w.

(** * Definitions for the analysis of the tracer *)

(** A blocks map as [mat2map] builds it: unit boxes, every stored value is
    [1], and every stored box lies in the grid. *)
Definition unit_blocks (bm : BlocksMap) : Prop :=
  box_size bm = 1 ∧ map_Forall (λ _ v, v = 1) (map bm).

Definition blocks_in_grid (bm : BlocksMap) : Prop :=
  map_Forall (λ box _, 0 ≤ box.1 < (map_size bm).1 ∧ 0 ≤ box.2 < (map_size bm).2)
             (map bm).

(** The block matrix of the four boxes around a vertex, for unit boxes. *)
Definition matrix_at (bm : BlocksMap) (v : Vertex2D) : BlockMatrix :=
  ((get0 (map bm) (v.1 - 1, v.2 - 1), get0 (map bm) (v.1, v.2 - 1)),
   (get0 (map bm) (v.1 - 1, v.2), get0 (map bm) (v.1, v.2))).

Definition all_versors : list Versor2D := [LEFT; UP; RIGHT; DOWN].

Definition all_matrices : list BlockMatrix :=
  a ← [0; 1]; b ← [0; 1]; c ← [0; 1]; d ← [0; 1]; [((a, b), (c, d))].

(** [RULES[blocks_matrix][versor]] *)
Definition rule (m : BlockMatrix) (versor : Versor2D) : option Versor2D :=
  rules ← RULES !! m; rules !! versor.

(** A state of the walk: the current vertex and the versor of arrival.  It
    stands for the edge of the lattice walked last, from [origin] to the
    vertex. *)
Abbreviation State := ((Z * Z) * (Z * Z))%type (only parsing).

Definition origin (s : State) : Vertex2D :=
  (s.1.1 - s.2.1, s.1.2 - s.2.2).

Definition opposite (d : Versor2D) : Versor2D := (- d.1, - d.2).

(** The same edge walked the other way. *)
Definition reverse (s : State) : State := (origin s, opposite s.2).

(** One turn of the walk, on states. *)
Definition step (bm : BlocksMap) (s : State) : State :=
  match rule (matrix_at bm s.1) s.2 with
  | Some d => (sum_vectors s.1 d, d)
  | None => s
  end.

(** The values of the boxes on the left and on the right of the edge by
    which a vertex is reached, seen in the direction of the walk. *)
Definition arrival_sides (m : BlockMatrix) (d : Versor2D) : option (Z * Z) :=
  if decide (d = RIGHT) then Some (m.1.1, m.2.1)
  else if decide (d = LEFT) then Some (m.2.2, m.1.2)
  else if decide (d = DOWN) then Some (m.1.2, m.1.1)
  else if decide (d = UP) then Some (m.2.1, m.2.2)
  else None.

(** The same for the edge by which a vertex is left. *)
Definition departure_sides (m : BlockMatrix) (d : Versor2D) : option (Z * Z) :=
  if decide (d = RIGHT) then Some (m.1.2, m.2.2)
  else if decide (d = LEFT) then Some (m.2.1, m.1.1)
  else if decide (d = DOWN) then Some (m.2.2, m.2.1)
  else if decide (d = UP) then Some (m.1.1, m.1.2)
  else None.

Definition sides (bm : BlocksMap) (s : State) : option (Z * Z) :=
  arrival_sides (matrix_at bm s.1) s.2.

(** The edge of a state lies on a wall: a block on one side, none on the
    other. *)
Definition on_wall (bm : BlocksMap) (s : State) : Prop :=
  ∃ l r, sides bm s = Some (l, r) ∧ l ≠ r.

(** A vertex of the boundary, and a saddle among them. *)
Definition boundary_vertex (bm : BlocksMap) (v : Vertex2D) : Prop :=
  ∃ versors, POSSIBLE_DIRECTIONS !! matrix_at bm v = Some versors ∧ versors ≠ [].

Definition saddle_vertex (bm : BlocksMap) (v : Vertex2D) : Prop :=
  ∃ versors, POSSIBLE_DIRECTIONS !! matrix_at bm v = Some versors ∧
             length versors = 4%nat.

(** What one turn of the walk at a vertex adds to the counter. *)
Definition pass_weight (bm : BlocksMap) (v : Vertex2D) : Z :=
  match POSSIBLE_DIRECTIONS !! matrix_at bm v with
  | Some versors => if decide (length versors = 4%nat) then 1 else 2
  | None => 0
  end.

(** The first [k] states of the walk that starts with the state [s]. *)
Definition trail (bm : BlocksMap) (k : nat) (s : State) : list State :=
  (λ j, Nat.iter j (step bm) s) <$> seq 0 k.

(** The counter after the turns of the walk that produced the states of a
    trail: the turn that produces a state is taken at its origin. *)
Definition add_passes (bm : BlocksMap) (tracked : gmap Vertex2D Z)
    (states : list State) : gmap Vertex2D Z :=
  foldl (λ t s, counter_add t (origin s) (pass_weight bm (origin s)))
        tracked states.

(** The number of turns of the walk taken at a vertex. *)
Definition passes (states : list State) (v : Vertex2D) : nat :=
  length (filter (λ s, origin s = v) states).

(** A bound on the coordinates of the stored boxes. *)
Definition extent (bm : BlocksMap) : Z :=
  map_fold (λ box _ acc, Z.max acc (Z.max (Z.abs box.1) (Z.abs box.2))) 0 (map bm).

(** A list that holds every state on a wall of the map. *)
Definition wall_states (bm : BlocksMap) : list State :=
  x ← seqZ (- extent bm - 1) (2 * extent bm + 3);
  y ← seqZ (- extent bm - 1) (2 * extent bm + 3);
  d ← all_versors;
  [((x, y), d)].

(** The vertex is left alone by the loop of [build]: it is not on the
    boundary, or it has been walked through already. *)
Definition skipped (bm : BlocksMap) (tracked : gmap Vertex2D Z) (v : Vertex2D)
    : Prop :=
  ¬ boundary_vertex bm v ∨
  (saddle_vertex bm v ∧ 1 < get0 tracked v) ∨
  (¬ saddle_vertex bm v ∧ 0 < get0 tracked v).

(** The rows of a matrix have one length. *)
Definition rectangular (matrix : WalkableMatrix) : Prop :=
  ∀ row1 row2, row1 ∈ matrix → row2 ∈ matrix → length row1 = length row2.

(** The box [(x, y)] of the matrix is blocked: row [y] has a falsy entry at
    column [x]. *)
Definition blocked_at (matrix : WalkableMatrix) (box : Pos) : Prop :=
  0 ≤ box.1 ∧ 0 ≤ box.2 ∧
  ∃ row, matrix !! Z.to_nat box.2 = Some row ∧ row !! Z.to_nat box.1 = Some 0.

(** Every saddle lies on two different perimeters of the result. *)
Definition saddles_on_two_loops (bm : BlocksMap) (ret : list WallPerimeter)
    : Prop :=
  ∀ v, saddle_vertex bm v →
       ∃ i j p1 p2, i ≠ j ∧ ret !! i = Some p1 ∧ ret !! j = Some p2 ∧
                    v ∈ p1 ∧ v ∈ p2.

(** The state after leaving a vertex by a versor. *)
Definition out_state (v : Vertex2D) (d : Versor2D) : State :=
  (sum_vectors v d, d).

(** The versors by which the walk may leave a vertex. *)
Definition versors_at (bm : BlocksMap) (v : Vertex2D) : list Versor2D :=
  default [] (POSSIBLE_DIRECTIONS !! matrix_at bm v).

(** The versor by which the walk leaves a vertex that it reaches against
    the versor [d]: the two edges are walked in one turn, one way or the
    other. *)
Definition partner (m : BlockMatrix) (d : Versor2D) : option Versor2D :=
  rule m (opposite d).

(** A log of the states that the walks have gone through is well traced:
    the states are on walls, no edge is in it twice, in either direction,
    and it holds a state if and only if it holds the next one. *)
Record traced (bm : BlocksMap) (log : list State) : Prop := mkTraced {
  traced_on_wall : ∀ s, s ∈ log → on_wall bm s;
  traced_NoDup : NoDup log;
  traced_one_way : ∀ s, s ∈ log → reverse s ∉ log;
  traced_step : ∀ s, on_wall bm s → (s ∈ log ↔ step bm s ∈ log);
}.

(** Every wall edge at the vertex has been walked, one way or the other. *)
Definition covered (bm : BlocksMap) (log : list State) (v : Vertex2D) : Prop :=
  ∀ s, on_wall bm s → origin s = v → s ∈ log ∨ reverse s ∈ log.

(** The vertices of the grid that the loop of [build] has gone through when
    it reaches column [x], row [y]. *)
Definition enumerated_before (bm : BlocksMap) (x y : Z) (u : Vertex2D) : Prop :=
  0 ≤ u.1 ∧ 0 ≤ u.2 < (map_size bm).2 ∧ (u.1 < x ∨ (u.1 = x ∧ u.2 < y)).

(** The state of the loop of [build] is the counter of a well traced log
    that covers the vertices of a set. *)
Definition loop_invariant (bm : BlocksMap) (done_ : Vertex2D → Prop)
    (st : option (gmap Vertex2D Z * list WallPerimeter)) : Prop :=
  ∃ log ret,
    st = Some (add_passes bm ∅ log, ret) ∧ traced bm log ∧
    ∀ u, done_ u → covered bm log u.

(** * Definitions for further properties of the code *)

(** No two contiguous entries of the list are equal. *)
Definition no_contiguous_repeat (l : list Vertex2D) : Prop :=
  ∀ i a b, l !! i = Some a → l !! S i = Some b → a ≠ b.

(** The edges of a wall: each point with the one that follows it. *)
Definition wall_edges (wall : WallPerimeter) : list (Vertex2D * Vertex2D) :=
  zip wall (tail wall).

(** The two vertices that a segment of indices names in a list of
    vertices. *)
Definition segment_ends (vertices : list Vertex2D) (segment : Z * Z)
    : option (Vertex2D * Vertex2D) :=
  guard (0 ≤ segment.1 ∧ 0 ≤ segment.2);;
  va ← vertices !! Z.to_nat segment.1;
  vb ← vertices !! Z.to_nat segment.2;
  Some (va, vb).

(** The segment of an edge under an index map. *)
Definition edge_segment (vertices_indices : gmap Vertex2D Z)
    (edge : Vertex2D * Vertex2D) : Z * Z :=
  (default 0 (vertices_indices !! edge.1), default 0 (vertices_indices !! edge.2)).

(** A readable export setting that [parse_readable_export_settings] takes:
    a sign, an axis, and anything after them. *)
Definition valid_setting (s : string) : Prop :=
  ∃ c0 c1 rest,
    s = String c0 (String c1 rest) ∧
    (c0 = "+"%char ∨ c0 = "-"%char) ∧
    (c1 = "x"%char ∨ c1 = "y"%char ∨ c1 = "z"%char).

(** The pixel is of the kind that [load_png] expects for the mode of the
    image: a number in mode [P], a tuple otherwise, of at least four bands
    in mode [RGBA]. *)
Definition pixel_fits (mode : string) (pixel : Pixel) : Prop :=
  match pixel with
  | PixelIndex _ => mode = "P"%string
  | PixelBands bands =>
      mode ≠ "P"%string ∧ (mode = "RGBA"%string → (4 ≤ length bands)%nat)
  end.

(** Every pixel of the image fits its mode. *)
Definition pixels_fit (img : Image) : Prop :=
  ∀ x y, 0 ≤ x < width img → 0 ≤ y < height img →
         pixel_fits (mode img) (getpixel img (x, y)).

(** Every two contiguous entries of the list are related. *)
Definition chain {A} (R : A → A → Prop) (l : list A) : Prop :=
  ∀ i a b, l !! i = Some a → l !! S i = Some b → R a b.

(** A step of one unit along an axis. *)
Definition unit_step (a b : Vertex2D) : Prop :=
  (b.1 - a.1, b.2 - a.2) ∈ all_versors.

(** A step along one axis, of a length other than zero. *)
Definition axis_step (a b : Vertex2D) : Prop :=
  (a.1 = b.1 ∧ a.2 ≠ b.2) ∨ (a.2 = b.2 ∧ a.1 ≠ b.1).

(** Every edge of the perimeter is horizontal or vertical, and joins two
    different points. *)
Definition rectilinear (p : WallPerimeter) : Prop := chain axis_step p.

(** The points reached from [a] by [n] steps along [d], [a] itself left
    out. *)
Fixpoint run (a : Vertex2D) (d : Versor2D) (n : nat) : list Vertex2D :=
  match n with
  | O => []
  | S n => sum_vectors a d :: run (sum_vectors a d) d n
  end.

(** A map that is one solid rectangle of blocks, as large as the grid. *)
Definition solid (bm : BlocksMap) (W H : Z) : Prop :=
  unit_blocks bm ∧ map_size bm = (W, H) ∧
  ∀ box, get0 (map bm) box
         = if decide (0 ≤ box.1 < W ∧ 0 ≤ box.2 < H) then 1 else 0.

(** The state of the walk around the solid rectangle after [j] turns past
    the first one: along the top, down the right side, back along the
    bottom, up the left side. *)
Definition tour (W H : Z) (j : nat) : State :=
  if decide (Z.of_nat j < W) then ((Z.of_nat j + 1, 0), RIGHT)
  else if decide (Z.of_nat j < W + H) then ((W, Z.of_nat j - W + 1), DOWN)
  else if decide (Z.of_nat j < 2 * W + H)
       then ((2 * W + H - Z.of_nat j - 1, H), LEFT)
       else ((0, 2 * W + 2 * H - Z.of_nat j - 1), UP).

(** * Definitions for the walk that comes back *)

(** The points reached from [a] by the steps of a list of versors. *)
Fixpoint path (a : Vertex2D) (versors : list Versor2D) : list Vertex2D :=
  match versors with
  | [] => []
  | d :: versors => sum_vectors a d :: path (sum_vectors a d) versors
  end.

(** The sum of a list of versors. *)
Definition total (versors : list Versor2D) : Versor2D :=
  foldr sum_vectors (0, 0) versors.

(** The number of places of a list of versors at which the versor changes. *)
Fixpoint turns (versors : list Versor2D) : nat :=
  match versors with
  | [] => 0%nat
  | a :: tl =>
      match tl with
      | [] => 0%nat
      | b :: _ => if decide (a = b) then turns tl else S (turns tl)
      end
  end.

(** The step from a point to another. *)
Definition step_between (a b : Vertex2D) : Versor2D := (b.1 - a.1, b.2 - a.2).

(** Every turn of a list of points is the one of the tables: the first step
    is the entry of [RULES] under [STILL] for the blocks around the first
    point, and every later step is the entry under the step before it, for
    the blocks around the point at which the turn is taken. *)
Definition follows_rules (bm : BlocksMap) (perimeter : WallPerimeter) : Prop :=
  (∀ a b, perimeter !! 0%nat = Some a → perimeter !! 1%nat = Some b →
          rule (matrix_at bm a) STILL = Some (step_between a b)) ∧
  (∀ j a b c, perimeter !! j = Some a → perimeter !! S j = Some b →
              perimeter !! S (S j) = Some c →
              rule (matrix_at bm b) (step_between a b) = Some (step_between b c)).

(** The raw perimeter of a walk that left [v] and came back to it: it
    starts at [v], takes at least four steps of one unit, each the turn of
    the tables, and ends with the first of its steps that reaches [v]
    again. *)
Definition returning_walk (bm : BlocksMap) (v : Vertex2D)
    (perimeter : WallPerimeter) : Prop :=
  ∃ steps,
    perimeter = v :: steps ∧
    (4 ≤ length steps)%nat ∧
    chain unit_step perimeter ∧
    follows_rules bm perimeter ∧
    last steps = Some v ∧
    ∀ j u, (S j < length steps)%nat → steps !! j = Some u → u ≠ v.

(** The perimeter [p] is what [build] makes of the walk from a vertex of the
    grid: the walk, started there as [build] starts it, returns a raw
    perimeter that left the vertex and came back to it, and [p] is the
    normal form of its corner points. *)
Definition perimeter_of_walk (bm : BlocksMap) (fuel : nat) (p : WallPerimeter)
    : Prop :=
  ∃ v tracked tracked' perimeter corners,
    v ∈ get_grid_vertices bm ∧
    walk bm fuel v tracked [v] STILL v = Some (tracked', perimeter) ∧
    returning_walk bm v perimeter ∧
    remove_internal_edge_points perimeter = Some corners ∧
    normalized_perimeter corners = Some p.


(** * Properties *)

(** ** Collinear collapse *)

(** Solves [(pre ++ l) !! i = Some x] when [i] is [length pre + k]. *)
Ltac lookup_past_prefix k :=
  rewrite lookup_app_r by lia;
  match goal with
  | |- ?l !! ?i = _ => replace i with k by lia
  end;
  reflexivity.

Lemma foldl_edge_point_step pre a rest acc :
  foldl (edge_point_step (pre ++ a :: rest)) (Some acc)
        (seq (S (length pre)) (length rest - 1))
  = Some (acc ++ corner_points (a :: rest)).
Proof.
  revert pre a acc. induction rest as [|b rest IH]; intros pre a acc.
  - simpl. by rewrite app_nil_r.
  - destruct rest as [|c rest].
    + simpl. by rewrite app_nil_r.
    + replace (length (b :: c :: rest) - 1)%nat with (S (length rest)) by (simpl; lia).
      rewrite <- cons_seq. cbn [foldl].
      assert (Hstep : edge_point_step (pre ++ a :: b :: c :: rest) (Some acc) (S (length pre))
                = Some (if decide ((b.1 - a.1, b.2 - a.2) = (c.1 - b.1, c.2 - b.2))
                        then acc else acc ++ [b])).
      { assert (H0 : (pre ++ a :: b :: c :: rest) !! (S (length pre) - 1)%nat = Some a)
          by lookup_past_prefix 0%nat.
        assert (H1 : (pre ++ a :: b :: c :: rest) !! S (length pre) = Some b)
          by lookup_past_prefix 1%nat.
        assert (H2 : (pre ++ a :: b :: c :: rest) !! (S (length pre) + 1)%nat = Some c)
          by lookup_past_prefix 2%nat.
        unfold edge_point_step. rewrite H0, H1, H2. cbn [mbind option_bind].
        destruct (decide _) as [Heq|Hne].
        - injection Heq as E1 E2. rewrite E1, E2, !Z.eqb_refl. done.
        - destruct (Z.eqb_spec (b.1 - a.1) (c.1 - b.1)) as [E1|E1];
            destruct (Z.eqb_spec (b.2 - a.2) (c.2 - b.2)) as [E2|E2]; try done.
          exfalso. apply Hne. by rewrite E1, E2. }
      rewrite Hstep.
      specialize (IH (pre ++ [a]) b).
      rewrite <- app_assoc in IH. cbn [app] in IH.
      rewrite length_app in IH. cbn [length] in IH.
      replace (length pre + 1)%nat with (S (length pre)) in IH by lia.
      replace (S (length rest) - 1)%nat with (length rest) in IH by lia.
      rewrite IH. cbn [corner_points].
      destruct (decide _); [done|]. by rewrite <- app_assoc.
Qed.

Lemma remove_internal_edge_points_ends (vertices : list Vertex2D) :
  (2 ≤ length vertices)%nat →
  ∃ first final,
    head vertices = Some first ∧ last vertices = Some final ∧
    remove_internal_edge_points vertices
    = Some (first :: corner_points vertices ++ [final]).
Proof.
  intros Hlen. destruct vertices as [|a rest]; [simpl in Hlen; lia|].
  destruct (last (a :: rest)) as [final|] eqn:Hlast.
  2: { by rewrite last_None in Hlast. }
  exists a, final. split; [done|]. split; [done|].
  unfold remove_internal_edge_points. cbn [lookup list_lookup mbind option_bind].
  pose proof (foldl_edge_point_step [] a rest [a]) as H.
  cbn [app length] in H.
  replace (length (a :: rest) - 2)%nat with (length rest - 1)%nat by (simpl; lia).
  rewrite H. cbn [mbind option_bind]. by rewrite Hlast.
Qed.

(** C5. On a list of at least two vertices, [remove_internal_edge_points]
    returns the first point, then the interior points at which the step into
    the point differs from the step out of it (in the order of the input),
    then the last point. *)
Theorem remove_internal_edge_points_corners (vertices : list Vertex2D) :
  (2 ≤ length vertices)%nat →
  ∃ first final,
    head vertices = Some first ∧ last vertices = Some final ∧
    remove_internal_edge_points vertices
    = Some (first :: corner_points vertices ++ [final]).
Proof. apply remove_internal_edge_points_ends. Qed.

Lemma remove_internal_edge_points_corners_witness :
  ∃ first final,
    head [(0, 0); (0, 1); (0, 2); (1, 2)] = Some first ∧
    last [(0, 0); (0, 1); (0, 2); (1, 2)] = Some final ∧
    remove_internal_edge_points [(0, 0); (0, 1); (0, 2); (1, 2)]
    = Some (first :: corner_points [(0, 0); (0, 1); (0, 2); (1, 2)] ++ [final]).
Proof.
  apply (remove_internal_edge_points_corners [(0, 0); (0, 1); (0, 2); (1, 2)]).
  simpl. lia.
Defined.

(** ** Contiguous duplicates *)

Lemma dedup_runs_cons_eq a l : dedup_runs (a :: a :: l) = dedup_runs (a :: l).
Proof. cbn [dedup_runs]. destruct (decide (a = a)); [|done]. done. Qed.

Lemma dedup_runs_cons_ne a b l :
  a ≠ b → dedup_runs (a :: b :: l) = a :: dedup_runs (b :: l).
Proof. intros Hne. cbn [dedup_runs]. destruct (decide (a = b)); done. Qed.

Lemma head_dedup_runs l : head (dedup_runs l) = head l.
Proof.
  induction l as [|a [|b l] IH]; [done..|].
  destruct (decide (a = b)) as [->|Hne].
  - by rewrite dedup_runs_cons_eq.
  - by rewrite dedup_runs_cons_ne.
Qed.

Lemma last_dedup_runs l : last (dedup_runs l) = last l.
Proof.
  induction l as [|a [|b l] IH]; [done..|].
  destruct (decide (a = b)) as [->|Hne].
  - by rewrite dedup_runs_cons_eq.
  - rewrite dedup_runs_cons_ne by done.
    change (last (a :: b :: l)) with (last (b :: l)). rewrite <- IH.
    pose proof (head_dedup_runs (b :: l)) as Hh.
    destruct (dedup_runs (b :: l)); [done|]. done.
Qed.

Lemma elem_of_dedup_runs x l : x ∈ dedup_runs l ↔ x ∈ l.
Proof.
  induction l as [|a [|b l] IH]; [done..|].
  destruct (decide (a = b)) as [->|Hne].
  - rewrite dedup_runs_cons_eq, IH. set_solver.
  - rewrite dedup_runs_cons_ne by done. set_solver.
Qed.

Lemma dedup_runs_idemp l : dedup_runs (dedup_runs l) = dedup_runs l.
Proof.
  induction l as [|a [|b l] IH]; [done..|].
  destruct (decide (a = b)) as [->|Hne].
  - by rewrite dedup_runs_cons_eq.
  - rewrite dedup_runs_cons_ne by done.
    pose proof (head_dedup_runs (b :: l)) as Hh.
    destruct (dedup_runs (b :: l)) as [|c l'] eqn:E; [done|].
    simpl in Hh. injection Hh as ->.
    rewrite dedup_runs_cons_ne by done. by rewrite IH.
Qed.

Lemma dedup_runs_middle l x r :
  dedup_runs (l ++ x :: x :: r) = dedup_runs (l ++ x :: r).
Proof.
  induction l as [|a [|b l] IH].
  - apply dedup_runs_cons_eq.
  - cbn [app] in *. destruct (decide (a = x)) as [->|Hne].
    + by rewrite !dedup_runs_cons_eq.
    + rewrite !(dedup_runs_cons_ne a x) by done. by rewrite dedup_runs_cons_eq.
  - cbn [app] in *. destruct (decide (a = b)) as [->|Hne].
    + by rewrite !dedup_runs_cons_eq.
    + rewrite !(dedup_runs_cons_ne a b) by done. by rewrite IH.
Qed.

Lemma dedup_runs_snoc_last l x :
  last l = Some x → dedup_runs (l ++ [x]) = dedup_runs l.
Proof.
  intros Hl. destruct (last_Some l x) as [[l' ->] _]; [done|].
  rewrite <- app_assoc. cbn [app]. apply dedup_runs_middle.
Qed.

Lemma remove_contiguous_loop_dedup suf pre fuel :
  (length suf ≤ fuel)%nat →
  remove_contiguous_loop fuel (length pre) (pre ++ suf)
  = Some (pre ++ dedup_runs suf).
Proof.
  revert pre fuel. induction suf as [|a [|b suf] IH]; intros pre fuel Hfuel.
  - destruct fuel; cbn [remove_contiguous_loop];
      (destruct (decide _) as [Hlt|_]; [rewrite length_app in Hlt; simpl in Hlt; lia|done]).
  - destruct fuel; cbn [remove_contiguous_loop];
      (destruct (decide _) as [Hlt|_]; [rewrite length_app in Hlt; simpl in Hlt; lia|done]).
  - destruct fuel as [|fuel]; [simpl in Hfuel; lia|].
    cbn [remove_contiguous_loop].
    destruct (decide _) as [_|Hge].
    2: { exfalso. apply Hge. rewrite length_app. simpl. lia. }
    assert (H0 : (pre ++ a :: b :: suf) !! length pre = Some a)
      by apply list_lookup_middle, eq_refl.
    assert (H1 : (pre ++ a :: b :: suf) !! (length pre + 1)%nat = Some b)
      by lookup_past_prefix 1%nat.
    rewrite H0, H1. cbn [mbind option_bind].
    destruct (decide (a = b)) as [->|Hne].
    + rewrite dedup_runs_cons_eq.
      replace (delete (length pre) (pre ++ b :: b :: suf)) with (pre ++ b :: suf).
      * apply IH. simpl in *. lia.
      * rewrite delete_middle. done.
    + rewrite dedup_runs_cons_ne by done.
      specialize (IH (pre ++ [a]) fuel).
      rewrite length_app in IH. cbn [length] in IH.
      rewrite <- !app_assoc in IH. cbn [app] in IH.
      apply IH. simpl in *. lia.
Qed.

Lemma remove_contiguous_values_dedup l :
  remove_contiguous_values l = Some (dedup_runs l).
Proof. apply (remove_contiguous_loop_dedup l [] (length l)). done. Qed.

(** ** The order of points and the smallest point *)

Lemma point_leb_refl a : point_leb a a = true.
Proof. unfold point_leb. destruct a as [x y]; simpl. lia. Qed.

Lemma point_leb_total a b : point_leb a b = true ∨ point_leb b a = true.
Proof. unfold point_leb. destruct a, b; simpl. lia. Qed.

Lemma point_leb_trans a b c :
  point_leb a b = true → point_leb b c = true → point_leb a c = true.
Proof. unfold point_leb. destruct a, b, c; simpl. lia. Qed.

Lemma point_leb_antisym a b :
  point_leb a b = true → point_leb b a = true → a = b.
Proof.
  unfold point_leb. destruct a as [x y], b as [x' y']; simpl. intros H1 H2.
  f_equal; lia.
Qed.

Lemma foldl_min_smallest l x :
  smallest_point (foldl (λ m y, if point_leb m y then m else y) x l) (x :: l).
Proof.
  revert x. induction l as [|y l IH]; intros x.
  - split; [set_solver|]. intros z Hz. apply list_elem_of_singleton in Hz as ->.
    apply point_leb_refl.
  - cbn [foldl]. destruct (point_leb x y) eqn:E.
    + destruct (IH x) as [Hin Hle]. split; [set_solver|].
      intros z Hz. apply elem_of_cons in Hz as [->|Hz]; [apply Hle; set_solver|].
      apply elem_of_cons in Hz as [->|Hz]; [|apply Hle; set_solver].
      apply (point_leb_trans _ x); [apply Hle; set_solver|done].
    + destruct (IH y) as [Hin Hle]. split; [set_solver|].
      intros z Hz. apply elem_of_cons in Hz as [->|Hz]; [|apply Hle; set_solver].
      apply (point_leb_trans _ y); [apply Hle; set_solver|].
      destruct (point_leb_total x y) as [H|H]; [congruence|done].
Qed.

Lemma min_point_smallest l m : min_point l = Some m → smallest_point m l.
Proof.
  destruct l as [|x l]; [done|]. cbn [min_point]. intros [= <-].
  apply foldl_min_smallest.
Qed.

Lemma min_point_is_Some l : l ≠ [] → is_Some (min_point l).
Proof. destruct l; [done|]. by eexists. Qed.

Lemma smallest_point_unique m m' l :
  smallest_point m l → smallest_point m' l → m = m'.
Proof. intros [H1 H2] [H3 H4]. apply point_leb_antisym; auto. Qed.

(** ** Rotation to the smallest point *)

Lemma rotate1_snoc l x : rotate1 (l ++ [x]) = x :: l.
Proof. unfold rotate1. by rewrite last_snoc, removelast_last. Qed.

Lemma rotate_to_head fuel m deq :
  head deq = Some m → rotate_to fuel m deq = Some deq.
Proof.
  intros Hh. destruct deq as [|x deq]; [done|]. simpl in Hh. injection Hh as ->.
  destruct fuel; cbn [rotate_to lookup list_lookup mbind option_bind];
    by destruct (decide (m = m)).
Qed.

Lemma rotate_to_found m p s fuel :
  m ∈ p → (length p ≤ fuel)%nat →
  ∃ p1 p2, p = p1 ++ p2 ∧
    rotate_to fuel m (s ++ p) = Some (p2 ++ s ++ p1) ∧
    head (p2 ++ s ++ p1) = Some m.
Proof.
  revert s fuel. induction p as [|x p IH] using rev_ind; intros s fuel Hin Hfuel.
  { by apply elem_of_nil in Hin. }
  destruct (decide (head (s ++ p ++ [x]) = Some m)) as [Hh|Hh].
  { exists (p ++ [x]), []. split; [by rewrite app_nil_r|].
    cbn [app]. split; [by apply rotate_to_head|done]. }
  rewrite length_app in Hfuel. cbn [length] in Hfuel.
  destruct fuel as [|fuel]; [lia|].
  assert (Hrot : rotate_to (S fuel) m (s ++ p ++ [x]) = rotate_to fuel m ((x :: s) ++ p)).
  { destruct (s ++ p ++ [x]) as [|y d] eqn:E.
    { by destruct s, p. }
    cbn [rotate_to lookup list_lookup mbind option_bind].
    destruct (decide (y = m)) as [->|_]; [done|].
    rewrite <- E, app_assoc, rotate1_snoc. done. }
  rewrite Hrot.
  destruct (decide (x = m)) as [->|Hxm].
  - exists p, [m]. split; [done|]. split; [by apply rotate_to_head|done].
  - assert (Hinp : m ∈ p) by set_solver.
    destruct (IH (x :: s) fuel Hinp ltac:(lia)) as (q1 & q2 & -> & Hr & Hhd).
    exists q1, (q2 ++ [x]). split; [by rewrite app_assoc|].
    replace ((q2 ++ [x]) ++ s ++ q1) with (q2 ++ (x :: s) ++ q1)
      by (by rewrite <- app_assoc).
    done.
Qed.

(** ** Canonical form of a perimeter *)

Lemma dedup_runs_no_repeat c x :
  NoDup c → last c ≠ Some x → dedup_runs (c ++ [x]) = c ++ [x].
Proof.
  induction c as [|a [|b c] IH]; intros Hnd Hlast; [done|..].
  - cbn [app]. rewrite dedup_runs_cons_ne; [done|]. intros ->. by apply Hlast.
  - apply NoDup_cons in Hnd as [Ha Hnd]. cbn [app].
    rewrite dedup_runs_cons_ne by set_solver. f_equal. by apply IH.
Qed.

Lemma dedup_runs_NoDup_snoc c m :
  NoDup c → head c = Some m → (2 ≤ length c)%nat →
  dedup_runs (c ++ [m]) = c ++ [m].
Proof.
  intros Hnd Hh Hlen. apply dedup_runs_no_repeat; [done|].
  destruct c as [|a c]; [done|]. simpl in Hh. injection Hh as ->.
  apply NoDup_cons in Hnd as [Hm _]. intros Hl.
  destruct c as [|b c]; [simpl in Hlen; lia|].
  change (last (m :: b :: c)) with (last (b :: c)) in Hl.
  apply Hm. destruct (last_Some (b :: c) m) as [[l' ->] _]; [done|]. set_solver.
Qed.

Lemma normalized_perimeter_unfold p :
  p ≠ [] →
  ∃ m p1 p2,
    min_point p = Some m ∧ p = p1 ++ p2 ∧ head (p2 ++ p1) = Some m ∧
    normalized_perimeter p = Some (dedup_runs (p2 ++ p1 ++ [m])).
Proof.
  intros Hp. destruct (min_point_is_Some p Hp) as [m Hm].
  destruct (min_point_smallest p m Hm) as [Hin _].
  destruct (rotate_to_found m p [] (length p) Hin ltac:(lia))
    as (p1 & p2 & Hsplit & Hrot & Hhd).
  cbn [app] in Hrot, Hhd.
  exists m, p1, p2. split; [done|]. split; [done|]. split; [done|].
  unfold normalized_perimeter. rewrite Hm. cbn [mbind option_bind].
  rewrite Hrot. cbn [mbind option_bind].
  rewrite <- head_lookup, Hhd. cbn [mbind option_bind].
  rewrite remove_contiguous_values_dedup. by rewrite <- app_assoc.
Qed.

Lemma head_app_Some (l l' : list (Z * Z)) x :
  head l = Some x → head (l ++ l') = Some x.
Proof. by destruct l. Qed.

Lemma normalized_perimeter_ends p q :
  normalized_perimeter p = Some q →
  ∃ m, smallest_point m p ∧ head q = Some m ∧ last q = Some m ∧
       (∀ x, x ∈ q → x ∈ p).
Proof.
  intros Hq. assert (Hp : p ≠ []) by (by intros ->).
  destruct (normalized_perimeter_unfold p Hp) as (m & p1 & p2 & Hm & -> & Hhd & Hn).
  rewrite Hn in Hq. injection Hq as <-.
  pose proof (min_point_smallest _ _ Hm) as Hsm.
  exists m. split; [done|]. split; [|split].
  - rewrite head_dedup_runs, app_assoc. by apply head_app_Some.
  - by rewrite last_dedup_runs, app_assoc, last_snoc.
  - intros x Hx. rewrite elem_of_dedup_runs in Hx. destruct Hsm as [Hin _].
    rewrite !elem_of_app in Hx. rewrite elem_of_app in Hin |- *.
    rewrite list_elem_of_singleton in Hx. naive_solver.
Qed.

(** C3. Normalising is idempotent: the normal form of a non-empty perimeter
    exists and is its own normal form.  (That the perimeter is closed is not
    needed.) *)
Theorem normalized_perimeter_idempotent (p : WallPerimeter) :
  p ≠ [] →
  ∃ q, normalized_perimeter p = Some q ∧ normalized_perimeter q = Some q.
Proof.
  intros Hp.
  destruct (normalized_perimeter_unfold p Hp) as (m & p1 & p2 & Hm & Hsplit & Hhd & Hn).
  eexists. split; [exact Hn|].
  destruct (normalized_perimeter_ends _ _ Hn) as (m' & Hsm' & Hqh & Hql & Hsub).
  assert (m' = m) as ->
    by (eapply smallest_point_unique; [done|by apply min_point_smallest]).
  set (q := dedup_runs (p2 ++ p1 ++ [m])) in *.
  assert (Hqne : q ≠ []) by (intros E; by rewrite E in Hqh).
  destruct (min_point_is_Some q Hqne) as [mq Hmq].
  assert (mq = m) as ->.
  { eapply smallest_point_unique; [by apply min_point_smallest|].
    split.
    - destruct q; [done|]. simpl in Hqh. injection Hqh as ->. set_solver.
    - intros x Hx. apply Hsm', Hsub, Hx. }
  unfold normalized_perimeter. rewrite Hmq. cbn [mbind option_bind].
  rewrite (rotate_to_head _ _ _ Hqh). cbn [mbind option_bind].
  rewrite <- head_lookup, Hqh. cbn [mbind option_bind].
  rewrite remove_contiguous_values_dedup.
  rewrite (dedup_runs_snoc_last _ _ Hql). f_equal. apply dedup_runs_idemp.
Qed.

Lemma normalized_perimeter_idempotent_witness :
  ∃ q, normalized_perimeter [(1, 0); (1, 1); (0, 1); (0, 0); (1, 0)] = Some q ∧
       normalized_perimeter q = Some q.
Proof.
  apply (normalized_perimeter_idempotent [(1, 0); (1, 1); (0, 1); (0, 0); (1, 0)]).
  discriminate.
Defined.

(** C4. The normal form of a closed perimeter [p] starts with the smallest
    point of [p] in the order of tuples, ends with that point, and is a
    circular reading of [p]: the loop without its closing point, read from
    another start, closed again, its contiguous repeats cut down; a loop of
    distinct points comes back as it is, rotated. *)
Theorem normalized_perimeter_rotation (p : WallPerimeter) :
  closed_perimeter p →
  ∃ q m c,
    normalized_perimeter p = Some q ∧
    smallest_point m p ∧
    head q = Some m ∧ last q = Some m ∧
    rotation (removelast p) c ∧
    q = dedup_runs (c ++ [m]) ∧
    (NoDup (removelast p) → (3 ≤ length p)%nat → q = c ++ [m] ∧ head c = Some m).
Proof.
  intros [Hp Hclosed].
  destruct (normalized_perimeter_unfold p Hp) as (m & p1 & p2 & Hm & Hsplit & Hhd & Hn).
  destruct (normalized_perimeter_ends _ _ Hn) as (m' & Hsm' & Hqh & Hql & Hsub).
  assert (m' = m) as ->
    by (eapply smallest_point_unique; [done|by apply min_point_smallest]).
  assert (Hc : ∃ c, rotation (removelast p) c ∧ head (c ++ [m]) = Some m ∧
                    dedup_runs (p2 ++ p1 ++ [m]) = dedup_runs (c ++ [m]) ∧
                    ((2 ≤ length p)%nat → head c = Some m)).
  { destruct (last p) as [x|] eqn:Hlast; [|by rewrite last_None in Hlast].
    destruct (last_Some p x) as [[body Hbody] _]; [done|].
    destruct p2 as [|y p2' _] using rev_ind.
    - (* no rotation: the perimeter starts at its smallest point *)
      rewrite app_nil_r in Hsplit. subst p1. cbn [app] in *.
      assert (x = m) as -> by congruence.
      exists body. rewrite Hbody, removelast_last. split; [by exists body, []; rewrite app_nil_r|].
      rewrite Hbody in Hhd. split; [|split].
      + destruct body; [done|]. exact Hhd.
      + rewrite <- app_assoc. cbn [app]. apply dedup_runs_middle.
      + intros Hlen. rewrite length_app in Hlen. cbn [length] in Hlen.
        destruct body; [simpl in Hlen; lia|]. exact Hhd.
    - assert (y = x) as ->.
      { rewrite Hsplit, app_assoc, last_snoc in Hlast. congruence. }
      destruct p1 as [|z p1'].
      + cbn [app] in *. rewrite app_nil_r in Hhd.
        assert (Heq : body = p2') by (apply (app_inj_tail body p2' x x); congruence).
        subst p2'.
        assert (x = m) as ->.
        { rewrite <- Hsplit in Hhd. congruence. }
        exists body. rewrite Hbody, removelast_last.
        split; [by exists body, []; rewrite app_nil_r|].
        split; [|split].
        * destruct body; [done|]. exact Hhd.
        * rewrite <- app_assoc. cbn [app]. apply dedup_runs_middle.
        * intros Hlen. rewrite length_app in Hlen. cbn [length] in Hlen.
          destruct body; [simpl in Hlen; lia|]. exact Hhd.
      + assert (z = x) as ->.
        { rewrite Hsplit in Hclosed. cbn [app head] in Hclosed. congruence. }
        assert (Heq : body = (x :: p1') ++ p2').
        { apply (app_inj_tail body ((x :: p1') ++ p2') x x).
          rewrite <- Hbody, Hsplit. by rewrite <- app_assoc. }
        exists (p2' ++ x :: p1'). rewrite Hbody, removelast_last, Heq.
        split; [by exists (x :: p1'), p2'|].
        assert (Hhd' : head (p2' ++ x :: p1') = Some m).
        { rewrite <- app_assoc in Hhd. cbn [app] in Hhd.
          destruct p2'; simpl in *; congruence. }
        split; [|split].
        * by apply head_app_Some.
        * rewrite <- !app_assoc. cbn [app]. apply dedup_runs_middle.
        * done. }
  destruct Hc as (c & Hrot & Hhc & Hdd & Hhc2).
  exists (dedup_runs (p2 ++ p1 ++ [m])), m, c.
  split; [done|]. split; [done|]. split; [done|]. split; [done|]. split; [done|].
  split; [done|]. intros Hnd Hlen. split; [|apply Hhc2; lia].
  rewrite Hdd. apply dedup_runs_NoDup_snoc.
  - destruct Hrot as (l1 & l2 & Hl & ->). rewrite Hl in Hnd.
    apply NoDup_app in Hnd as (H1 & H2 & H3). apply NoDup_app. set_solver.
  - apply Hhc2. lia.
  - destruct Hrot as (l1 & l2 & Hl & ->).
    rewrite length_app, Nat.add_comm, <- length_app, <- Hl.
    destruct (last p) as [x|] eqn:Hlast; [|by rewrite last_None in Hlast].
    destruct (last_Some p x) as [[body ->] _]; [done|].
    rewrite removelast_last. rewrite length_app in Hlen. simpl in Hlen. lia.
Qed.

Lemma normalized_perimeter_rotation_witness :
  ∃ q m c,
    normalized_perimeter [(1, 0); (1, 1); (0, 1); (0, 0); (1, 0)] = Some q ∧
    smallest_point m [(1, 0); (1, 1); (0, 1); (0, 0); (1, 0)] ∧
    head q = Some m ∧ last q = Some m ∧
    rotation (removelast [(1, 0); (1, 1); (0, 1); (0, 0); (1, 0)]) c ∧
    q = dedup_runs (c ++ [m]) ∧
    (NoDup (removelast [(1, 0); (1, 1); (0, 1); (0, 0); (1, 0)]) →
     (3 ≤ length [(1, 0); (1, 1); (0, 1); (0, 0); (1, 0)])%nat →
     q = c ++ [m] ∧ head c = Some m).
Proof.
  apply (normalized_perimeter_rotation [(1, 0); (1, 1); (0, 1); (0, 0); (1, 0)]).
  split; [discriminate|reflexivity].
Defined.

(** ** The single blocked box *)

(** C6. For the matrix [[0]], [build] returns the single perimeter
    [(0,0), (1,0), (1,1), (0,1), (0,0)], whatever fuel beyond four turns of
    the walk it is given. *)
Theorem build_single_block (n : nat) :
  (blocks_map ← mat2map [[0]]; build blocks_map (4 + n))
  = Some [[(0, 0); (1, 0); (1, 1); (0, 1); (0, 0)]].
Proof. reflexivity. Qed.

(** ** The empty graph *)

(** C10. Without walls, [triangulate_walls] returns the empty list of
    triangles: the run is a plain return, with no export of the dictionary
    and no call of the triangulation library. *)
Theorem triangulate_walls_no_walls (holes : list Hole) :
  triangulate_walls [] holes = Return [].
Proof. reflexivity. Qed.

(** ** Hole markers *)

Lemma foldl_app_flat {A B} (f : A → list B) (l : list A) (acc : list B) :
  foldl (λ ret a, ret ++ f a) acc l = acc ++ (l ≫= f).
Proof.
  revert acc. induction l as [|a l IH]; intros acc; cbn [foldl mbind list_bind].
  - by rewrite app_nil_r.
  - rewrite IH. by rewrite app_assoc.
Qed.

Lemma foldl_ext_all {A B} (f g : A → B → A) (l : list B) (acc : A) :
  (∀ a b, f a b = g a b) → foldl f acc l = foldl g acc l.
Proof.
  intros Hfg. revert acc. induction l as [|b l IH]; intros acc; [done|].
  cbn [foldl]. by rewrite Hfg, IH.
Qed.

Lemma fmap_list_bind {A B C} (f : B → C) (g : A → list B) (l : list A) :
  f <$> (l ≫= g) = l ≫= (λ a, f <$> g a).
Proof.
  induction l as [|a l IH]; [done|].
  by rewrite !bind_cons, fmap_app, IH.
Qed.

Lemma matrix2holes_walkable_boxes matrix :
  matrix2holes matrix = box_centre <$> walkable_boxes matrix.
Proof.
  unfold matrix2holes, walkable_boxes.
  rewrite fmap_list_bind.
  rewrite <- (app_nil_l (_ ≫= _)), <- foldl_app_flat.
  apply foldl_ext_all. intros ret yrow.
  rewrite fmap_list_bind, <- foldl_app_flat.
  apply foldl_ext_all. intros ret' xw.
  destruct (decide _); [by rewrite app_nil_r|done].
Qed.

Lemma elem_of_enumerate {A} (l : list A) (i : Z) (x : A) :
  (i, x) ∈ enumerate l ↔ 0 ≤ i ∧ l !! Z.to_nat i = Some x.
Proof.
  unfold enumerate. rewrite elem_of_lookup_zip_with. split.
  - intros (n & i' & x' & [= -> ->] & Hi & Hx).
    apply lookup_seqZ in Hi as [-> _]. split; [lia|].
    by replace (Z.to_nat (0 + Z.of_nat n)) with n by lia.
  - intros [Hi Hx]. exists (Z.to_nat i), i, x. split; [done|]. split; [|done].
    apply lookup_seqZ. apply lookup_lt_Some in Hx. lia.
Qed.

Lemma NoDup_enumerate {A} (l : list A) : NoDup (enumerate l).
Proof. apply NoDup_zip_l, NoDup_seqZ. Qed.

Lemma elem_of_walkable_boxes matrix box :
  box ∈ walkable_boxes matrix ↔ walkable_at matrix box.
Proof.
  unfold walkable_boxes, walkable_at. rewrite list_elem_of_bind. split.
  - intros ([y row] & Hb & Hy). apply list_elem_of_bind in Hb as ([x w] & Hb & Hx).
    cbn [fst snd] in *. destruct (decide (w = 0)); [by apply elem_of_nil in Hb|].
    apply list_elem_of_singleton in Hb as ->. cbn [fst snd].
    apply elem_of_enumerate in Hy as [Hy0 Hy], Hx as [Hx0 Hx]. eauto 10.
  - intros (Hx0 & Hy0 & row & w & Hy & Hx & Hw). destruct box as [x y].
    cbn [fst snd] in *. exists (y, row). split; [|by apply elem_of_enumerate].
    apply list_elem_of_bind. exists (x, w). split; [|by apply elem_of_enumerate].
    cbn [fst snd]. destruct (decide (w = 0)); [done|]. by apply list_elem_of_singleton.
Qed.

Lemma NoDup_walkable_boxes matrix : NoDup (walkable_boxes matrix).
Proof.
  unfold walkable_boxes. apply NoDup_bind; [| |apply NoDup_enumerate].
  - intros [y row] [y' row'] box Hy Hy' Hb Hb'.
    apply list_elem_of_bind in Hb as ([x w] & Hb & Hx).
    apply list_elem_of_bind in Hb' as ([x' w'] & Hb' & Hx').
    cbn [fst snd] in *.
    destruct (decide (w = 0)); [by apply elem_of_nil in Hb|].
    destruct (decide (w' = 0)); [by apply elem_of_nil in Hb'|].
    apply list_elem_of_singleton in Hb as ->.
    apply list_elem_of_singleton in Hb' as [= -> ->].
    apply elem_of_enumerate in Hy as [_ Hy], Hy' as [_ Hy']. congruence.
  - intros [y row] Hy. cbn [fst snd]. apply NoDup_bind; [| |apply NoDup_enumerate].
    + intros [x w] [x' w'] box Hx Hx' Hb Hb'. cbn [fst snd] in *.
      destruct (decide (w = 0)); [by apply elem_of_nil in Hb|].
      destruct (decide (w' = 0)); [by apply elem_of_nil in Hb'|].
      apply list_elem_of_singleton in Hb as ->.
      apply list_elem_of_singleton in Hb' as [= ->].
      apply elem_of_enumerate in Hx as [_ Hx], Hx' as [_ Hx']. congruence.
    + intros [x w] _. cbn [fst snd]. destruct (decide _); [constructor|].
      apply NoDup_singleton.
Qed.

Lemma box_centre_inj a b : box_centre a = box_centre b → a = b.
Proof.
  destruct a as [x y], b as [x' y']. unfold box_centre, half_after. cbn [fst snd].
  intros [= Hx Hy]. f_equal; lia.
Qed.

(** C8, as the code has it. [matrix2holes] marks every walkable box, not
    every walkable region: its result is the list of the centres
    [(x + 0.5, y + 0.5)] of the walkable boxes, row by row, each box once. *)
Theorem matrix2holes_marks_every_walkable_box (matrix : WalkableMatrix) :
  matrix2holes matrix = box_centre <$> walkable_boxes matrix ∧
  NoDup (matrix2holes matrix) ∧
  (∀ box, box ∈ walkable_boxes matrix ↔ walkable_at matrix box) ∧
  (∀ h, h ∈ matrix2holes matrix ↔
        ∃ box, walkable_at matrix box ∧ h = box_centre box).
Proof.
  split; [apply matrix2holes_walkable_boxes|].
  split; [|split].
  - rewrite matrix2holes_walkable_boxes.
    apply NoDup_fmap_2_strong; [|apply NoDup_walkable_boxes].
    intros a b _ _. apply box_centre_inj.
  - apply elem_of_walkable_boxes.
  - intros h. rewrite matrix2holes_walkable_boxes, list_elem_of_fmap.
    split; intros (box & H1 & H2).
    + exists box. by rewrite <- elem_of_walkable_boxes.
    + exists box. by rewrite elem_of_walkable_boxes.
Qed.

(** C8, as stated, fails: a walkable region of two boxes enclosed by blocks
    gets two markers. *)
Lemma matrix2holes_two_markers_in_one_region :
  ¬ one_marker_per_region [[0; 0; 0; 0]; [0; 1; 1; 0]; [0; 0; 0; 0]]
      (matrix2holes [[0; 0; 0; 0]; [0; 1; 1; 0]; [0; 0; 0; 0]]).
Proof.
  intros H.
  specialize (H 0%nat 1%nat (Qmake 3 2, Qmake 3 2) (Qmake 5 2, Qmake 3 2)
                eq_refl eq_refl).
  enough (0 = 1)%nat by lia. apply H.
  change (hole_box (Qmake 3 2, Qmake 3 2)) with ((1, 1) : Z * Z).
  change (hole_box (Qmake 5 2, Qmake 3 2)) with ((2, 1) : Z * Z).
  apply (same_region_next _ (1, 1) (1, 1) (2, 1)).
  - apply same_region_here. repeat split; [done..|]. by exists [0; 1; 1; 0], 1.
  - reflexivity.
  - repeat split; [done..|]. by exists [0; 1; 1; 0], 1.
Qed.

(** ** The sort of Python keeps the entries *)

Lemma insert_sorted_Permutation {A} (leb : A → A → bool) x l :
  insert_sorted leb x l ≡ₚ x :: l.
Proof.
  induction l as [|y l IH]; [done|]. cbn [insert_sorted].
  destruct (leb y x); [|done]. rewrite IH. apply perm_swap.
Qed.

Lemma sorted_Permutation {A} (leb : A → A → bool) l : sorted leb l ≡ₚ l.
Proof.
  unfold sorted.
  enough (H : ∀ acc, foldl (λ acc x, insert_sorted leb x acc) acc l ≡ₚ acc ++ l)
    by apply (H []).
  induction l as [|x l IH]; intros acc; cbn [foldl].
  - by rewrite app_nil_r.
  - rewrite IH, insert_sorted_Permutation. cbn [app]. apply Permutation_middle.
Qed.

(** ** The tables of the tracer *)

(** Case analysis on a block matrix of zeros and ones. *)
Ltac each_matrix H :=
  unfold all_matrices in H; cbn in H;
  repeat (apply elem_of_cons in H as [->|H]);
  [..|by apply elem_of_nil in H].

(** Case analysis on a versor that has sides. *)
Ltac each_versor H :=
  match type of H with
  | _ ?m ?d = Some _ =>
      unfold arrival_sides, departure_sides in H;
      repeat (destruct (decide _) as [->|?] in H); [..|discriminate H]
  end.

Lemma arrival_sides_versor m d lr : arrival_sides m d = Some lr → d ∈ all_versors.
Proof. intros H. each_versor H; unfold all_versors; set_solver. Qed.

Lemma departure_sides_versor m d lr : departure_sides m d = Some lr → d ∈ all_versors.
Proof. intros H. each_versor H; unfold all_versors; set_solver. Qed.

(** Closes the cases in which the two sides of the edge are equal. *)
Ltac same_sides H := try (exfalso; apply H; reflexivity).

Lemma rule_departure m d l r :
  m ∈ all_matrices → arrival_sides m d = Some (l, r) → l ≠ r →
  ∃ d', rule m d = Some d' ∧ departure_sides m d' = Some (l, r).
Proof.
  intros Hm Hd Hlr. each_matrix Hm; each_versor Hd; vm_compute in Hd;
    injection Hd as <- <-; same_sides Hlr;
    eexists; split; vm_compute; reflexivity.
Qed.

Lemma rule_inj m d1 d2 l1 r1 l2 r2 :
  m ∈ all_matrices →
  arrival_sides m d1 = Some (l1, r1) → l1 ≠ r1 →
  arrival_sides m d2 = Some (l2, r2) → l2 ≠ r2 →
  rule m d1 = rule m d2 → d1 = d2.
Proof.
  intros Hm H1 Hlr1 H2 Hlr2 Hr.
  each_matrix Hm; each_versor H1; vm_compute in H1; injection H1 as <- <-;
    same_sides Hlr1; each_versor H2; vm_compute in H2; injection H2 as <- <-;
    same_sides Hlr2; try reflexivity; vm_compute in Hr; discriminate Hr.
Qed.

Lemma rule_reverse m d d' l r :
  m ∈ all_matrices → arrival_sides m d = Some (l, r) → l ≠ r →
  rule m d = Some d' →
  arrival_sides m (opposite d') = Some (r, l) ∧
  rule m (opposite d') = Some (opposite d) ∧ d' ≠ opposite d.
Proof.
  intros Hm Hd Hlr Hr.
  each_matrix Hm; each_versor Hd; vm_compute in Hd; injection Hd as <- <-;
    same_sides Hlr; vm_compute in Hr; injection Hr as <-;
    (split; [vm_compute; reflexivity|split; [vm_compute; reflexivity|]]);
    vm_compute; discriminate.
Qed.

Lemma rule_still m versors :
  m ∈ all_matrices → POSSIBLE_DIRECTIONS !! m = Some versors → versors ≠ [] →
  ∃ d0 d1 l r,
    arrival_sides m d0 = Some (l, r) ∧ l ≠ r ∧
    rule m d0 = Some d1 ∧ rule m STILL = Some d1.
Proof.
  intros Hm Hv Hne.
  each_matrix Hm; vm_compute in Hv; injection Hv as <-; same_sides Hne.
  all: first
    [ exists UP; eexists _, _, _; vm_compute; (split; [reflexivity|]);
      split; [discriminate|split; reflexivity]
    | exists LEFT; eexists _, _, _; vm_compute; (split; [reflexivity|]);
      split; [discriminate|split; reflexivity]
    | exists RIGHT; eexists _, _, _; vm_compute; (split; [reflexivity|]);
      split; [discriminate|split; reflexivity]
    | exists DOWN; eexists _, _, _; vm_compute; (split; [reflexivity|]);
      split; [discriminate|split; reflexivity] ].
Qed.

Lemma possible_directions_departures m :
  m ∈ all_matrices →
  ∃ versors,
    POSSIBLE_DIRECTIONS !! m = Some versors ∧ NoDup versors ∧
    (length versors = 0 ∨ length versors = 2 ∨ length versors = 4)%nat ∧
    ∀ d, d ∈ versors ↔ ∃ l r, departure_sides m d = Some (l, r) ∧ l ≠ r.
Proof.
  intros Hm. each_matrix Hm; eexists; (split; [vm_compute; reflexivity|]);
    (split; [apply (bool_decide_unpack _); vm_compute; exact I|]);
    (split; [cbn; lia|]); intros d;
    (split;
     [ intros Hd; repeat (apply elem_of_cons in Hd as [Hd|Hd]; [subst d|]);
       [..|by apply elem_of_nil in Hd];
       eexists _, _; vm_compute; (split; [reflexivity|discriminate])
     | intros (l & r & Hd & Hlr); each_versor Hd; vm_compute in Hd;
       injection Hd as <- <-; same_sides Hlr;
       repeat first [apply list_elem_of_here | apply list_elem_of_further] ]).
Qed.

(** ** The walk on the lattice *)

Lemma get0_binary bm box : unit_blocks bm → get0 (map bm) box = 0 ∨ get0 (map bm) box = 1.
Proof.
  intros [_ Hones]. unfold get0. destruct (map bm !! box) as [v|] eqn:E; [|by left].
  right. apply (Hones _ _ E).
Qed.

Lemma matrix_at_binary bm v : unit_blocks bm → matrix_at bm v ∈ all_matrices.
Proof.
  intros Hbm. unfold matrix_at, all_matrices.
  destruct (get0_binary bm (v.1 - 1, v.2 - 1) Hbm) as [-> | ->];
    destruct (get0_binary bm (v.1, v.2 - 1) Hbm) as [-> | ->];
    destruct (get0_binary bm (v.1 - 1, v.2) Hbm) as [-> | ->];
    destruct (get0_binary bm (v.1, v.2) Hbm) as [-> | ->];
    cbn; repeat first [apply list_elem_of_here | apply list_elem_of_further].
Qed.

Lemma vertex2boxes_matrix_at bm v :
  box_size bm = 1 →
  ∃ boxes, vertex2boxes bm v = Some boxes ∧
           boxes2block_matrix bm boxes = matrix_at bm v.
Proof.
  intros Hsize. unfold vertex2boxes, map_vertex. rewrite Hsize.
  destruct (decide (1 = 0)) as [|_]; [done|]. cbn [mbind option_bind].
  eexists. split; [done|]. unfold boxes2block_matrix, matrix_at. cbn.
  by rewrite !Z.quot_1_r.
Qed.

Lemma arrival_sides_RIGHT m : arrival_sides m RIGHT = Some (m.1.1, m.2.1).
Proof. reflexivity. Qed.
Lemma arrival_sides_LEFT m : arrival_sides m LEFT = Some (m.2.2, m.1.2).
Proof. reflexivity. Qed.
Lemma arrival_sides_DOWN m : arrival_sides m DOWN = Some (m.1.2, m.1.1).
Proof. reflexivity. Qed.
Lemma arrival_sides_UP m : arrival_sides m UP = Some (m.2.1, m.2.2).
Proof. reflexivity. Qed.

(** Rewrites the sides of the four versors and the opposites of the
    versors. *)
Ltac versor_sides :=
  change (opposite RIGHT) with LEFT; change (opposite LEFT) with RIGHT;
  change (opposite UP) with DOWN; change (opposite DOWN) with UP;
  rewrite ?arrival_sides_RIGHT, ?arrival_sides_LEFT, ?arrival_sides_DOWN,
    ?arrival_sides_UP.

Lemma sides_after_departure bm v d lr :
  departure_sides (matrix_at bm v) d = Some lr →
  sides bm (sum_vectors v d, d) = Some lr.
Proof.
  intros Hd. unfold sides. each_versor Hd; injection Hd as <-;
    cbn [fst snd]; versor_sides; unfold matrix_at, sum_vectors;
    unfold RIGHT, LEFT, UP, DOWN; cbn [fst snd]; repeat f_equal; lia.
Qed.

Lemma sides_reverse bm s l r :
  sides bm s = Some (l, r) → sides bm (reverse s) = Some (r, l).
Proof.
  destruct s as [[x y] d]. unfold sides, reverse, origin. cbn [fst snd].
  intros Hd. each_versor Hd; injection Hd as <- <-;
    versor_sides; unfold matrix_at;
    unfold RIGHT, LEFT, UP, DOWN; cbn [fst snd]; repeat f_equal; lia.
Qed.

Lemma origin_sum v d : origin (sum_vectors v d, d) = v.
Proof. destruct v. unfold origin, sum_vectors. cbn [fst snd]. f_equal; lia. Qed.

Lemma on_wall_step bm s :
  unit_blocks bm → on_wall bm s →
  ∃ d', rule (matrix_at bm s.1) s.2 = Some d' ∧
        step bm s = (sum_vectors s.1 d', d') ∧
        departure_sides (matrix_at bm s.1) d' = sides bm s.
Proof.
  intros Hbm (l & r & Hs & Hlr).
  destruct (rule_departure _ _ _ _ (matrix_at_binary bm s.1 Hbm) Hs Hlr)
    as (d' & Hr & Hd).
  exists d'. unfold step. rewrite Hr. by rewrite Hs.
Qed.

Lemma sides_step bm s :
  unit_blocks bm → on_wall bm s → sides bm (step bm s) = sides bm s.
Proof.
  intros Hbm Hw. destruct (on_wall_step bm s Hbm Hw) as (d' & _ & -> & Hd).
  destruct Hw as (l & r & Hs & _). rewrite Hs in *.
  by apply sides_after_departure.
Qed.

Lemma on_wall_step_on_wall bm s :
  unit_blocks bm → on_wall bm s → on_wall bm (step bm s).
Proof.
  intros Hbm Hw. unfold on_wall. rewrite sides_step by done. exact Hw.
Qed.

Lemma origin_step bm s :
  unit_blocks bm → on_wall bm s → origin (step bm s) = s.1.
Proof.
  intros Hbm Hw. destruct (on_wall_step bm s Hbm Hw) as (d' & _ & -> & _).
  apply origin_sum.
Qed.

Lemma step_inj bm s1 s2 :
  unit_blocks bm → on_wall bm s1 → on_wall bm s2 →
  step bm s1 = step bm s2 → s1 = s2.
Proof.
  intros Hbm Hw1 Hw2 Heq.
  assert (Hv : s1.1 = s2.1).
  { rewrite <- (origin_step bm s1), <- (origin_step bm s2) by done. by rewrite Heq. }
  destruct (on_wall_step bm s1 Hbm Hw1) as (d1 & Hr1 & He1 & _).
  destruct (on_wall_step bm s2 Hbm Hw2) as (d2 & Hr2 & He2 & _).
  rewrite He1, He2 in Heq. injection Heq as _ _ Hd.
  assert (d1 = d2) as -> by (destruct d1, d2; simpl in *; congruence).
  destruct Hw1 as (l1 & r1 & Hs1 & Hlr1), Hw2 as (l2 & r2 & Hs2 & Hlr2).
  unfold sides in Hs1, Hs2. rewrite Hv in Hs1, Hr1.
  destruct s1 as [v1 a1], s2 as [v2 a2]. cbn [fst snd] in *. subst v1. f_equal.
  eapply (rule_inj (matrix_at bm v2)); eauto using matrix_at_binary. congruence.
Qed.

Lemma opposite_involutive d : opposite (opposite d) = d.
Proof. destruct d. unfold opposite. cbn [fst snd]. f_equal; lia. Qed.

Lemma reverse_involutive s : reverse (reverse s) = s.
Proof.
  destruct s as [[x y] [dx dy]]. unfold reverse, origin, opposite. cbn [fst snd].
  repeat f_equal; lia.
Qed.

Lemma on_wall_reverse bm s : on_wall bm s → on_wall bm (reverse s).
Proof.
  intros (l & r & Hs & Hlr). exists r, l. split; [by apply sides_reverse|done].
Qed.

Lemma reverse_ne_sides bm s t :
  on_wall bm s → sides bm t = sides bm s → t ≠ reverse s.
Proof.
  intros (l & r & Hs & Hlr) Ht ->. rewrite (sides_reverse _ _ _ _ Hs), Hs in Ht.
  congruence.
Qed.

Lemma step_reverse bm s :
  unit_blocks bm → on_wall bm s → step bm (reverse (step bm s)) = reverse s.
Proof.
  intros Hbm Hw. pose proof (origin_step bm s Hbm Hw) as Ho.
  destruct (on_wall_step bm s Hbm Hw) as (d' & Hr & He & _).
  destruct Hw as (l & r & Hs & Hlr).
  destruct (rule_reverse _ _ _ _ _ (matrix_at_binary bm s.1 Hbm) Hs Hlr Hr)
    as (_ & Hr' & _).
  unfold reverse at 1. rewrite Ho, He. cbn [snd]. unfold step. cbn [fst snd].
  rewrite Hr'. unfold reverse. f_equal.
Qed.

Lemma step_no_turn_back bm s :
  unit_blocks bm → on_wall bm s → (step bm s).2 ≠ opposite s.2.
Proof.
  intros Hbm Hw. destruct (on_wall_step bm s Hbm Hw) as (d' & Hr & -> & _).
  destruct Hw as (l & r & Hs & Hlr).
  by destruct (rule_reverse _ _ _ _ _ (matrix_at_binary bm s.1 Hbm) Hs Hlr Hr)
    as (_ & _ & ?).
Qed.

Lemma on_wall_iter bm s n :
  unit_blocks bm → on_wall bm s →
  on_wall bm (Nat.iter n (step bm) s) ∧
  sides bm (Nat.iter n (step bm) s) = sides bm s.
Proof.
  intros Hbm Hw. induction n as [|n [IH1 IH2]]; [done|]. rewrite Nat.iter_succ.
  split; [by apply on_wall_step_on_wall|]. by rewrite sides_step.
Qed.

Lemma iter_cancel bm a b n :
  unit_blocks bm → on_wall bm a → on_wall bm b →
  Nat.iter n (step bm) a = Nat.iter n (step bm) b → a = b.
Proof.
  intros Hbm Ha Hb. induction n as [|n IH]; [done|]. rewrite !Nat.iter_succ.
  intros Heq. apply IH. eapply step_inj; [done|..|done]; by apply on_wall_iter.
Qed.

(** ** The walk comes back *)

Lemma extent_bound bm box v :
  map bm !! box = Some v → Z.abs box.1 ≤ extent bm ∧ Z.abs box.2 ≤ extent bm.
Proof.
  unfold extent. revert box v.
  apply (map_fold_weak_ind
           (λ r (m : gmap (Z * Z) Z),
              ∀ box v, m !! box = Some v → Z.abs box.1 ≤ r ∧ Z.abs box.2 ≤ r)).
  - intros box v. by rewrite lookup_empty.
  - intros i x m r _ IH box v. rewrite lookup_insert_Some.
    intros [[<- _]|[_ Hm]]; [lia|]. specialize (IH _ _ Hm). lia.
Qed.

Lemma get0_nonzero bm box :
  get0 (map bm) box ≠ 0 → Z.abs box.1 ≤ extent bm ∧ Z.abs box.2 ≤ extent bm.
Proof.
  unfold get0. destruct (map bm !! box) as [v|] eqn:E; [|done].
  intros _. by eapply extent_bound.
Qed.

Lemma on_wall_wall_states bm s : on_wall bm s → s ∈ wall_states bm.
Proof.
  intros (l & r & Hs & Hlr). unfold sides in Hs.
  pose proof (arrival_sides_versor _ _ _ Hs) as Hd.
  destruct s as [[x y] d]. cbn [fst snd] in *.
  assert (Hnear : ∃ box, get0 (map bm) box ≠ 0 ∧
            x - 1 ≤ box.1 ≤ x ∧ y - 1 ≤ box.2 ≤ y).
  { destruct (decide (l = 0)) as [->|Hl].
    - each_versor Hs; injection Hs as Hl Hr; unfold matrix_at in Hr;
        cbn [fst snd] in Hr; (eexists; split; [rewrite Hr; exact (not_eq_sym Hlr)|]);
        cbn [fst snd]; lia.
    - each_versor Hs; injection Hs as Hl' Hr; unfold matrix_at in Hl';
        cbn [fst snd] in Hl'; (eexists; split; [rewrite Hl'; exact Hl|]);
        cbn [fst snd]; lia. }
  destruct Hnear as (box & Hbox & Hx & Hy).
  apply get0_nonzero in Hbox as [Hbx Hby].
  unfold wall_states.
  apply list_elem_of_bind. exists x. split; [|apply elem_of_seqZ; lia].
  apply list_elem_of_bind. exists y. split; [|apply elem_of_seqZ; lia].
  apply list_elem_of_bind. exists d. split; [|done].
  by apply list_elem_of_singleton.
Qed.

Lemma trail_lookup bm k s j :
  (j < k)%nat → trail bm k s !! j = Some (Nat.iter j (step bm) s).
Proof.
  intros Hj. unfold trail. rewrite list_lookup_fmap, lookup_seq_lt by done. done.
Qed.

Lemma length_trail bm k s : length (trail bm k s) = k.
Proof. unfold trail. by rewrite length_fmap, length_seq. Qed.

Lemma elem_of_trail bm k s t :
  t ∈ trail bm k s ↔ ∃ j, (j < k)%nat ∧ t = Nat.iter j (step bm) s.
Proof.
  unfold trail. rewrite list_elem_of_fmap. setoid_rewrite elem_of_seq.
  split; intros (j & H1 & H2); exists j; (split; [lia|done]) || (split; [done|lia]).
Qed.

Lemma step_periodic bm s :
  unit_blocks bm → on_wall bm s →
  ∃ n, (0 < n ≤ length (wall_states bm))%nat ∧ Nat.iter n (step bm) s = s.
Proof.
  intros Hbm Hw. set (N := length (wall_states bm)).
  destruct (list_pigeonhole (trail bm (S N) s) (wall_states bm))
    as (i1 & i2 & x & Hlt & H1 & H2).
  { intros t Ht. apply elem_of_trail in Ht as (j & _ & ->).
    apply on_wall_wall_states. by apply on_wall_iter. }
  { rewrite length_trail. lia. }
  pose proof (lookup_lt_Some _ _ _ H2) as Hi2. rewrite length_trail in Hi2.
  rewrite trail_lookup in H1, H2 by lia.
  exists (i2 - i1)%nat. split; [lia|].
  apply (iter_cancel bm _ _ i1 Hbm); [by apply on_wall_iter|done|].
  rewrite <- Nat.iter_add. replace (i1 + (i2 - i1))%nat with i2 by lia.
  congruence.
Qed.

Lemma walk_unfold bm fuel first tracked perim d v d' :
  unit_blocks bm → rule (matrix_at bm v) d = Some d' →
  walk bm (S fuel) first tracked perim d v
  = if decide (sum_vectors v d' = first)
    then Some (counter_add tracked v (pass_weight bm v),
               perim ++ [sum_vectors v d'])
    else walk bm fuel first (counter_add tracked v (pass_weight bm v))
           (perim ++ [sum_vectors v d']) d' (sum_vectors v d').
Proof.
  intros Hbm Hr. cbn [walk].
  destruct (vertex2boxes_matrix_at bm v (proj1 Hbm)) as (boxes & Hb & Hm).
  rewrite Hb. cbn [mbind option_bind]. cbv zeta. rewrite Hm.
  destruct (possible_directions_departures _ (matrix_at_binary bm v Hbm))
    as (versors & Hv & _).
  unfold pass_weight. rewrite Hv. cbn [mbind option_bind].
  unfold rule in Hr. destruct (RULES !! matrix_at bm v) as [rules|]; [|done].
  cbn [mbind option_bind] in *. rewrite Hr. cbn [mbind option_bind]. done.
Qed.

Lemma trail_S bm k s : trail bm (S k) s = s :: trail bm k (step bm s).
Proof.
  unfold trail. rewrite <- cons_seq, fmap_cons. f_equal.
  rewrite <- fmap_S_seq, <- list_fmap_compose. apply list_fmap_ext.
  intros _ j _. unfold compose. by rewrite Nat.iter_succ_r.
Qed.

Lemma walk_follows_trail bm k :
  unit_blocks bm →
  ∀ s1 first fuel tracked perim v d,
    on_wall bm s1 → (1 ≤ k ≤ fuel)%nat →
    (Nat.iter (k - 1) (step bm) s1).1 = first →
    (∀ j, (j < k - 1)%nat → (Nat.iter j (step bm) s1).1 ≠ first) →
    rule (matrix_at bm v) d = Some s1.2 → sum_vectors v s1.2 = s1.1 →
    walk bm fuel first tracked perim d v
    = Some (add_passes bm tracked (trail bm k s1),
            perim ++ (fst <$> trail bm k s1)).
Proof.
  intros Hbm. induction k as [|k IH];
    intros s1 first fuel tracked perim v d Hw Hk Hfirst Hnot Hr Hsum; [lia|].
  destruct fuel as [|fuel]; [lia|].
  rewrite (walk_unfold _ _ _ _ _ _ _ _ Hbm Hr), Hsum.
  assert (Ho : origin s1 = v).
  { clear -Hsum. destruct s1 as [v1 d1]. cbn [fst snd] in Hsum. subst v1.
    apply origin_sum. }
  rewrite trail_S. unfold add_passes. cbn [foldl fmap list_fmap]. rewrite Ho.
  destruct k as [|k].
  - cbn in Hfirst. destruct (decide (s1.1 = first)); [|done]. done.
  - destruct (decide (s1.1 = first)) as [Heq|_].
    { exfalso. apply (Hnot 0%nat); [lia|done]. }
    destruct (on_wall_step bm s1 Hbm Hw) as (d' & Hr' & He & _).
    rewrite (IH (step bm s1) first fuel _ _ s1.1 s1.2).
    + by rewrite <- app_assoc.
    + by apply on_wall_step_on_wall.
    + lia.
    + rewrite <- Nat.iter_succ_r. replace (S (S k - 1)) with (S (S k) - 1)%nat by lia.
      done.
    + intros j Hj. rewrite <- Nat.iter_succ_r. apply Hnot. lia.
    + rewrite He. done.
    + rewrite He. done.
Qed.

Lemma least_index (P : nat → Prop) `{∀ n, Decision (P n)} (n : nat) :
  P n → ∃ j, (j ≤ n)%nat ∧ P j ∧ ∀ i, (i < j)%nat → ¬ P i.
Proof.
  induction n as [n IH] using lt_wf_ind. intros Hn.
  destruct (decide (Exists P (seq 0 n))) as [Hsome|Hnone].
  - apply Exists_exists in Hsome as (i & Hi & Hp). apply elem_of_seq in Hi.
    destruct (IH i ltac:(lia) Hp) as (j & Hj & Hpj & Hmin).
    exists j. split; [lia|done].
  - exists n. split; [done|]. split; [done|]. intros i Hi Hp. apply Hnone.
    apply Exists_exists. exists i. split; [apply elem_of_seq; lia|done].
Qed.

(** From a vertex of the boundary the walk comes back to it: the states it
    goes through are a trail, and the fuel it needs is bounded by the number
    of wall states of the map. *)
Lemma walk_returns bm v0 :
  unit_blocks bm → boundary_vertex bm v0 →
  ∃ s0 k,
    on_wall bm s0 ∧ s0.1 = v0 ∧
    rule (matrix_at bm v0) STILL = Some (step bm s0).2 ∧
    (2 ≤ k ≤ length (wall_states bm))%nat ∧
    (Nat.iter (k - 1) (step bm) (step bm s0)).1 = v0 ∧
    (∀ j, (j < k - 1)%nat → (Nat.iter j (step bm) (step bm s0)).1 ≠ v0) ∧
    ∀ fuel tracked,
      (k ≤ fuel)%nat →
      walk bm fuel v0 tracked [v0] STILL v0
      = Some (add_passes bm tracked (trail bm k (step bm s0)),
              v0 :: (fst <$> trail bm k (step bm s0))).
Proof.
  intros Hbm (versors & Hv & Hne).
  destruct (rule_still _ _ (matrix_at_binary bm v0 Hbm) Hv Hne)
    as (d0 & d1 & l & r & Hs & Hlr & Hr0 & Hstill).
  set (s0 := (v0, d0) : (Z * Z) * (Z * Z)).
  assert (Hw0 : on_wall bm s0) by (by exists l, r).
  destruct (on_wall_step bm s0 Hbm Hw0) as (d' & Hr' & He & _).
  assert (d' = d1) as ->
    by (unfold s0 in Hr'; cbn [fst snd] in Hr'; congruence).
  destruct (step_periodic bm s0 Hbm Hw0) as (n & Hn & Hper).
  assert (Hback : (Nat.iter (n - 1) (step bm) (step bm s0)).1 = v0).
  { rewrite <- Nat.iter_succ_r. replace (S (n - 1)) with n by lia. by rewrite Hper. }
  destruct (least_index (λ j, (Nat.iter j (step bm) (step bm s0)).1 = v0)
              (n - 1) Hback) as (j & Hj & Hpj & Hmin).
  assert (Hj0 : j ≠ 0%nat).
  { intros ->. cbn in Hpj. rewrite He in Hpj. cbn [fst] in Hpj.
    pose proof (arrival_sides_versor _ _ _ (eq_trans (sides_step bm s0 Hbm Hw0) Hs))
      as Hd.
    rewrite He in Hd. cbn [snd] in Hd.
    destruct v0 as [x y]. unfold sum_vectors in Hpj. cbn [fst snd] in Hpj.
    injection Hpj as Hx Hy.
    unfold all_versors in Hd.
    repeat (apply elem_of_cons in Hd as [->|Hd]); [..|by apply elem_of_nil in Hd];
      cbn in Hx, Hy; lia. }
  exists s0, (S j). split; [done|]. split; [done|].
  split; [by rewrite He|]. split; [lia|].
  replace (S j - 1)%nat with j by lia. split; [done|]. split; [done|].
  intros fuel tracked Hfuel.
  rewrite (walk_follows_trail bm (S j) Hbm (step bm s0) v0 fuel tracked [v0] v0 STILL);
    [done|by apply on_wall_step_on_wall|lia|..].
  - by replace (S j - 1)%nat with j by lia.
  - by replace (S j - 1)%nat with j by lia.
  - rewrite He. done.
  - rewrite He. done.
Qed.

(** ** The loop of [build] *)

Lemma build_step_skipped bm fuel tracked ret v :
  unit_blocks bm → skipped bm tracked v →
  build_step bm fuel (Some (tracked, ret)) v = Some (tracked, ret).
Proof.
  intros Hbm Hskip. unfold build_step. cbn [mbind option_bind].
  destruct (vertex2boxes_matrix_at bm v (proj1 Hbm)) as (boxes & Hb & Hm).
  rewrite Hb. cbn [mbind option_bind]. cbv zeta. rewrite Hm.
  destruct (possible_directions_departures _ (matrix_at_binary bm v Hbm))
    as (versors & Hv & _). rewrite Hv. cbn [mbind option_bind].
  destruct (decide (length versors = 0%nat)) as [|Hlen]; [done|].
  destruct Hskip as [Hnb|[[(vs & Hvs & H4) Hn]|[Hns Hn]]].
  - exfalso. apply Hnb. exists versors. split; [done|]. by intros ->.
  - assert (vs = versors) as -> by congruence.
    destruct (decide _) as [|Hno]; [done|]. exfalso. by apply Hno.
  - destruct (decide _) as [|_]; [done|].
    destruct (decide _) as [|Hno]; [done|]. exfalso. apply Hno. split; [|done].
    intros H4. apply Hns. by exists versors.
Qed.

Lemma build_step_walked bm fuel tracked ret v :
  unit_blocks bm → ¬ skipped bm tracked v →
  (length (wall_states bm) ≤ fuel)%nat →
  ∃ s0 k p,
    on_wall bm s0 ∧ s0.1 = v ∧
    rule (matrix_at bm v) STILL = Some (step bm s0).2 ∧
    (2 ≤ k)%nat ∧
    (Nat.iter (k - 1) (step bm) (step bm s0)).1 = v ∧
    (∀ j, (j < k - 1)%nat → (Nat.iter j (step bm) (step bm s0)).1 ≠ v) ∧
    closed_perimeter p ∧
    build_step bm fuel (Some (tracked, ret)) v
    = Some (add_passes bm tracked (trail bm k (step bm s0)), ret ++ [p]).
Proof.
  intros Hbm Hskip Hfuel.
  assert (Hb : boundary_vertex bm v).
  { destruct (possible_directions_departures _ (matrix_at_binary bm v Hbm))
      as (versors & Hv & _).
    destruct (decide (versors = [])) as [->|Hne].
    - exfalso. apply Hskip. left. intros (vs & Hvs & Hne). congruence.
    - by exists versors. }
  destruct (walk_returns bm v Hbm Hb)
    as (s0 & k & Hw & Hs0 & Hstill & Hk & Hback & Hmin & Hwalk).
  set (perim := v :: (fst <$> trail bm k (step bm s0))).
  assert (Hlast : last perim = Some v).
  { unfold perim. replace k with (S (k - 1)) by lia.
    unfold trail. rewrite seq_S, fmap_app, fmap_app. cbn [fmap list_fmap].
    rewrite app_comm_cons, last_snoc. cbn [Nat.add fst]. by rewrite Hback. }
  destruct (remove_internal_edge_points_ends perim) as (a & b & Ha & Hb' & Hrem).
  { unfold perim. cbn [length]. rewrite length_fmap, length_trail. lia. }
  assert (a = v) as -> by (unfold perim in Ha; simpl in Ha; congruence).
  assert (b = v) as -> by congruence.
  destruct (normalized_perimeter_unfold (v :: corner_points perim ++ [v]))
    as (m & p1 & p2 & _ & _ & _ & Hnorm); [done|].
  destruct (normalized_perimeter_ends _ _ Hnorm) as (m' & _ & Hh & Hl & _).
  exists s0, k, (dedup_runs (p2 ++ p1 ++ [m])).
  split; [done|]. split; [done|]. split; [done|]. split; [lia|].
  split; [done|]. split; [done|]. split.
  { split; [|congruence]. intros E. by rewrite E in Hh. }
  unfold build_step. cbn [mbind option_bind].
  destruct (vertex2boxes_matrix_at bm v (proj1 Hbm)) as (boxes & Hbx & Hm).
  rewrite Hbx. cbn [mbind option_bind]. cbv zeta. rewrite Hm.
  destruct Hb as (versors & Hv & Hne). rewrite Hv. cbn [mbind option_bind].
  destruct (decide (length versors = 0%nat)) as [Hz|_].
  { destruct versors; [done|discriminate Hz]. }
  destruct (decide _) as [[H4 Hn]|_].
  { exfalso. apply Hskip. right. left. split; [by exists versors|done]. }
  destruct (decide _) as [[H4 Hn]|_].
  { exfalso. apply Hskip. right. right. split; [|done].
    intros (vs & Hvs & H4'). congruence. }
  rewrite Hwalk by lia. cbn [mbind option_bind]. fold perim.
  rewrite Hrem. cbn [mbind option_bind]. rewrite Hnorm. done.
Qed.

Lemma skipped_or_not bm tracked v :
  unit_blocks bm → skipped bm tracked v ∨ ¬ skipped bm tracked v.
Proof.
  intros Hbm. unfold skipped, boundary_vertex, saddle_vertex.
  destruct (possible_directions_departures _ (matrix_at_binary bm v Hbm))
    as (versors & Hv & _). rewrite Hv.
  destruct (decide (versors = [])) as [->|Hne].
  { left. left. intros (vs & [= <-] & ?). done. }
  destruct (decide (length versors = 4%nat)) as [H4|H4].
  - destruct (decide (1 < get0 tracked v)) as [Hn|Hn].
    + left. right. left. split; [by exists versors|done].
    + right. intros [Hb|[[_ ?]|[Hs _]]]; [|done|].
      * apply Hb. by exists versors.
      * apply Hs. by exists versors.
  - destruct (decide (0 < get0 tracked v)) as [Hn|Hn].
    + left. right. right. split; [|done]. intros (vs & [= <-] & ?). done.
    + right. intros [Hb|[[(vs & [= <-] & ?) _]|[_ ?]]]; [|done..].
      apply Hb. by exists versors.
Qed.

Lemma build_loop_closed bm fuel vertices tracked ret :
  unit_blocks bm → (length (wall_states bm) ≤ fuel)%nat →
  Forall closed_perimeter ret →
  ∃ tracked' ret',
    foldl (build_step bm fuel) (Some (tracked, ret)) vertices
    = Some (tracked', ret') ∧
    Forall closed_perimeter ret'.
Proof.
  intros Hbm Hfuel. revert tracked ret.
  induction vertices as [|v vertices IH]; intros tracked ret Hret; cbn [foldl].
  { by exists tracked, ret. }
  destruct (skipped_or_not bm tracked v Hbm) as [Hskip|Hskip].
  - rewrite build_step_skipped by done. by apply IH.
  - destruct (build_step_walked bm fuel tracked ret v Hbm Hskip Hfuel)
      as (s0 & k & p & _ & _ & _ & _ & _ & _ & Hp & ->).
    apply IH. apply Forall_app. split; [done|]. by apply Forall_singleton.
Qed.

Lemma build_returns_closed bm fuel :
  unit_blocks bm → (length (wall_states bm) ≤ fuel)%nat →
  ∃ ret, build bm fuel = Some ret ∧ ∀ p, p ∈ ret → closed_perimeter p.
Proof.
  intros Hbm Hfuel. unfold build. destruct (decide (map bm = ∅)) as [_|_].
  { exists []. split; [done|]. intros p Hp. by apply elem_of_nil in Hp. }
  unfold build_loop.
  destruct (build_loop_closed bm fuel (get_grid_vertices bm) ∅ [] Hbm Hfuel)
    as (tracked & ret & -> & Hret); [constructor|].
  cbn [mbind option_bind]. eexists. split; [done|].
  intros p Hp. rewrite sorted_Permutation in Hp.
  by apply (proj1 (Forall_forall _ _) Hret).
Qed.

(** ** From the matrix to the blocks map *)

Lemma enumerate_snoc {A} (l : list A) (a : A) :
  enumerate (l ++ [a]) = enumerate l ++ [(Z.of_nat (length l), a)].
Proof.
  unfold enumerate. rewrite length_app. cbn [length].
  replace (Z.of_nat (length l + 1)) with (Z.of_nat (length l) + 1) by lia.
  rewrite seqZ_app by lia. rewrite zip_with_app by (rewrite length_seqZ; lia).
  f_equal.
Qed.

Lemma mat2map_row_fold (y : Z) (row : list Z) (ret : gmap (Z * Z) Z) (x : option Z) :
  ∃ ret',
    foldl (mat2map_row y) (ret, x) (enumerate row)
    = (ret', match row with [] => x | _ => Some (Z.of_nat (length row) - 1) end) ∧
    ∀ box v, ret' !! box = Some v ↔
             (v = 1 ∧ box.2 = y ∧ 0 ≤ box.1 ∧ row !! Z.to_nat box.1 = Some 0)
             ∨ ret !! box = Some v ∧
               ¬ (box.2 = y ∧ 0 ≤ box.1 ∧ row !! Z.to_nat box.1 = Some 0).
Proof.
  induction row as [|w row IH] using rev_ind.
  - exists ret. split; [done|]. intros box v. rewrite lookup_nil. naive_solver.
  - destruct IH as (ret' & Hfold & Hret').
    rewrite enumerate_snoc, foldl_app, Hfold. cbn [foldl].
    unfold mat2map_row at 1. cbn [fst snd].
    eexists. split.
    { f_equal. destruct (row ++ [w]) eqn:E; [by destruct row|].
      rewrite <- E, length_app. cbn [length]. f_equal. lia. }
    intros [bx by_] v. cbn [fst snd].
    assert (Hlast : ∀ i : nat, (row ++ [w]) !! i = Some 0 ↔
                      row !! i = Some 0 ∨ (i = length row ∧ w = 0)).
    { intros i. rewrite lookup_app_Some, list_lookup_singleton_Some.
      split; [intros [?|(? & ? & ?)]|intros [?|[-> ->]]]; [by left|right|by left|right].
      - split; [lia|done].
      - split; [lia|]. split; [lia|done]. }
    rewrite Hlast.
    destruct (decide (w = 0)) as [->|Hw].
    + rewrite lookup_insert_Some, Hret'. cbn [fst snd].
      destruct (decide ((Z.of_nat (length row), y) = (bx, by_))) as [[= <- <-]|Hne].
      * assert (Hi : Z.to_nat (Z.of_nat (length row)) = length row) by lia.
        rewrite Hi. split.
        -- intros [[_ <-]|[? _]]; [|done]. left. repeat split; lia.
        -- intros [(-> & _)|[_ Hn]]; [by left|]. exfalso. apply Hn.
           repeat split; lia.
      * assert (Hc : (by_ = y ∧ 0 ≤ bx ∧
                      (row !! Z.to_nat bx = Some 0 ∨ Z.to_nat bx = length row ∧ 0 = 0))
                     ↔ (by_ = y ∧ 0 ≤ bx ∧ row !! Z.to_nat bx = Some 0)).
        { split; [|intros (? & ? & ?); eauto].
          intros (-> & ? & [?|[? _]]); [done|]. exfalso. apply Hne. f_equal. lia. }
        rewrite Hc. split; [intros [[? _]|[_ ?]]; done|intros ?; by right].
    + rewrite Hret'. cbn [fst snd].
      assert (Hc : (by_ = y ∧ 0 ≤ bx ∧
                    (row !! Z.to_nat bx = Some 0 ∨ Z.to_nat bx = length row ∧ w = 0))
                   ↔ (by_ = y ∧ 0 ≤ bx ∧ row !! Z.to_nat bx = Some 0)).
      { split; [|intros (? & ? & ?); eauto]. intros (-> & ? & [?|[_ ?]]); done. }
      by rewrite Hc.
Qed.

Lemma blocked_at_snoc matrix row box :
  blocked_at (matrix ++ [row]) box ↔
  blocked_at matrix box ∨
  (box.2 = Z.of_nat (length matrix) ∧ 0 ≤ box.1 ∧ row !! Z.to_nat box.1 = Some 0).
Proof.
  unfold blocked_at. split.
  - intros (Hx & Hy & r & Hr & H0). apply lookup_app_Some in Hr as [Hr|[Hlen Hr]].
    + left. eauto.
    + apply list_lookup_singleton_Some in Hr as [Hi ->]. right.
      split; [lia|done].
  - intros [(Hx & Hy & r & Hr & H0)|(Hy & Hx & H0)].
    + split; [done|]. split; [done|]. exists r. split; [|done].
      apply lookup_app_Some. by left.
    + split; [done|]. split; [lia|]. exists row. split; [|done].
      apply lookup_app_Some. right. split; [lia|].
      apply list_lookup_singleton_Some. split; [lia|done].
Qed.

Lemma mat2map_rows_spec matrix :
  ∃ ret x,
    mat2map_rows matrix
    = (ret, x, match matrix with
               | [] => None
               | _ => Some (Z.of_nat (length matrix) - 1)
               end) ∧
    (is_Some x ↔ ∃ row, row ∈ matrix ∧ row ≠ []) ∧
    (∀ box v, ret !! box = Some v ↔ v = 1 ∧ blocked_at matrix box).
Proof.
  unfold mat2map_rows. induction matrix as [|row matrix IH] using rev_ind.
  - exists ∅, None. split; [done|]. split.
    + split; [by intros [? ?]|]. intros (row & Hr & _). by apply elem_of_nil in Hr.
    + intros box v. rewrite lookup_empty. split; [done|].
      intros (_ & _ & _ & r & Hr & _). by rewrite lookup_nil in Hr.
  - destruct IH as (ret & x & Hfold & Hx & Hret).
    rewrite enumerate_snoc, foldl_app, Hfold. cbn [foldl].
    destruct (mat2map_row_fold (Z.of_nat (length matrix)) row ret x)
      as (ret' & Hrow & Hret').
    rewrite Hrow. eexists _, _. split.
    { f_equal. destruct (matrix ++ [row]) eqn:E; [by destruct matrix|].
      rewrite <- E, length_app. cbn [length]. f_equal. lia. }
    split.
    + destruct row as [|w row].
      * rewrite Hx. split; intros (r & Hr & Hne); exists r; (split; [|done]).
        -- apply elem_of_app. by left.
        -- apply elem_of_app in Hr as [?|Hr]; [done|].
           by apply list_elem_of_singleton in Hr as ->.
      * split; [|by eexists]. intros _. exists (w :: row). split; [|done].
        apply elem_of_app. right. by apply list_elem_of_singleton.
    + intros box v. rewrite Hret', Hret, blocked_at_snoc.
      split.
      * intros [(-> & ? & ? & ?)|[[-> ?] _]]; (split; [done|]); [by right|by left].
      * intros [-> [Hb|Hn]].
        -- destruct (decide (box.2 = Z.of_nat (length matrix) ∧ 0 ≤ box.1 ∧
                             row !! Z.to_nat box.1 = Some 0)) as [?|?].
           ++ left. done.
           ++ right. done.
        -- left. done.
Qed.

(** C9, as the code has it. [mat2map] does not compare the lengths of the
    rows.  A matrix with a non-empty row, rectangular or not, gives a blocks
    map: unit boxes, the value [1] on the blocked entries and on nothing
    else, as many rows as the matrix has; and the walls are then traced,
    [build] returning for every fuel that covers the wall states. *)
Theorem mat2map_accepts_any_rows (matrix : WalkableMatrix) :
  (∃ row, row ∈ matrix ∧ row ≠ []) →
  ∃ bm,
    mat2map matrix = Some bm ∧
    unit_blocks bm ∧
    (map_size bm).2 = Z.of_nat (length matrix) ∧
    (∀ box v, map bm !! box = Some v ↔ v = 1 ∧ blocked_at matrix box) ∧
    ∀ fuel, (length (wall_states bm) ≤ fuel)%nat →
            is_Some (matrix2obj_wall_perimeters fuel matrix).
Proof.
  intros Hrow. destruct (mat2map_rows_spec matrix) as (ret & x & Hrows & Hx & Hret).
  apply Hx in Hrow as Hsome. destruct Hsome as [x' ->].
  destruct matrix as [|row0 matrix0].
  { destruct Hrow as (r & Hr & _). by apply elem_of_nil in Hr. }
  set (matrix := row0 :: matrix0) in *.
  set (bm := {| map := ret; map_size := (x' + 1, Z.of_nat (length matrix) - 1 + 1);
                box_size := 1 |}).
  assert (Hm : mat2map matrix = Some bm).
  { unfold mat2map. rewrite Hrows. done. }
  assert (Hbm : unit_blocks bm).
  { split; [done|]. intros box v Hv. by apply Hret in Hv as [-> _]. }
  exists bm. split; [done|]. split; [done|]. split; [cbn; lia|]. split; [done|].
  intros fuel Hfuel. unfold matrix2obj_wall_perimeters. rewrite Hm.
  cbn [mbind option_bind].
  destruct (build_returns_closed bm fuel Hbm Hfuel) as (r & -> & _).
  by eexists.
Qed.

Lemma mat2map_accepts_any_rows_witness :
  ∃ bm,
    mat2map [[0; 0]; [0]] = Some bm ∧
    unit_blocks bm ∧
    (map_size bm).2 = Z.of_nat (length [[0; 0]; [0]]) ∧
    (∀ box v, map bm !! box = Some v ↔ v = 1 ∧ blocked_at [[0; 0]; [0]] box) ∧
    ∀ fuel, (length (wall_states bm) ≤ fuel)%nat →
            is_Some (matrix2obj_wall_perimeters fuel [[0; 0]; [0]]).
Proof.
  apply (mat2map_accepts_any_rows [[0; 0]; [0]]).
  exists [0]. split; [|discriminate].
  apply list_elem_of_further, list_elem_of_here.
Defined.

(** C9, as stated, fails: a matrix whose rows have two lengths is not
    rejected, its walls are traced. *)
Lemma ragged_matrix_is_traced :
  ¬ rectangular [[0; 0]; [0]] ∧
  matrix2obj_wall_perimeters 8 [[0; 0]; [0]]
  = Some [[(0, 0); (2, 0); (2, 1); (1, 1); (1, 2); (0, 2); (0, 0)]].
Proof.
  split; [|reflexivity].
  intros H. specialize (H [0; 0] [0]). cbn in H.
  enough (2 = 1)%nat by lia. apply H.
  - apply list_elem_of_here.
  - apply list_elem_of_further, list_elem_of_here.
Qed.

(** ** Visits of the vertices: the tables *)

Lemma partner_involutive m versors d :
  m ∈ all_matrices → POSSIBLE_DIRECTIONS !! m = Some versors → d ∈ versors →
  ∃ d', partner m d = Some d' ∧ d' ∈ versors ∧ d' ≠ d ∧ partner m d' = Some d.
Proof.
  intros Hm Hv Hd. unfold partner.
  each_matrix Hm; vm_compute in Hv; injection Hv as <-;
    repeat (apply elem_of_cons in Hd as [Hd|Hd]; [subst d|]);
    try (by apply elem_of_nil in Hd);
    eexists; (split; [vm_compute; reflexivity|]);
    (split; [repeat first [apply list_elem_of_here | apply list_elem_of_further]|]);
    (split; [vm_compute; discriminate|vm_compute; reflexivity]).
Qed.

(** Evaluates [filter P l] on a list that is written out, by cases on [P]
    at its elements. *)
Ltac filter_cases P :=
  repeat (rewrite filter_cons; destruct (decide (P _))); rewrite ?filter_nil.

(** With no pair of partners taken twice and every pair taken once, half of
    the versors at a vertex are taken: one of two, or two of four. *)
Lemma count_taken m versors (P : Versor2D → Prop) `{∀ d, Decision (P d)} :
  m ∈ all_matrices → POSSIBLE_DIRECTIONS !! m = Some versors → versors ≠ [] →
  (∀ d d', d ∈ versors → partner m d = Some d' → ¬ (P d ∧ P d')) →
  (∀ d d', d ∈ versors → partner m d = Some d' → P d ∨ P d') →
  (if decide (length versors = 4%nat) then 1 else 2)
  * Z.of_nat (length (filter P versors)) = 2.
Proof.
  intros Hm Hv Hne Hex Hcov.
  each_matrix Hm; vm_compute in Hv; injection Hv as <-; same_sides Hne.
  all: pose proof (Hex LEFT) as HexL; pose proof (Hex RIGHT) as HexR;
    pose proof (Hex UP) as HexU; pose proof (Hex DOWN) as HexD;
    pose proof (Hcov LEFT) as HcovL; pose proof (Hcov RIGHT) as HcovR;
    pose proof (Hcov UP) as HcovU; pose proof (Hcov DOWN) as HcovD;
    clear Hex Hcov.
  all: unfold partner in *.
  all: repeat match goal with
       | H : ∀ d', ?d ∈ ?l → rule ?m ?o = Some d' → _ |- _ =>
           first
             [ let r := eval vm_compute in (rule m o) in
               match r with
               | Some ?d' =>
                   assert (d ∈ l) as Hin
                     by (repeat first [apply list_elem_of_here | apply list_elem_of_further]);
                   specialize (H d' Hin ltac:(vm_compute; reflexivity)); clear Hin
               end
             | clear H ]
       end.
  all: unfold LEFT, RIGHT, UP, DOWN in *.
  all: destruct (decide _) as [Hl|Hl]; cbn [length] in Hl; try lia.
  all: filter_cases P; cbn [length]; try (exfalso; tauto); lia.
Qed.

(** Specialises the hypotheses on the partners of the four versors to the
    entries of the table. *)
Ltac partners_of_table :=
  repeat match goal with
    | H : ∀ d d', d ∈ ?l → partner ?m d = Some d' → _ |- _ =>
        pose proof (H LEFT) as ?HL; pose proof (H RIGHT) as ?HR;
        pose proof (H UP) as ?HU; pose proof (H DOWN) as ?HD; clear H
    end;
  unfold partner in *;
  repeat match goal with
    | H : ∀ d', ?d ∈ ?l → rule ?m ?o = Some d' → _ |- _ =>
        first
          [ let r := eval vm_compute in (rule m o) in
            match r with
            | Some ?d' =>
                assert (d ∈ l) as Hin
                  by (repeat first [apply list_elem_of_here | apply list_elem_of_further]);
                specialize (H d' Hin ltac:(vm_compute; reflexivity)); clear Hin
            end
          | clear H ]
    end;
  unfold LEFT, RIGHT, UP, DOWN in *.

(** With no pair of partners taken twice, the versors have all been
    covered once the counter stops the loop of [build] at the vertex: two
    taken of four, or one of two. *)
Lemma taken_covers m versors (P : Versor2D → Prop) `{∀ d, Decision (P d)} :
  m ∈ all_matrices → POSSIBLE_DIRECTIONS !! m = Some versors →
  (∀ d d', d ∈ versors → partner m d = Some d' → ¬ (P d ∧ P d')) →
  ((if decide (length versors = 4%nat) then 2 else 1)
   ≤ length (filter P versors))%nat →
  ∀ d d', d ∈ versors → partner m d = Some d' → P d ∨ P d'.
Proof.
  intros Hm Hv Hex Hlen d d' Hd Hp. revert Hlen.
  each_matrix Hm; vm_compute in Hv; injection Hv as <-;
    repeat (apply elem_of_cons in Hd as [Hd|Hd]; [subst d|]);
    try (by apply elem_of_nil in Hd);
    vm_compute in Hp; injection Hp as <-;
    partners_of_table.
  all: destruct (decide _) as [Hl|Hl]; cbn [length] in Hl; try lia.
  all: filter_cases P; cbn [length]; intros; try tauto; lia.
Qed.

(** Where the loop of [build] starts a walk: the counter says that fewer
    versors are taken than it allows, and at a saddle the edges towards the
    vertices enumerated before it are covered.  Then the versor of the start
    and its partner are free, every other arrival with the sides of the start
    leads to a covered edge, and so does every other versor. *)
Lemma fresh_start m versors (P : Versor2D → Prop) `{∀ d, Decision (P d)}
    d0 d1 l r :
  m ∈ all_matrices → POSSIBLE_DIRECTIONS !! m = Some versors → versors ≠ [] →
  (∀ d d', d ∈ versors → partner m d = Some d' → ¬ (P d ∧ P d')) →
  (length (filter P versors)
   < (if decide (length versors = 4%nat) then 2 else 1))%nat →
  (length versors = 4%nat → m.2.1 = 1 ∨ m.1.1 = 1 →
   ∀ d', partner m LEFT = Some d' → P LEFT ∨ P d') →
  (length versors = 4%nat → m.1.1 = 1 →
   ∀ d', partner m UP = Some d' → P UP ∨ P d') →
  arrival_sides m d0 = Some (l, r) → l ≠ r →
  rule m d0 = Some d1 → rule m STILL = Some d1 →
  (¬ P d1 ∧ ∀ d', partner m d1 = Some d' → ¬ P d') ∧
  (∀ a d, arrival_sides m a = Some (l, r) → a ≠ d0 → rule m a = Some d →
          ∀ d', partner m d = Some d' → P d ∨ P d') ∧
  (∀ d d', d ∈ versors → partner m d = Some d' →
           d = d1 ∨ d' = d1 ∨ P d ∨ P d').
Proof.
  intros Hm Hv Hne Hex Hlen HL HU Hd0 Hlr Hr0 Hstill. revert Hlen.
  each_matrix Hm; vm_compute in Hv; injection Hv as <-; same_sides Hne;
    vm_compute in Hstill; injection Hstill as <-;
    each_versor Hd0; vm_compute in Hd0; injection Hd0 as <- <-; same_sides Hlr;
    vm_compute in Hr0; try discriminate Hr0; clear Hr0.
  all: first [ specialize (HL eq_refl (or_introl eq_refl) _ eq_refl)
             | specialize (HL eq_refl (or_intror eq_refl) _ eq_refl)
             | clear HL ].
  all: first [ specialize (HU eq_refl eq_refl _ eq_refl) | clear HU ].
  all: partners_of_table.
  all: destruct (decide _) as [Hl|Hl]; cbn [length] in Hl; try lia; clear Hl.
  all: filter_cases P; cbn [length]; intros Hlen; try lia.
  all: split; [split; [tauto|intros d' Hp; vm_compute in Hp; injection Hp as <-; tauto]|].
  all: split.
  all: try (intros a d Ha Hna Hra d' Hp; each_versor Ha; vm_compute in Ha;
            try discriminate Ha; try (exfalso; apply Hna; reflexivity);
            vm_compute in Hra; injection Hra as <-;
            vm_compute in Hp; injection Hp as <-; tauto).
  all: intros d d' Hd Hp;
    repeat (apply elem_of_cons in Hd as [Hd|Hd]; [subst d|]);
    try (by apply elem_of_nil in Hd);
    vm_compute in Hp; injection Hp as <-;
    first [left; reflexivity | right; left; reflexivity | tauto].
Qed.

(** ** Visits of the vertices: the log of the walks *)

Lemma get0_counter_add tracked u n v :
  get0 (counter_add tracked u n) v
  = if decide (u = v) then get0 tracked v + n else get0 tracked v.
Proof.
  unfold counter_add, get0. destruct (decide (u = v)) as [->|Hne].
  - by rewrite lookup_insert_eq.
  - by rewrite lookup_insert_ne.
Qed.

Lemma get0_add_passes bm tracked log v :
  get0 (add_passes bm tracked log) v
  = get0 tracked v + pass_weight bm v * Z.of_nat (passes log v).
Proof.
  revert tracked. induction log as [|s log IH]; intros tracked.
  - unfold passes. cbn. lia.
  - unfold add_passes, passes in *. cbn [foldl]. rewrite IH, get0_counter_add.
    rewrite filter_cons. destruct (decide (origin s = v)) as [->|Hne].
    + cbn [length]. lia.
    + lia.
Qed.

Lemma add_passes_app bm tracked log1 log2 :
  add_passes bm tracked (log1 ++ log2)
  = add_passes bm (add_passes bm tracked log1) log2.
Proof. unfold add_passes. by rewrite foldl_app. Qed.

Lemma versors_at_lookup bm v :
  unit_blocks bm →
  POSSIBLE_DIRECTIONS !! matrix_at bm v = Some (versors_at bm v).
Proof.
  intros Hbm. unfold versors_at.
  destruct (possible_directions_departures _ (matrix_at_binary bm v Hbm))
    as (versors & -> & _). done.
Qed.

Lemma out_state_on_wall bm v d :
  unit_blocks bm → d ∈ versors_at bm v →
  on_wall bm (out_state v d) ∧ origin (out_state v d) = v.
Proof.
  intros Hbm Hd. split; [|apply origin_sum].
  destruct (possible_directions_departures _ (matrix_at_binary bm v Hbm))
    as (versors & Hv & _ & _ & Hdep).
  rewrite (versors_at_lookup bm v Hbm) in Hv. injection Hv as <-.
  apply Hdep in Hd as (l & r & Hd & Hlr). exists l, r. split; [|done].
  by apply sides_after_departure.
Qed.

Lemma on_wall_origin bm s :
  unit_blocks bm → on_wall bm s →
  s = out_state (origin s) s.2 ∧ s.2 ∈ versors_at bm (origin s).
Proof.
  intros Hbm (l & r & Hs & Hlr).
  assert (Hout : s = out_state (origin s) s.2).
  { destruct s as [[x y] [dx dy]]. unfold out_state, origin, sum_vectors.
    cbn [fst snd]. repeat f_equal; lia. }
  split; [done|].
  pose proof (arrival_sides_versor _ _ _ Hs) as Hd.
  destruct (possible_directions_departures _ (matrix_at_binary bm (origin s) Hbm))
    as (versors & Hv & _ & _ & Hdep).
  rewrite (versors_at_lookup bm _ Hbm) in Hv. injection Hv as <-.
  apply Hdep.
  assert (Hsome : is_Some (departure_sides (matrix_at bm (origin s)) s.2)).
  { unfold all_versors in Hd.
    repeat (apply elem_of_cons in Hd as [->|Hd]); [..|by apply elem_of_nil in Hd];
      by eexists. }
  destruct Hsome as [[l' r'] Hdp]. exists l', r'. split; [done|].
  pose proof (sides_after_departure _ _ _ _ Hdp) as Hs'.
  fold (out_state (origin s) s.2) in Hs'. rewrite <- Hout, Hs in Hs'.
  by injection Hs' as <- <-.
Qed.

Lemma step_reverse_out bm v d d' :
  partner (matrix_at bm v) d = Some d' →
  step bm (reverse (out_state v d)) = out_state v d'.
Proof.
  intros Hp. unfold reverse. change (origin (out_state v d)) with (origin (sum_vectors v d, d)).
  rewrite origin_sum. change ((out_state v d).2) with d.
  unfold step. cbn [fst snd]. unfold partner in Hp. by rewrite Hp.
Qed.

Lemma traced_nil bm : traced bm [].
Proof.
  split.
  - intros s Hs. by apply elem_of_nil in Hs.
  - constructor.
  - intros s Hs. by apply elem_of_nil in Hs.
  - intros s _. split; intros Hs; by apply elem_of_nil in Hs.
Qed.

Lemma traced_reverse_out bm log v d d' :
  unit_blocks bm → traced bm log → d ∈ versors_at bm v →
  partner (matrix_at bm v) d = Some d' →
  (reverse (out_state v d) ∈ log ↔ out_state v d' ∈ log).
Proof.
  intros Hbm Ht Hd Hp. rewrite <- (step_reverse_out bm v d d' Hp).
  apply (traced_step _ _ Ht). apply on_wall_reverse.
  by apply out_state_on_wall.
Qed.

Lemma traced_exclusion bm log v d d' :
  unit_blocks bm → traced bm log → d ∈ versors_at bm v →
  partner (matrix_at bm v) d = Some d' →
  ¬ (out_state v d ∈ log ∧ out_state v d' ∈ log).
Proof.
  intros Hbm Ht Hd Hp [H1 H2].
  apply (traced_one_way _ _ Ht _ H1).
  by apply (traced_reverse_out bm log v d d').
Qed.

Lemma covered_versors bm log v :
  unit_blocks bm → traced bm log →
  (covered bm log v ↔
   ∀ d d', d ∈ versors_at bm v → partner (matrix_at bm v) d = Some d' →
           out_state v d ∈ log ∨ out_state v d' ∈ log).
Proof.
  intros Hbm Ht. split.
  - intros Hc d d' Hd Hp.
    destruct (out_state_on_wall bm v d Hbm Hd) as [Hw Ho].
    destruct (Hc _ Hw Ho) as [?|Hr]; [by left|right].
    by apply (traced_reverse_out bm log v d d').
  - intros Hc s Hw <-.
    destruct (on_wall_origin bm s Hbm Hw) as [Hs Hd].
    destruct (partner_involutive _ _ _ (matrix_at_binary bm (origin s) Hbm)
                (versors_at_lookup bm _ Hbm) Hd) as (d' & Hp & _).
    destruct (Hc _ _ Hd Hp) as [H1|H2].
    + left. by rewrite Hs.
    + right. rewrite Hs. by apply (traced_reverse_out bm log (origin s) s.2 d').
Qed.

Lemma length_filter_fmap {A B} (f : A → B) (P : B → Prop) (Q : A → Prop)
    `{∀ x, Decision (P x)} `{∀ a, Decision (Q a)} (l : list A) :
  (∀ a, P (f a) ↔ Q a) →
  length (filter P (f <$> l)) = length (filter Q l).
Proof.
  intros HPQ. induction l as [|a l IH]; [done|]. cbn [fmap list_fmap].
  rewrite !filter_cons.
  destruct (decide (P (f a))) as [Hp|Hp], (decide (Q a)) as [Hq|Hq];
    cbn [length]; rewrite ?IH; try done; exfalso; by apply HPQ in Hp || apply HPQ in Hq.
Qed.

Lemma out_state_inj v d d' : out_state v d = out_state v d' → d = d'.
Proof. by intros [= _ _ ->]. Qed.

Lemma passes_versors bm log v :
  unit_blocks bm → traced bm log →
  passes log v = length (filter (λ d, out_state v d ∈ log) (versors_at bm v)).
Proof.
  intros Hbm Ht. unfold passes.
  trans (length (filter (λ s, s ∈ log) (out_state v <$> versors_at bm v)));
    [|by apply length_filter_fmap].
  apply Permutation_length, NoDup_Permutation.
  - apply NoDup_filter, (traced_NoDup _ _ Ht).
  - apply NoDup_filter, NoDup_fmap_2_strong.
    + intros d d' _ _. apply out_state_inj.
    + destruct (possible_directions_departures _ (matrix_at_binary bm v Hbm))
        as (versors & Hv & Hnd & _).
      rewrite (versors_at_lookup bm v Hbm) in Hv. by injection Hv as <-.
  - intros s. rewrite !list_elem_of_filter, list_elem_of_fmap. split.
    + intros [Ho Hs]. split; [done|].
      destruct (on_wall_origin bm s Hbm (traced_on_wall _ _ Ht _ Hs)) as [Hs' Hd].
      rewrite Ho in *. by exists s.2.
    + intros [Hs (d & -> & Hd)]. split; [apply origin_sum|done].
Qed.

Lemma pass_weight_versors bm v :
  unit_blocks bm →
  pass_weight bm v = if decide (length (versors_at bm v) = 4%nat) then 1 else 2.
Proof. intros Hbm. unfold pass_weight. by rewrite (versors_at_lookup bm v Hbm). Qed.

Lemma boundary_vertex_versors bm v :
  unit_blocks bm → (boundary_vertex bm v ↔ versors_at bm v ≠ []).
Proof.
  intros Hbm. unfold boundary_vertex. rewrite (versors_at_lookup bm v Hbm).
  split; [by intros (vs & [= <-] & ?)|]. intros. by eexists.
Qed.

Lemma saddle_vertex_versors bm v :
  unit_blocks bm → (saddle_vertex bm v ↔ length (versors_at bm v) = 4%nat).
Proof.
  intros Hbm. unfold saddle_vertex. rewrite (versors_at_lookup bm v Hbm).
  split; [by intros (vs & [= <-] & ?)|]. intros. by eexists.
Qed.

(** A covered vertex of the boundary has the counter at two. *)
Lemma covered_counter bm log v :
  unit_blocks bm → traced bm log → boundary_vertex bm v → covered bm log v →
  get0 (add_passes bm ∅ log) v = 2.
Proof.
  intros Hbm Ht Hb Hc. rewrite get0_add_passes.
  unfold get0 at 1. rewrite lookup_empty. cbn [default].
  rewrite (pass_weight_versors bm v Hbm), (passes_versors bm log v Hbm Ht).
  rewrite Z.add_0_l.
  apply (count_taken (matrix_at bm v)).
  - by apply matrix_at_binary.
  - by apply versors_at_lookup.
  - by apply boundary_vertex_versors.
  - intros d d' Hd Hp. by apply (traced_exclusion bm log v d d').
  - by apply covered_versors.
Qed.

(** A vertex off the boundary has the counter at zero. *)
Lemma off_boundary_counter bm log v :
  unit_blocks bm → traced bm log → ¬ boundary_vertex bm v →
  get0 (add_passes bm ∅ log) v = 0.
Proof.
  intros Hbm Ht Hb. rewrite get0_add_passes.
  unfold get0 at 1. rewrite lookup_empty. cbn [default].
  rewrite (passes_versors bm log v Hbm Ht).
  destruct (versors_at bm v) eqn:E; [cbn; lia|].
  exfalso. apply Hb, boundary_vertex_versors; [done|]. by rewrite E.
Qed.

(** A vertex at which the loop of [build] does not start a walk is
    covered. *)
Lemma skipped_covered bm log v :
  unit_blocks bm → traced bm log →
  skipped bm (add_passes bm ∅ log) v → covered bm log v.
Proof.
  intros Hbm Ht Hskip. apply covered_versors; [done..|].
  destruct Hskip as [Hnb|Hskip].
  { intros d d' Hd _. exfalso. apply Hnb, boundary_vertex_versors; [done|].
    intros E. rewrite E in Hd. by apply elem_of_nil in Hd. }
  apply (taken_covers (matrix_at bm v) (versors_at bm v)
           (λ d, out_state v d ∈ log)).
  - by apply matrix_at_binary.
  - by apply versors_at_lookup.
  - intros d d' Hd Hp. by apply (traced_exclusion bm log v d d').
  - rewrite <- (passes_versors bm log v Hbm Ht).
    rewrite get0_add_passes in Hskip.
    change (get0 ∅ v) with 0 in Hskip.
    rewrite (pass_weight_versors bm v Hbm) in Hskip.
    destruct Hskip as [[Hs Hn]|[Hs Hn]].
    + apply saddle_vertex_versors in Hs; [|done].
      destruct (decide _) as [_|?]; [lia|done].
    + rewrite saddle_vertex_versors in Hs by done.
      destruct (decide _) as [?|_]; [done|lia].
Qed.

Lemma traced_iter bm log s j :
  unit_blocks bm → traced bm log → on_wall bm s →
  (Nat.iter j (step bm) s ∈ log ↔ s ∈ log).
Proof.
  intros Hbm Ht Hw. induction j as [|j IH]; [done|]. rewrite Nat.iter_succ.
  rewrite <- IH. symmetry. apply (traced_step _ _ Ht). by apply on_wall_iter.
Qed.

Lemma traced_reverse_iter bm log s j :
  unit_blocks bm → traced bm log → on_wall bm s →
  (reverse (Nat.iter j (step bm) s) ∈ log ↔ reverse s ∈ log).
Proof.
  intros Hbm Ht Hw. induction j as [|j IH]; [done|]. rewrite Nat.iter_succ.
  rewrite <- IH.
  pose proof (proj1 (on_wall_iter bm s j Hbm Hw)) as Hwj.
  rewrite <- (step_reverse bm _ Hbm Hwj).
  apply (traced_step _ _ Ht). apply on_wall_reverse. by apply on_wall_step_on_wall.
Qed.

Lemma trail_NoDup bm k s v :
  unit_blocks bm → on_wall bm s → origin s = v →
  (∀ j, (j < k - 1)%nat → (Nat.iter j (step bm) s).1 ≠ v) →
  NoDup (trail bm k s).
Proof.
  intros Hbm Hw Ho Hmin. apply NoDup_alt. intros i j t Hi Hj.
  pose proof (lookup_lt_Some _ _ _ Hi) as Hik. rewrite length_trail in Hik.
  pose proof (lookup_lt_Some _ _ _ Hj) as Hjk. rewrite length_trail in Hjk.
  rewrite trail_lookup in Hi, Hj by done.
  assert (Hlt : ∀ a b, (a < b < k)%nat →
            Nat.iter a (step bm) s = Nat.iter b (step bm) s → False).
  { intros a b Hab Heq.
    replace b with (a + S (b - a - 1))%nat in Heq by lia.
    rewrite Nat.iter_add in Heq.
    apply (iter_cancel bm _ _ a Hbm) in Heq; [|done|by apply on_wall_iter].
    rewrite Nat.iter_succ in Heq.
    apply (Hmin (b - a - 1)%nat); [lia|].
    rewrite <- (origin_step bm _ Hbm (proj1 (on_wall_iter bm s _ Hbm Hw))).
    by rewrite <- Heq. }
  destruct (Nat.lt_trichotomy i j) as [Hij|[Hij|Hij]]; [|done|].
  - exfalso. apply (Hlt i j); [lia|congruence].
  - exfalso. apply (Hlt j i); [lia|congruence].
Qed.

Lemma saddle_versors m versors d :
  m ∈ all_matrices → POSSIBLE_DIRECTIONS !! m = Some versors →
  length versors = 4%nat → d ∈ all_versors → d ∈ versors.
Proof.
  intros Hm Hv Hlen Hd.
  each_matrix Hm; vm_compute in Hv; injection Hv as <-; try discriminate Hlen;
    exact Hd.
Qed.

(** The edge towards a covered neighbour is covered. *)
Lemma neighbour_covered bm log v d d' :
  unit_blocks bm → traced bm log → d ∈ versors_at bm v →
  covered bm log (sum_vectors v d) →
  partner (matrix_at bm v) d = Some d' →
  out_state v d ∈ log ∨ out_state v d' ∈ log.
Proof.
  intros Hbm Ht Hd Hc Hp.
  destruct (out_state_on_wall bm v d Hbm Hd) as [Hw _].
  destruct (Hc (reverse (out_state v d))) as [Hr|Hr].
  - by apply on_wall_reverse.
  - unfold reverse, out_state, origin, sum_vectors, opposite. cbn [fst snd].
    destruct v, d. cbn [fst snd]. f_equal; lia.
  - right. by apply (traced_reverse_out bm log v d d').
  - left. by rewrite reverse_involutive in Hr.
Qed.

(** The walk that the loop of [build] starts at a vertex goes once round
    a loop of wall edges that no walk has gone through: with its trail the
    log is still well traced, and the vertex is covered. *)
Lemma fresh_walk_traced bm log v s0 k :
  unit_blocks bm → traced bm log →
  ¬ skipped bm (add_passes bm ∅ log) v →
  (saddle_vertex bm v → (matrix_at bm v).2.1 = 1 ∨ (matrix_at bm v).1.1 = 1 →
   covered bm log (sum_vectors v LEFT)) →
  (saddle_vertex bm v → (matrix_at bm v).1.1 = 1 →
   covered bm log (sum_vectors v UP)) →
  on_wall bm s0 → s0.1 = v →
  rule (matrix_at bm v) STILL = Some (step bm s0).2 →
  (2 ≤ k)%nat →
  (Nat.iter (k - 1) (step bm) (step bm s0)).1 = v →
  (∀ j, (j < k - 1)%nat → (Nat.iter j (step bm) (step bm s0)).1 ≠ v) →
  traced bm (log ++ trail bm k (step bm s0)) ∧
  covered bm (log ++ trail bm k (step bm s0)) v.
Proof.
  intros Hbm Ht Hskip HcL HcU Hw0 Hv0 Hstill Hk Hback Hmin.
  set (m := matrix_at bm v). set (vs := versors_at bm v).
  set (s1 := step bm s0) in *.
  pose proof (matrix_at_binary bm v Hbm) as Hm.
  pose proof (versors_at_lookup bm v Hbm) as Hvs.
  assert (Hb : boundary_vertex bm v).
  { destruct (decide (vs = [])) as [E|E]; [|by apply boundary_vertex_versors].
    exfalso. apply Hskip. left. rewrite boundary_vertex_versors by done. tauto. }
  assert (Hw1 : on_wall bm s1) by (by apply on_wall_step_on_wall).
  assert (Ho1 : origin s1 = v) by (rewrite <- Hv0; by apply origin_step).
  destruct (on_wall_step bm s0 Hbm Hw0) as (d1 & Hr0 & He0 & _).
  fold s1 in He0. rewrite Hv0 in Hr0, He0. fold m in Hr0.
  assert (Hs1 : s1 = out_state v d1) by exact He0.
  assert (Hd1 : s1.2 = d1) by (by rewrite He0).
  rewrite Hd1 in Hstill. fold m in Hstill.
  destruct Hw0 as (l & r & Hs0 & Hlr). pose proof Hs0 as Hs0'.
  unfold sides in Hs0. rewrite Hv0 in Hs0. fold m in Hs0.
  assert (Hw0 : on_wall bm s0) by (by exists l, r).
  (* what the tables say about the start *)
  assert (Hne : vs ≠ []) by (by apply boundary_vertex_versors).
  assert (Hex : ∀ d d', d ∈ vs → partner m d = Some d' →
                  ¬ (out_state v d ∈ log ∧ out_state v d' ∈ log)).
  { intros d d' Hd Hp. by apply (traced_exclusion bm log v d d'). }
  assert (Hlen : (length (filter (λ d, out_state v d ∈ log) vs)
                  < (if decide (length vs = 4%nat) then 2 else 1))%nat).
  { unfold vs. rewrite <- (passes_versors bm log v Hbm Ht). fold vs.
    assert (Hcount : get0 (add_passes bm ∅ log) v
                     = (if decide (length vs = 4%nat) then 1 else 2)
                       * Z.of_nat (passes log v)).
    { rewrite get0_add_passes. change (get0 ∅ v) with 0.
      by rewrite (pass_weight_versors bm v Hbm). }
    destruct (decide (length vs = 4%nat)) as [H4|H4].
    - destruct (decide (2 ≤ passes log v)%nat); [|lia].
      exfalso. apply Hskip. right. left.
      split; [by apply saddle_vertex_versors|lia].
    - destruct (decide (1 ≤ passes log v)%nat); [|lia].
      exfalso. apply Hskip. right. right.
      split; [by rewrite saddle_vertex_versors|lia]. }
  assert (HL : length vs = 4%nat → m.2.1 = 1 ∨ m.1.1 = 1 →
               ∀ d', partner m LEFT = Some d' →
                     out_state v LEFT ∈ log ∨ out_state v d' ∈ log).
  { intros H4 Hside d' Hp. apply (neighbour_covered bm log v LEFT d' Hbm Ht).
    - apply (saddle_versors m vs LEFT Hm Hvs H4). apply list_elem_of_here.
    - apply HcL; [apply saddle_vertex_versors; assumption|exact Hside].
    - exact Hp. }
  assert (HU : length vs = 4%nat → m.1.1 = 1 →
               ∀ d', partner m UP = Some d' →
                     out_state v UP ∈ log ∨ out_state v d' ∈ log).
  { intros H4 Hside d' Hp. apply (neighbour_covered bm log v UP d' Hbm Ht).
    - apply (saddle_versors m vs UP Hm Hvs H4).
      apply list_elem_of_further, list_elem_of_here.
    - apply HcU; [apply saddle_vertex_versors; assumption|exact Hside].
    - exact Hp. }
  destruct (fresh_start m vs (λ d, out_state v d ∈ log) s0.2 d1 l r
              Hm Hvs Hne Hex Hlen HL HU Hs0 Hlr Hr0 Hstill)
    as ((Hfree1 & Hfree2) & Hother & Hrest).
  assert (Hd1vs : d1 ∈ vs).
  { destruct (on_wall_origin bm s1 Hbm Hw1) as [_ Hd]. rewrite Ho1 in Hd.
    by rewrite Hs1 in Hd. }
  destruct (partner_involutive m vs d1 Hm Hvs Hd1vs) as (p1 & Hp1 & _).
  (* neither way round the loop is in the log *)
  assert (Hnew : s1 ∉ log) by (by rewrite Hs1).
  assert (Hnew' : reverse s1 ∉ log).
  { rewrite Hs1, (traced_reverse_out bm log v d1 p1) by done. by apply Hfree2. }
  assert (Hfresh : ∀ j, Nat.iter j (step bm) s1 ∉ log) by
    (intros j; by rewrite traced_iter).
  assert (Hfresh' : ∀ j, reverse (Nat.iter j (step bm) s1) ∉ log) by
    (intros j; by rewrite traced_reverse_iter).
  (* the trail closes *)
  assert (Hclose : Nat.iter (k - 1) (step bm) s1 = s0).
  { set (sk := Nat.iter (k - 1) (step bm) s1) in *.
    destruct (on_wall_iter bm s1 (k - 1) Hbm Hw1) as [Hwk Hsk]. fold sk in Hwk, Hsk.
    unfold s1 in Hsk. rewrite (sides_step bm s0 Hbm Hw0), Hs0' in Hsk.
    destruct (decide (sk.2 = s0.2)) as [E|E].
    { destruct sk as [vk dk], s0 as [v0 d0]. cbn [fst snd] in *. congruence. }
    exfalso.
    destruct (on_wall_step bm sk Hbm Hwk) as (d & Hrk & Hek & _).
    rewrite Hback in Hrk, Hek. fold m in Hrk.
    assert (Hdvs : d ∈ vs).
    { destruct (on_wall_origin bm (step bm sk) Hbm (on_wall_step_on_wall bm sk Hbm Hwk))
        as [_ Hd]. rewrite (origin_step bm sk Hbm Hwk), Hback, Hek in Hd. done. }
    destruct (partner_involutive m vs d Hm Hvs Hdvs) as (p & Hp & _).
    unfold sides in Hsk. rewrite Hback in Hsk. fold m in Hsk.
    destruct (Hother sk.2 d Hsk E Hrk p Hp) as [Hin|Hin].
    - apply (Hfresh k). replace k with (S (k - 1)) by lia.
      rewrite Nat.iter_succ. fold sk. by rewrite Hek.
    - apply (Hfresh' k). replace k with (S (k - 1)) by lia.
      rewrite Nat.iter_succ. fold sk. rewrite Hek.
      fold (out_state v d). by rewrite (traced_reverse_out bm log v d p). }
  assert (Hloop : Nat.iter k (step bm) s1 = s1).
  { replace k with (S (k - 1)) by lia. by rewrite Nat.iter_succ, Hclose. }
  assert (Htraced : traced bm (log ++ trail bm k s1)).
  { split.
    - intros s Hs. apply elem_of_app in Hs as [Hs|Hs].
      + by apply (traced_on_wall _ _ Ht).
      + apply elem_of_trail in Hs as (j & _ & ->). by apply on_wall_iter.
    - apply NoDup_app. split; [apply (traced_NoDup _ _ Ht)|]. split.
      + intros s Hs Hs'. apply elem_of_trail in Hs' as (j & _ & ->).
        by apply (Hfresh j).
      + by apply (trail_NoDup bm k s1 v).
    - intros s Hs Hr. apply elem_of_app in Hs as [Hs|Hs];
        apply elem_of_app in Hr as [Hr|Hr].
      + by apply (traced_one_way _ _ Ht s).
      + apply elem_of_trail in Hr as (j & _ & Hr). apply (Hfresh' j).
        by rewrite <- Hr, reverse_involutive.
      + apply elem_of_trail in Hs as (j & _ & ->). by apply (Hfresh' j).
      + apply elem_of_trail in Hs as (i & _ & ->).
        apply elem_of_trail in Hr as (j & _ & Hr).
        destruct (on_wall_iter bm s1 i Hbm Hw1) as [Hwi Hsi].
        destruct (on_wall_iter bm s1 j Hbm Hw1) as [Hwj Hsj].
        apply (reverse_ne_sides bm _ _ Hwi (eq_trans Hsj (eq_sym Hsi))).
        by rewrite <- Hr.
    - intros s Hw. rewrite !elem_of_app, <- (traced_step _ _ Ht s Hw).
      rewrite !elem_of_trail. split.
      + intros [?|(j & Hj & ->)]; [by left|right].
        destruct (decide (S j = k)) as [E|E].
        * exists 0%nat. split; [lia|]. rewrite <- Nat.iter_succ, E. by rewrite Hloop.
        * exists (S j). split; [lia|]. by rewrite Nat.iter_succ.
      + intros [?|(j & Hj & Hs)]; [by left|right].
        destruct j as [|j].
        * exists (k - 1)%nat. split; [lia|]. rewrite Hclose.
          apply (step_inj bm); done.
        * exists j. split; [lia|]. rewrite Nat.iter_succ in Hs.
          apply (step_inj bm); [done|done|by apply on_wall_iter|done]. }
  split; [done|].
  apply covered_versors; [done..|]. intros d d' Hd Hp.
  assert (Hin1 : s1 ∈ trail bm k s1).
  { apply elem_of_trail. exists 0%nat. split; [lia|done]. }
  rewrite !elem_of_app.
  destruct (Hrest d d' Hd Hp) as [->|[->|[?|?]]].
  - left. right. by rewrite <- Hs1.
  - right. right. by rewrite <- Hs1.
  - left. by left.
  - right. by left.
Qed.

(** ** Visits of the vertices: the loop of [build] *)

Lemma covered_app bm log trail_ v :
  covered bm log v → covered bm (log ++ trail_) v.
Proof.
  intros Hc s Hw Ho. rewrite !elem_of_app. destruct (Hc s Hw Ho); tauto.
Qed.

Lemma stored_in_grid bm box :
  blocks_in_grid bm → get0 (map bm) box ≠ 0 →
  0 ≤ box.1 < (map_size bm).1 ∧ 0 ≤ box.2 < (map_size bm).2.
Proof.
  intros Hg. unfold get0. destruct (map bm !! box) as [v|] eqn:E; [|done].
  intros _. apply (Hg _ _ E).
Qed.

(** One turn of the loop of [build], at a vertex whose neighbours on the
    left and above, when they are in the grid, have been gone through. *)
Lemma build_step_invariant bm fuel (done_ : Vertex2D → Prop) st v :
  unit_blocks bm → blocks_in_grid bm →
  (length (wall_states bm) ≤ fuel)%nat →
  0 ≤ v.2 < (map_size bm).2 →
  (1 ≤ v.1 → done_ (v.1 - 1, v.2)) →
  (1 ≤ v.2 → done_ (v.1, v.2 - 1)) →
  loop_invariant bm done_ st →
  loop_invariant bm (λ u, done_ u ∨ u = v) (build_step bm fuel st v).
Proof.
  intros Hbm Hg Hfuel Hy Hleft Hup (log & ret & -> & Ht & Hdone).
  destruct (skipped_or_not bm (add_passes bm ∅ log) v Hbm) as [Hskip|Hskip].
  - rewrite build_step_skipped by done. exists log, ret.
    split; [done|]. split; [done|].
    intros u [Hu| ->]; [by apply Hdone|]. by apply skipped_covered.
  - destruct (build_step_walked bm fuel (add_passes bm ∅ log) ret v Hbm Hskip Hfuel)
      as (s0 & k & p & Hw0 & Hv0 & Hstill & Hk & Hback & Hmin & _ & ->).
    destruct (fresh_walk_traced bm log v s0 k) as [Ht' Hc']; try assumption.
    + intros _ Hside. apply Hdone.
      replace (sum_vectors v LEFT) with (v.1 - 1, v.2)
        by (destruct v; unfold sum_vectors, LEFT; cbn [fst snd]; f_equal; lia).
      apply Hleft.
      destruct Hside as [Hside|Hside].
      * pose proof (stored_in_grid bm (v.1 - 1, v.2) Hg) as Hs.
        unfold matrix_at in Hside. cbn [fst snd] in *. lia.
      * pose proof (stored_in_grid bm (v.1 - 1, v.2 - 1) Hg) as Hs.
        unfold matrix_at in Hside. cbn [fst snd] in *. lia.
    + intros _ Hside. apply Hdone.
      replace (sum_vectors v UP) with (v.1, v.2 - 1)
        by (destruct v; unfold sum_vectors, UP; cbn [fst snd]; f_equal; lia).
      apply Hup.
      pose proof (stored_in_grid bm (v.1 - 1, v.2 - 1) Hg) as Hs.
      unfold matrix_at in Hside. cbn [fst snd] in *. lia.
    + exists (log ++ trail bm k (step bm s0)), (ret ++ [p]).
      split; [by rewrite add_passes_app|]. split; [done|].
      intros u [Hu| ->]; [|done]. by apply covered_app, Hdone.
Qed.

Lemma loop_invariant_ext bm (P Q : Vertex2D → Prop) st :
  (∀ u, Q u → P u) → loop_invariant bm P st → loop_invariant bm Q st.
Proof.
  intros HPQ (log & ret & ? & ? & Hc). exists log, ret. naive_solver.
Qed.

Lemma foldl_bind {A B C} (f : A → C → A) (g : B → list C) (l : list B) (a : A) :
  foldl f a (l ≫= g) = foldl (λ a x, foldl f a (g x)) a l.
Proof.
  revert a. induction l as [|x l IH]; intros a; [done|].
  rewrite bind_cons, foldl_app. cbn [foldl]. apply IH.
Qed.

Lemma foldl_seqZ_invariant {A} (f : A → Z → A) (Inv : Z → A → Prop) (a : A) (n : Z) :
  0 ≤ n → Inv 0 a →
  (∀ i a, 0 ≤ i < n → Inv i a → Inv (i + 1) (f a i)) →
  Inv n (foldl f a (seqZ 0 n)).
Proof.
  intros Hn H0 Hstep.
  enough (H : ∀ k : nat, Z.of_nat k ≤ n →
            Inv (Z.of_nat k) (foldl f a (seqZ 0 (Z.of_nat k)))).
  { specialize (H (Z.to_nat n)). rewrite Z2Nat.id in H by done. apply H. lia. }
  induction k as [|k IH]; intros Hk.
  - by rewrite seqZ_nil.
  - replace (Z.of_nat (S k)) with (Z.of_nat k + 1) by lia.
    rewrite seqZ_app by lia. rewrite foldl_app.
    replace (seqZ (0 + Z.of_nat k) 1) with [Z.of_nat k]
      by (rewrite seqZ_cons, seqZ_nil by lia; f_equal; lia).
    cbn [foldl]. apply Hstep; [lia|]. apply IH. lia.
Qed.

(** After the loop of [build] every vertex of the grid is covered. *)
Lemma build_loop_invariant bm fuel :
  unit_blocks bm → blocks_in_grid bm →
  (length (wall_states bm) ≤ fuel)%nat →
  loop_invariant bm
    (λ u, 0 ≤ u.1 < (map_size bm).1 ∧ 0 ≤ u.2 < (map_size bm).2)
    (build_loop bm fuel).
Proof.
  intros Hbm Hg Hfuel. unfold build_loop, get_grid_vertices.
  rewrite (proj1 Hbm), foldl_bind.
  destruct (decide (0 ≤ (map_size bm).1)) as [HW|HW].
  2: { rewrite (seqZ_nil 0 (map_size bm).1) by lia. cbn [foldl]. exists [], [].
       split; [done|]. split; [apply traced_nil|]. intros u Hu. lia. }
  eapply loop_invariant_ext;
    [|apply (foldl_seqZ_invariant _
               (λ x, loop_invariant bm (λ u, enumerated_before bm x 0 u)))];
    [| done | | ].
  - intros u [Hx Hy]. unfold enumerated_before. lia.
  - exists [], []. split; [done|]. split; [apply traced_nil|].
    intros u Hu. unfold enumerated_before in Hu. lia.
  - intros x st Hx Hst. rewrite foldl_bind.
    destruct (decide (0 ≤ (map_size bm).2)) as [HH|HH].
    2: { rewrite (seqZ_nil 0 (map_size bm).2) by lia. cbn [foldl].
         eapply loop_invariant_ext; [|done].
         intros u Hu. unfold enumerated_before in *. lia. }
    eapply loop_invariant_ext;
      [|apply (foldl_seqZ_invariant _
                 (λ y, loop_invariant bm (λ u, enumerated_before bm x y u)))];
      [| done | done | ].
    + intros u Hu. unfold enumerated_before in *. lia.
    + intros y st' Hy Hst'. cbn [foldl]. rewrite !Z.mul_1_r.
      eapply loop_invariant_ext;
        [|apply (build_step_invariant bm fuel (enumerated_before bm x y))];
        try done.
      * intros u Hu. unfold enumerated_before in *.
        destruct (decide (u = (x, y))) as [->|Hne]; [by right|left].
        cbn [fst snd] in *.
        assert (u.1 ≠ x ∨ u.2 ≠ y).
        { destruct u as [a b]. cbn [fst snd].
          destruct (decide (a = x)) as [->|?]; [right|by left].
          intros ->. by apply Hne. }
        lia.
      * cbn [fst snd]. intros H1. unfold enumerated_before. cbn [fst snd]. lia.
      * cbn [fst snd]. intros H1. unfold enumerated_before. cbn [fst snd]. lia.
Qed.

(** ** Visits of the vertices: every wall edge is walked *)

Lemma iter_multiple bm s n q :
  Nat.iter n (step bm) s = s → Nat.iter (q * n) (step bm) s = s.
Proof.
  intros Hn. induction q as [|q IH]; [done|].
  replace (S q * n)%nat with (n + q * n)%nat by lia.
  by rewrite Nat.iter_add, IH.
Qed.

Lemma least_value (f : nat → Z) (n : nat) :
  (0 < n)%nat → ∃ j, (j < n)%nat ∧ ∀ i, (i < n)%nat → f j ≤ f i.
Proof.
  induction n as [|n IH]; [lia|]. intros _.
  destruct n as [|n].
  { exists 0%nat. split; [lia|]. intros i Hi. by replace i with 0%nat by lia. }
  destruct IH as (j & Hj & Hmin); [lia|].
  destruct (decide (f j ≤ f (S n))) as [Hle|Hgt].
  - exists j. split; [lia|]. intros i Hi.
    destruct (decide (i = S n)) as [->|?]; [done|]. apply Hmin. lia.
  - exists (S n). split; [lia|]. intros i Hi.
    destruct (decide (i = S n)) as [->|?]; [done|].
    specialize (Hmin i ltac:(lia)). lia.
Qed.

(** On a loop of wall edges, a vertex with the least sum of coordinates is
    a vertex of the grid. *)
Lemma corner_in_grid bm p :
  unit_blocks bm → blocks_in_grid bm → on_wall bm p →
  (step bm p).1.1 + (step bm p).1.2 ≤ p.1.1 + p.1.2 →
  (step bm p).1.1 + (step bm p).1.2
  ≤ (step bm (step bm p)).1.1 + (step bm (step bm p)).1.2 →
  0 ≤ (step bm p).1.1 < (map_size bm).1 ∧ 0 ≤ (step bm p).1.2 < (map_size bm).2.
Proof.
  intros Hbm Hg Hwp Hle1 Hle2.
  pose proof (on_wall_step_on_wall bm p Hbm Hwp) as Hwt.
  destruct (on_wall_step bm p Hbm Hwp) as (d & _ & Hep & _).
  remember (step bm p) as t eqn:Et. clear Et.
  destruct (on_wall_step bm t Hbm Hwt) as (d' & _ & Het & Hdep).
  pose proof (step_no_turn_back bm t Hbm Hwt) as Hturn.
  remember (step bm t) as q eqn:Eq. clear Eq.
  destruct Hwt as (l & r & Hst & Hlr). rewrite Hst in Hdep.
  subst q. cbn [fst snd] in Hle2, Hturn.
  destruct p as [[px py] dp]. subst t. cbn [fst snd] in *.
  unfold sides in Hst. cbn [fst snd] in Hst.
  unfold sum_vectors in *. cbn [fst snd] in *.
  pose proof (stored_in_grid bm (px + d.1, py + d.2) Hg) as G11.
  pose proof (stored_in_grid bm (px + d.1 - 1, py + d.2) Hg) as G01.
  pose proof (stored_in_grid bm (px + d.1, py + d.2 - 1) Hg) as G10.
  cbn [fst snd] in G11, G01, G10.
  unfold matrix_at in Hst, Hdep. cbn [fst snd] in Hst, Hdep.
  clear Hwp Hbm Hg.
  each_versor Hst; injection Hst as Hl Hr;
    unfold RIGHT, LEFT, UP, DOWN in *; cbn [fst snd] in *; try lia;
    each_versor Hdep; injection Hdep as Hl' Hr';
    unfold RIGHT, LEFT, UP, DOWN in *; cbn [fst snd] in *; try lia;
    try (exfalso; apply Hturn; reflexivity).
Qed.

(** When the vertices of the grid are covered, every wall edge has been
    walked, one way or the other. *)
Lemma wall_state_covered bm log s :
  unit_blocks bm → blocks_in_grid bm → traced bm log →
  (∀ u, 0 ≤ u.1 < (map_size bm).1 ∧ 0 ≤ u.2 < (map_size bm).2 →
        covered bm log u) →
  on_wall bm s → s ∈ log ∨ reverse s ∈ log.
Proof.
  intros Hbm Hg Ht Hgrid Hw.
  destruct (step_periodic bm s Hbm Hw) as (n & Hn & Hper).
  destruct (least_value (λ j, (Nat.iter j (step bm) s).1.1
                              + (Nat.iter j (step bm) s).1.2) n)
    as (j & Hj & Hmin); [lia|]. cbn beta in Hmin.
  assert (Hall : ∀ i, (Nat.iter j (step bm) s).1.1 + (Nat.iter j (step bm) s).1.2
                      ≤ (Nat.iter i (step bm) s).1.1 + (Nat.iter i (step bm) s).1.2).
  { intros i. rewrite (Nat.div_mod_eq i n).
    replace (n * (i / n) + i mod n)%nat with (i mod n + (i / n) * n)%nat by lia.
    rewrite Nat.iter_add, (iter_multiple bm s n _ Hper).
    apply Hmin. apply Nat.mod_upper_bound. lia. }
  set (p := Nat.iter (j + n - 1) (step bm) s).
  assert (Hwp : on_wall bm p) by (by apply on_wall_iter).
  assert (Hpt : step bm p = Nat.iter j (step bm) s).
  { unfold p. rewrite <- Nat.iter_succ.
    replace (S (j + n - 1)) with (j + 1 * n)%nat by lia.
    by rewrite Nat.iter_add, (iter_multiple bm s n _ Hper). }
  destruct (corner_in_grid bm p Hbm Hg Hwp) as [Hx Hy].
  { rewrite Hpt. apply Hall. }
  { rewrite Hpt, <- Nat.iter_succ. apply Hall. }
  pose proof (on_wall_step_on_wall bm p Hbm Hwp) as Hwt.
  destruct (Hgrid (step bm p).1 (conj Hx Hy) (step bm (step bm p))) as [Hin|Hin].
  - by apply on_wall_step_on_wall.
  - by apply origin_step.
  - left. rewrite Hpt, <- Nat.iter_succ in Hin. by apply traced_iter in Hin.
  - right. rewrite Hpt, <- Nat.iter_succ in Hin.
    by apply traced_reverse_iter in Hin.
Qed.

(** After the loop of [build] every vertex is covered. *)
Lemma build_loop_covers bm fuel :
  unit_blocks bm → blocks_in_grid bm →
  (length (wall_states bm) ≤ fuel)%nat →
  ∃ log ret,
    build_loop bm fuel = Some (add_passes bm ∅ log, ret) ∧ traced bm log ∧
    ∀ v, covered bm log v.
Proof.
  intros Hbm Hg Hfuel.
  destruct (build_loop_invariant bm fuel Hbm Hg Hfuel) as (log & ret & E & Ht & Hc).
  exists log, ret. split; [exact E|]. split; [exact Ht|].
  intros v s Hw _. by apply (wall_state_covered bm log s Hbm Hg Ht Hc).
Qed.

Lemma passes_of_counter bm log v :
  unit_blocks bm →
  get0 (add_passes bm ∅ log) v = 2 →
  passes log v = (if decide (length (versors_at bm v) = 4%nat) then 2 else 1)%nat.
Proof.
  intros Hbm. rewrite get0_add_passes.
  change (get0 ∅ v) with 0. rewrite (pass_weight_versors bm v Hbm).
  destruct (decide _); lia.
Qed.

(** C2, as the code has it: over the complete tracing of [build], on a
    blocks map of unit boxes that lie in the grid, the counter of [build] is
    the counter of a well traced log of the turns of the walks, which pass
    exactly once through every ordinary vertex of the boundary and exactly
    twice through every saddle; the counter ends at two on every vertex of
    the boundary (one pass that counts two, or two passes that count one)
    and at zero on every other vertex.  The two passes through a saddle may
    belong to one perimeter. *)
Theorem build_visits bm fuel :
  unit_blocks bm → blocks_in_grid bm →
  (length (wall_states bm) ≤ fuel)%nat →
  ∃ log tracked ret,
    build_loop bm fuel = Some (tracked, ret) ∧
    tracked = add_passes bm ∅ log ∧ traced bm log ∧
    ∀ v,
      (boundary_vertex bm v → ¬ saddle_vertex bm v →
         passes log v = 1%nat ∧ get0 tracked v = 2) ∧
      (saddle_vertex bm v → passes log v = 2%nat ∧ get0 tracked v = 2) ∧
      (¬ boundary_vertex bm v → passes log v = 0%nat ∧ get0 tracked v = 0).
Proof.
  intros Hbm Hg Hfuel.
  destruct (build_loop_covers bm fuel Hbm Hg Hfuel) as (log & ret & E & Ht & Hc).
  exists log, (add_passes bm ∅ log), ret.
  split; [exact E|]. split; [reflexivity|]. split; [exact Ht|]. intros v.
  split; [|split].
  - intros Hb Hs.
    pose proof (covered_counter bm log v Hbm Ht Hb (Hc v)) as H2.
    split; [|exact H2]. rewrite (passes_of_counter bm log v Hbm H2).
    destruct (decide _) as [E4|]; [|reflexivity].
    exfalso. by apply Hs, saddle_vertex_versors.
  - intros Hs.
    assert (Hb : boundary_vertex bm v).
    { apply boundary_vertex_versors; [exact Hbm|].
      apply (saddle_vertex_versors bm v Hbm) in Hs.
      intros E0. by rewrite E0 in Hs. }
    pose proof (covered_counter bm log v Hbm Ht Hb (Hc v)) as H2.
    split; [|exact H2]. rewrite (passes_of_counter bm log v Hbm H2).
    destruct (decide _) as [|E4]; [reflexivity|].
    exfalso. by apply E4, saddle_vertex_versors.
  - intros Hb. split; [|by apply off_boundary_counter].
    rewrite (passes_versors bm log v Hbm Ht).
    destruct (versors_at bm v) eqn:E0; [reflexivity|].
    exfalso. apply Hb, boundary_vertex_versors; [exact Hbm|]. by rewrite E0.
Qed.

Lemma build_visits_witness :
  ∃ log tracked ret,
    build_loop (mkBlocksMap (<[(1, 0) := 1]> {[ (0, 1) := 1 ]}) (2, 2) 1) 100
    = Some (tracked, ret) ∧
    tracked
    = add_passes (mkBlocksMap (<[(1, 0) := 1]> {[ (0, 1) := 1 ]}) (2, 2) 1) ∅ log ∧
    traced (mkBlocksMap (<[(1, 0) := 1]> {[ (0, 1) := 1 ]}) (2, 2) 1) log ∧
    ∀ v,
      (boundary_vertex (mkBlocksMap (<[(1, 0) := 1]> {[ (0, 1) := 1 ]}) (2, 2) 1) v →
       ¬ saddle_vertex (mkBlocksMap (<[(1, 0) := 1]> {[ (0, 1) := 1 ]}) (2, 2) 1) v →
         passes log v = 1%nat ∧ get0 tracked v = 2) ∧
      (saddle_vertex (mkBlocksMap (<[(1, 0) := 1]> {[ (0, 1) := 1 ]}) (2, 2) 1) v →
         passes log v = 2%nat ∧ get0 tracked v = 2) ∧
      (¬ boundary_vertex (mkBlocksMap (<[(1, 0) := 1]> {[ (0, 1) := 1 ]}) (2, 2) 1) v →
         passes log v = 0%nat ∧ get0 tracked v = 0).
Proof.
  apply (build_visits (mkBlocksMap (<[(1, 0) := 1]> {[ (0, 1) := 1 ]}) (2, 2) 1) 100).
  - split; [reflexivity|]. apply (bool_decide_unpack _). vm_compute. exact I.
  - apply (bool_decide_unpack _). vm_compute. exact I.
  - vm_compute. lia.
Defined.

(** C2, as stated, fails: the walls of the matrix with two blocks on a
    diagonal are one perimeter, which goes twice through the saddle between
    the blocks; the two passes do not belong to two different loops. *)
Lemma saddle_passes_on_one_loop :
  ∃ bm tracked,
    mat2map [[1; 0]; [0; 1]] = Some bm ∧
    build_loop bm 8
    = Some (tracked, [[(0, 1); (1, 1); (1, 0); (2, 0); (2, 1); (1, 1); (1, 2);
                        (0, 2); (0, 1)]]) ∧
    build bm 8
    = Some [[(0, 1); (1, 1); (1, 0); (2, 0); (2, 1); (1, 1); (1, 2); (0, 2);
             (0, 1)]] ∧
    saddle_vertex bm (1, 1) ∧ get0 tracked (1, 1) = 2 ∧
    ¬ saddles_on_two_loops bm
        [[(0, 1); (1, 1); (1, 0); (2, 0); (2, 1); (1, 1); (1, 2); (0, 2);
          (0, 1)]].
Proof.
  eexists _, _. split; [vm_compute; reflexivity|].
  split; [vm_compute; reflexivity|]. split; [vm_compute; reflexivity|].
  assert (Hs : saddle_vertex
                 (mkBlocksMap (<[(1, 0) := 1]> {[ (0, 1) := 1 ]}) (2, 2) 1) (1, 1)).
  { eexists. split; [vm_compute; reflexivity|reflexivity]. }
  split; [exact Hs|]. split; [vm_compute; reflexivity|].
  intros H. destruct (H (1, 1) Hs) as (i & j & p1 & p2 & Hij & Hi & Hj & _).
  apply lookup_lt_Some in Hi, Hj. cbn [length] in Hi, Hj. lia.
Qed.

(** * Further properties of the code *)

(** ** PerimeterNormalizer: edge cases and what is kept *)

Lemma dedup_runs_no_contiguous_repeat l : no_contiguous_repeat (dedup_runs l).
Proof.
  induction l as [|a [|b tl] IH]; intros i x y Hx Hy.
  - done.
  - destruct i; done.
  - destruct (decide (a = b)) as [->|Hne].
    + rewrite dedup_runs_cons_eq in Hx, Hy. by apply (IH i x y).
    + rewrite (dedup_runs_cons_ne a b) in Hx, Hy by done.
      destruct i as [|i]; [|by apply (IH i x y)].
      cbn in Hx. injection Hx as <-.
      rewrite lookup_cons_ne_0, <- head_lookup, head_dedup_runs in Hy by done. cbn in Hy. by injection Hy as <-.
Qed.

Lemma dedup_runs_sublist l : dedup_runs l `sublist_of` l.
Proof.
  induction l as [|a [|b tl] IH]; [done..|].
  destruct (decide (a = b)) as [->|Hne].
  - rewrite dedup_runs_cons_eq. by apply sublist_cons.
  - rewrite (dedup_runs_cons_ne a b) by done. by apply sublist_skip.
Qed.

Lemma dedup_runs_fixed l : no_contiguous_repeat l → dedup_runs l = l.
Proof.
  induction l as [|a [|b tl] IH]; intros H; [done..|].
  assert (a ≠ b) by (by apply (H 0%nat)).
  rewrite (dedup_runs_cons_ne a b) by done. f_equal. apply IH.
  intros i x y Hx Hy. by apply (H (S i)).
Qed.

(** X1: [remove_contiguous_values] always returns; what it leaves has no two
    equal contiguous entries, is a sublist of the input with the same
    points, and is the input itself when that had no contiguous repeat. *)
Theorem remove_contiguous_values_result (lst : list Vertex2D) :
  ∃ ret,
    remove_contiguous_values lst = Some ret ∧
    no_contiguous_repeat ret ∧ ret `sublist_of` lst ∧
    (∀ x, x ∈ ret ↔ x ∈ lst) ∧
    (no_contiguous_repeat lst ↔ ret = lst).
Proof.
  exists (dedup_runs lst). split; [apply remove_contiguous_values_dedup|].
  split; [apply dedup_runs_no_contiguous_repeat|].
  split; [apply dedup_runs_sublist|].
  split; [intros x; apply elem_of_dedup_runs|].
  split; [apply dedup_runs_fixed|].
  intros <-. apply dedup_runs_no_contiguous_repeat.
Qed.

Lemma corner_points_sublist a tl final :
  last (a :: tl) = Some final → tl ≠ [] →
  corner_points (a :: tl) ++ [final] `sublist_of` tl.
Proof.
  revert a. induction tl as [|b [|c rest] IH]; intros a Hl Hne; [done| |].
  - cbn in Hl. injection Hl as <-. done.
  - assert (Hrec : corner_points (b :: c :: rest) ++ [final] `sublist_of` c :: rest)
      by (by apply IH).
    cbn [corner_points] in *. destruct (decide _).
    + by apply sublist_cons.
    + cbn [app]. by apply sublist_skip.
Qed.

(** X2: [remove_internal_edge_points] fails on the empty list (IndexError),
    answers a single point twice, and from two points on it answers a
    sublist of the input that keeps its first and its last point. *)
Theorem remove_internal_edge_points_edge_cases (vertices : list Vertex2D) :
  match vertices with
  | [] => remove_internal_edge_points vertices = None
  | [v] => remove_internal_edge_points vertices = Some [v; v]
  | _ =>
      ∃ ret,
        remove_internal_edge_points vertices = Some ret ∧
        ret `sublist_of` vertices ∧
        head ret = head vertices ∧ last ret = last vertices ∧
        (2 ≤ length ret)%nat
  end.
Proof.
  destruct vertices as [|a [|b tl]]; [reflexivity..|].
  destruct (remove_internal_edge_points_ends (a :: b :: tl)) as (f & l & Hf & Hl & E);
    [cbn [length]; lia|].
  exists (f :: corner_points (a :: b :: tl) ++ [l]). split; [exact E|].
  cbn in Hf. injection Hf as <-.
  split; [|split; [|split]].
  - apply sublist_skip. by apply corner_points_sublist.
  - reflexivity.
  - rewrite Hl, app_comm_cons. apply last_snoc.
  - cbn [length]. rewrite length_app. cbn [length]. lia.
Qed.

(** X3: [normalized_perimeter] fails on the empty perimeter (ValueError of
    [min]) and on no other: the rotation loop ends, and the answer starts and
    ends with the smallest point, holds the points of the input and no
    others, and has no two equal contiguous points.  The input need not be
    closed. *)
Theorem normalized_perimeter_total (p : WallPerimeter) :
  match p with
  | [] => normalized_perimeter p = None
  | _ =>
      ∃ q m,
        normalized_perimeter p = Some q ∧ smallest_point m p ∧
        head q = Some m ∧ last q = Some m ∧
        no_contiguous_repeat q ∧ ∀ x, x ∈ q ↔ x ∈ p
  end.
Proof.
  destruct p as [|a p]; [reflexivity|].
  destruct (normalized_perimeter_unfold (a :: p)) as (m & p1 & p2 & Hm & Hp & Hh & E);
    [done|].
  exists (dedup_runs (p2 ++ p1 ++ [m])), m. split; [exact E|].
  pose proof (min_point_smallest _ _ Hm) as Hs. split; [exact Hs|].
  split; [|split; [|split]].
  - rewrite head_dedup_runs, app_assoc. by apply head_app_Some.
  - rewrite last_dedup_runs, !app_assoc. apply last_snoc.
  - apply dedup_runs_no_contiguous_repeat.
  - intros x. rewrite elem_of_dedup_runs, Hp, !elem_of_app, list_elem_of_singleton.
    split; [|tauto]. intros [H|[H| ->]]; [tauto..|].
    destruct Hs as [Hin _]. rewrite Hp, elem_of_app in Hin. tauto.
Qed.

(** ** CapTriangulator: the vertex list and its index map *)

Lemma unique_vertices_wall (ret wall : list Vertex2D) :
  NoDup ret →
  NoDup (foldl (λ ret vertex,
                  if decide (vertex ∈ ret) then ret else ret ++ [vertex])
               ret wall) ∧
  ∀ x, x ∈ foldl (λ ret vertex,
                    if decide (vertex ∈ ret) then ret else ret ++ [vertex])
                 ret wall
       ↔ x ∈ ret ∨ x ∈ wall.
Proof.
  revert ret. induction wall as [|v wall IH]; intros ret Hnd.
  - split; [exact Hnd|]. intros x. rewrite elem_of_nil. tauto.
  - cbn [foldl]. destruct (decide (v ∈ ret)) as [Hin|Hin].
    + destruct (IH ret Hnd) as [H1 H2]. split; [exact H1|].
      intros x. rewrite H2, elem_of_cons. split; [tauto|].
      intros [?|[->|?]]; tauto.
    + destruct (IH (ret ++ [v])) as [H1 H2].
      { apply NoDup_app. split; [exact Hnd|].
        split; [|apply NoDup_singleton].
        intros x Hx ->%list_elem_of_singleton. by apply Hin. }
      split; [exact H1|]. intros x.
      rewrite H2, elem_of_app, list_elem_of_singleton, elem_of_cons. tauto.
Qed.

Lemma unique_vertices_walls (ret : list Vertex2D) (walls : list WallPerimeter) :
  NoDup ret →
  NoDup (foldl (λ ret wall,
                  foldl (λ ret vertex,
                           if decide (vertex ∈ ret) then ret else ret ++ [vertex])
                        ret wall)
               ret walls) ∧
  ∀ x, x ∈ foldl (λ ret wall,
                    foldl (λ ret vertex,
                             if decide (vertex ∈ ret) then ret else ret ++ [vertex])
                          ret wall)
                 ret walls
       ↔ x ∈ ret ∨ ∃ wall, wall ∈ walls ∧ x ∈ wall.
Proof.
  revert ret. induction walls as [|wall walls IH]; intros ret Hnd.
  - split; [exact Hnd|]. intros x. split; [tauto|].
    intros [?|(w & Hw & _)]; [done|]. by apply elem_of_nil in Hw.
  - cbn [foldl]. destruct (unique_vertices_wall ret wall Hnd) as [H1 H2].
    destruct (IH _ H1) as [H3 H4]. split; [exact H3|].
    intros x. rewrite H4, H2. split.
    + intros [[?|?]|(w & Hw & Hx)]; [tauto| |].
      * right. exists wall. split; [apply list_elem_of_here|done].
      * right. exists w. split; [by apply list_elem_of_further|done].
    + intros [?|(w & Hw & Hx)]; [tauto|].
      apply elem_of_cons in Hw as [->|Hw]; [tauto|]. right. by exists w.
Qed.

Lemma unique_vertices_spec (walls : list WallPerimeter) :
  NoDup (wall_perimeters_to_unique_vertices walls) ∧
  ∀ x, x ∈ wall_perimeters_to_unique_vertices walls
       ↔ ∃ wall, wall ∈ walls ∧ x ∈ wall.
Proof.
  destruct (unique_vertices_walls [] walls (NoDup_nil_2)) as [H1 H2].
  split; [exact H1|]. intros x. unfold wall_perimeters_to_unique_vertices.
  rewrite H2, elem_of_nil. tauto.
Qed.

Lemma index_map_lookup (l : list Vertex2D) v i :
  NoDup l →
  foldl (λ ret ie, <[ie.2 := ie.1]> ret) (∅ : gmap Vertex2D Z) (enumerate l) !! v
  = Some i
  ↔ 0 ≤ i ∧ l !! Z.to_nat i = Some v.
Proof.
  induction l as [|a l IH] using rev_ind; intros Hnd.
  - change (enumerate []) with (@nil (Z * Vertex2D)). cbn [foldl].
    rewrite lookup_empty, lookup_nil. split; [done|]. by intros [_ ?].
  - rewrite enumerate_snoc, foldl_app. cbn [foldl fst snd].
    apply NoDup_app in Hnd as (Hnd & Hnin & _).
    destruct (decide (v = a)) as [->|Hne].
    + rewrite lookup_insert_eq. split.
      * intros [= <-]. split; [lia|].
        rewrite Nat2Z.id. apply list_lookup_middle. done.
      * intros [Hi Hl]. f_equal.
        destruct (decide (Z.to_nat i < length l)%nat) as [Hlt|Hge].
        -- rewrite lookup_app_l in Hl by done.
           exfalso. apply (Hnin a); [by eapply list_elem_of_lookup_2|].
           apply list_elem_of_here.
        -- apply lookup_lt_Some in Hl. rewrite length_app in Hl. cbn in Hl. lia.
    + rewrite lookup_insert_ne by done. rewrite (IH Hnd).
      split; intros [Hi Hl]; (split; [done|]).
      * by apply lookup_app_l_Some.
      * apply lookup_app_Some in Hl as [Hl|[_ Hl]]; [done|].
        apply list_lookup_singleton_Some in Hl as [_ ->]. done.
Qed.

(** X4: [wall_perimeters_to_unique_vertices] answers a list without
    duplicates that holds exactly the vertices of the walls, so that the
    assertion of [list_to_index_map] never fires on it. *)
Theorem wall_perimeters_to_unique_vertices_spec (wall_perimeters : list WallPerimeter) :
  NoDup (wall_perimeters_to_unique_vertices wall_perimeters) ∧
  (∀ x, x ∈ wall_perimeters_to_unique_vertices wall_perimeters
        ↔ ∃ wall, wall ∈ wall_perimeters ∧ x ∈ wall) ∧
  is_Some (list_to_index_map (wall_perimeters_to_unique_vertices wall_perimeters)).
Proof.
  destruct (unique_vertices_spec wall_perimeters) as [H1 H2].
  split; [exact H1|]. split; [exact H2|].
  unfold list_to_index_map. destruct (decide _); [by eexists|done].
Qed.

(** X5: [list_to_index_map] raises exactly on a list with a duplicated
    element; otherwise the map and the list are inverse to each other: the
    map sends [v] to [i] if and only if the list holds [v] at index [i]. *)
Theorem list_to_index_map_inverse (the_list : list Vertex2D) :
  (list_to_index_map the_list = None ↔ ¬ NoDup the_list) ∧
  ∀ ret, list_to_index_map the_list = Some ret →
         ∀ v i, ret !! v = Some i ↔ 0 ≤ i ∧ the_list !! Z.to_nat i = Some v.
Proof.
  unfold list_to_index_map. destruct (decide (NoDup the_list)) as [Hnd|Hnd].
  - split; [split; [done|tauto]|]. intros ret [= <-] v i.
    by apply index_map_lookup.
  - split; [done|]. intros ret [=].
Qed.

(** ** CapTriangulator: the segments and the run of [triangulate_walls] *)

Lemma length_wall_edges wall : length (wall_edges wall) = (length wall - 1)%nat.
Proof.
  unfold wall_edges. destruct wall as [|a tl]; [done|].
  rewrite length_zip_with. cbn [tail length]. lia.
Qed.

Lemma wall_edges_lookup wall i a b :
  wall_edges wall !! i = Some (a, b)
  ↔ wall !! i = Some a ∧ wall !! (i + 1)%nat = Some b.
Proof.
  unfold wall_edges. rewrite lookup_zip_with_Some, Nat.add_1_r.
  setoid_rewrite lookup_tail. split.
  - by intros (x & y & [= -> ->] & ? & ?).
  - intros [? ?]. by exists a, b.
Qed.

Lemma wall_edges_lookup_lt wall i :
  (i < length wall - 1)%nat →
  ∃ a b, wall !! i = Some a ∧ wall !! (i + 1)%nat = Some b ∧
         wall_edges wall !! i = Some (a, b).
Proof.
  intros Hi.
  destruct (lookup_lt_is_Some_2 wall i) as [a Ha]; [lia|].
  destruct (lookup_lt_is_Some_2 wall (i + 1)%nat) as [b Hb]; [lia|].
  exists a, b. split; [done|]. split; [done|]. by apply wall_edges_lookup.
Qed.

Lemma wall_segments_loop (idx : gmap Vertex2D Z) wall acc n :
  (∀ v, v ∈ wall → is_Some (idx !! v)) → (n ≤ length wall - 1)%nat →
  foldl (λ segments i,
           segments ← segments;
           va ← wall !! i;
           vb ← wall !! (i + 1)%nat;
           ia ← idx !! va;
           ib ← idx !! vb;
           Some (segments ++ [(ia, ib)]))
        (Some acc) (seq 0 n)
  = Some (acc ++ take n (edge_segment idx <$> wall_edges wall)).
Proof.
  intros Hidx. induction n as [|n IH]; intros Hn.
  - cbn. by rewrite app_nil_r.
  - rewrite seq_S, foldl_app, IH by lia. cbn [foldl Nat.add].
    destruct (wall_edges_lookup_lt wall n) as (a & b & Ha & Hb & Hab); [lia|].
    cbn [mbind option_bind]. rewrite Ha, Hb.
    destruct (Hidx a) as [ia Hia]; [by eapply list_elem_of_lookup_2|].
    destruct (Hidx b) as [ib Hib]; [by eapply list_elem_of_lookup_2|].
    cbn [mbind option_bind]. rewrite Hia, Hib. cbn [mbind option_bind].
    rewrite <- app_assoc. do 2 f_equal.
    rewrite (take_S_r _ _ (ia, ib)); [done|].
    rewrite list_lookup_fmap, Hab. cbn. unfold edge_segment. cbn [fst snd].
    by rewrite Hia, Hib.
Qed.

Lemma wall_segments_closed (idx : gmap Vertex2D Z) wall acc :
  (∀ v, v ∈ wall → is_Some (idx !! v)) → closed_perimeter wall →
  wall_segments idx (Some acc) wall
  = Some (acc ++ (edge_segment idx <$> wall_edges wall)).
Proof.
  intros Hidx [Hne Hc]. unfold wall_segments. cbn [mbind option_bind].
  destruct wall as [|a wall]; [done|]. cbn [lookup list_lookup] in *.
  cbn [head] in Hc. rewrite <- Hc. cbn [mbind option_bind].
  destruct (decide (a = a)); [|done].
  rewrite wall_segments_loop by done.
  rewrite firstn_all2; [done|]. by rewrite length_fmap, length_wall_edges.
Qed.

Lemma wall_segments_open (idx : gmap Vertex2D Z) wall segments :
  ¬ closed_perimeter wall → wall_segments idx segments wall = None.
Proof.
  intros Hc. unfold wall_segments. destruct segments as [acc|]; [|done].
  cbn [mbind option_bind]. destruct wall as [|a wall]; [done|].
  cbn [lookup list_lookup mbind option_bind].
  destruct (last (a :: wall)) as [z|] eqn:El; [|done]. cbn [mbind option_bind].
  destruct (decide (a = z)) as [->|]; [|done].
  exfalso. apply Hc. split; [done|]. by rewrite El.
Qed.

Lemma wall_segments_None (idx : gmap Vertex2D Z) walls :
  foldl (wall_segments idx) None walls = None.
Proof. induction walls as [|w walls IH]; [done|]. exact IH. Qed.

Lemma wall_segments_walls (idx : gmap Vertex2D Z) walls acc :
  (∀ wall v, wall ∈ walls → v ∈ wall → is_Some (idx !! v)) →
  foldl (wall_segments idx) (Some acc) walls
  = if decide (Forall closed_perimeter walls)
    then Some (acc ++ (wall ← walls; edge_segment idx <$> wall_edges wall))
    else None.
Proof.
  revert acc. induction walls as [|w walls IH]; intros acc Hidx.
  - cbn. rewrite app_nil_r. by destruct (decide _) as [|[]].
  - cbn [foldl]. destruct (decide (closed_perimeter w)) as [Hc|Hc].
    + rewrite wall_segments_closed; [|intros v; apply Hidx, list_elem_of_here|done].
      rewrite IH by (intros wall v Hw; by apply Hidx, list_elem_of_further).
      destruct (decide (Forall closed_perimeter walls)) as [Hall|Hall].
      * rewrite decide_True by (by constructor). cbn. by rewrite app_assoc.
      * rewrite decide_False; [done|]. by intros [_ ?]%Forall_cons.
    + rewrite wall_segments_open, wall_segments_None by done.
      rewrite decide_False; [done|]. by intros [? _]%Forall_cons.
Qed.

Lemma segment_ends_edge (idx : gmap Vertex2D Z) unique a b :
  (∀ v i, idx !! v = Some i ↔ 0 ≤ i ∧ unique !! Z.to_nat i = Some v) →
  is_Some (idx !! a) → is_Some (idx !! b) →
  segment_ends unique (edge_segment idx (a, b)) = Some (a, b).
Proof.
  intros Hidx [ia Ha] [ib Hb]. unfold segment_ends, edge_segment. cbn [fst snd].
  rewrite Ha, Hb. cbn [default fst snd].
  apply Hidx in Ha as [Ha0 Ha], Hb as [Hb0 Hb].
  rewrite option_guard_True by done. cbn [mbind option_bind]. unfold id.
  by rewrite Ha, Hb.
Qed.

Lemma check_wall_loop (idx : gmap Vertex2D Z) (unique wall : list Vertex2D)
    (segments pre post : list (Z * Z)) n :
  (∀ v i, idx !! v = Some i ↔ 0 ≤ i ∧ unique !! Z.to_nat i = Some v) →
  (∀ v, v ∈ wall → is_Some (idx !! v)) →
  segments = pre ++ (edge_segment idx <$> wall_edges wall) ++ post →
  (n ≤ length wall - 1)%nat →
  foldl (λ i ie,
           i ← i;
           wall_vertex0 ← wall !! ie;
           wall_vertex1 ← wall !! (ie + 1)%nat;
           segment ← segments !! i;
           guard (0 ≤ segment.1 ∧ 0 ≤ segment.2);;
           va ← unique !! (Z.to_nat segment.1);
           vb ← unique !! (Z.to_nat segment.2);
           if decide ((va, vb) = (wall_vertex0, wall_vertex1))
           then Some (i + 1)%nat else None)
        (Some (length pre)) (seq 0 n)
  = Some (length pre + n)%nat.
Proof.
  intros Hinv Hidx ->. induction n as [|n IH]; intros Hn.
  - cbn. f_equal. lia.
  - rewrite seq_S, foldl_app, IH by lia. cbn [foldl Nat.add].
    destruct (wall_edges_lookup_lt wall n) as (a & b & Ha & Hb & Hab); [lia|].
    cbn [mbind option_bind]. rewrite Ha, Hb. cbn [mbind option_bind].
    rewrite lookup_app_r by lia.
    replace (length pre + n - length pre)%nat with n by lia.
    rewrite lookup_app_l by (rewrite length_fmap, length_wall_edges; lia).
    rewrite list_lookup_fmap, Hab. cbn [fmap option_fmap option_map mbind option_bind].
    destruct (Hidx a) as [ia Hia]; [by eapply list_elem_of_lookup_2|].
    destruct (Hidx b) as [ib Hib]; [by eapply list_elem_of_lookup_2|].
    unfold edge_segment. cbn [fst snd]. rewrite Hia, Hib. cbn [default fst snd].
    unfold id. apply Hinv in Hia as [Ha0 Hia], Hib as [Hb0 Hib].
    rewrite option_guard_True by done. cbn [mbind option_bind].
    rewrite Hia, Hib. cbn [mbind option_bind].
    rewrite decide_True by done. f_equal. lia.
Qed.

Lemma check_walls (idx : gmap Vertex2D Z) (unique : list Vertex2D)
    (walls : list WallPerimeter) (segments pre post : list (Z * Z)) :
  (∀ v i, idx !! v = Some i ↔ 0 ≤ i ∧ unique !! Z.to_nat i = Some v) →
  (∀ wall v, wall ∈ walls → v ∈ wall → is_Some (idx !! v)) →
  segments = pre ++ (wall ← walls; edge_segment idx <$> wall_edges wall) ++ post →
  is_Some (foldl (λ i wall, check_wall unique segments i wall)
                 (Some (length pre)) walls).
Proof.
  intros Hinv. revert pre. induction walls as [|w walls IH]; intros pre Hidx Hs.
  - by eexists.
  - cbn [foldl]. unfold check_wall at 2.
    rewrite (check_wall_loop idx unique w segments pre
               ((wall ← walls; edge_segment idx <$> wall_edges wall) ++ post)).
    + replace (length pre + (length w - 1))%nat
        with (length (pre ++ (edge_segment idx <$> wall_edges w))).
      * apply IH; [intros wall v Hw; by apply Hidx, list_elem_of_further|].
        rewrite Hs. cbn [mbind list_bind]. by rewrite <- !app_assoc.
      * by rewrite length_app, length_fmap, length_wall_edges.
    + exact Hinv.
    + intros v. apply Hidx, list_elem_of_here.
    + rewrite Hs. cbn [mbind list_bind]. by rewrite <- !app_assoc.
    + lia.
Qed.

Lemma segment_ends_edges (idx : gmap Vertex2D Z) (unique : list Vertex2D)
    (walls : list WallPerimeter) :
  (∀ v i, idx !! v = Some i ↔ 0 ≤ i ∧ unique !! Z.to_nat i = Some v) →
  (∀ wall v, wall ∈ walls → v ∈ wall → is_Some (idx !! v)) →
  mapM (segment_ends unique)
       (wall ← walls; edge_segment idx <$> wall_edges wall)
  = Some (walls ≫= wall_edges).
Proof.
  intros Hinv Hidx. apply mapM_Some.
  induction walls as [|w walls IH]; [constructor|].
  cbn [mbind list_bind]. apply Forall2_app.
  - apply Forall2_fmap_l, Forall_Forall2_diag, Forall_forall.
    intros [a b] Hab. apply list_elem_of_lookup in Hab as [i Hab].
    apply wall_edges_lookup in Hab as [Ha Hb].
    apply (segment_ends_edge idx unique a b Hinv);
      eapply Hidx; try apply list_elem_of_here; by eapply list_elem_of_lookup_2.
  - apply IH. intros wall v Hw. by apply Hidx, list_elem_of_further.
Qed.

Lemma triangulate_walls_index_map (wall_perimeters : list WallPerimeter) :
  ∃ idx,
    list_to_index_map (wall_perimeters_to_unique_vertices wall_perimeters)
    = Some idx ∧
    (∀ v i, idx !! v = Some i
            ↔ 0 ≤ i ∧
              wall_perimeters_to_unique_vertices wall_perimeters !! Z.to_nat i
              = Some v) ∧
    ∀ wall v, wall ∈ wall_perimeters → v ∈ wall → is_Some (idx !! v).
Proof.
  destruct (unique_vertices_spec wall_perimeters) as [Hnd Hin].
  remember (wall_perimeters_to_unique_vertices wall_perimeters) as unique eqn:Eu.
  unfold list_to_index_map. rewrite decide_True by done.
  eexists. split; [reflexivity|].
  assert (Hinv : ∀ v i,
            foldl (λ ret ie, <[ie.2 := ie.1]> ret) (∅ : gmap Vertex2D Z)
                  (enumerate unique) !! v = Some i
            ↔ 0 ≤ i ∧ unique !! Z.to_nat i = Some v)
    by (intros v i; by apply index_map_lookup).
  split; [exact Hinv|]. intros wall v Hw Hv.
  assert (Hu : v ∈ unique) by (apply Hin; by exists wall).
  apply list_elem_of_lookup in Hu as [i Hu]. exists (Z.of_nat i).
  apply Hinv. split; [lia|]. by rewrite Nat2Z.id.
Qed.

Lemma triangulate_walls_open (wall_perimeters : list WallPerimeter)
    (holes : list Hole) :
  ¬ Forall closed_perimeter wall_perimeters →
  triangulate_walls wall_perimeters holes = Raise.
Proof.
  intros Hopen.
  destruct (triangulate_walls_index_map wall_perimeters) as (idx & Ei & Hinv & Hidx).
  unfold triangulate_walls. cbv zeta. rewrite Ei.
  rewrite (wall_segments_walls idx wall_perimeters [] Hidx).
  by rewrite decide_False.
Qed.

Lemma triangulate_walls_closed (wall_perimeters : list WallPerimeter)
    (holes : list Hole) :
  Forall closed_perimeter wall_perimeters →
  ∃ segments,
    mapM (segment_ends (wall_perimeters_to_unique_vertices wall_perimeters))
         segments
    = Some (wall_perimeters ≫= wall_edges) ∧
    triangulate_walls wall_perimeters holes
    = match wall_perimeters with
      | [] => Return []
      | _ =>
          DumpDict
            {| dict_vertices := wall_perimeters_to_unique_vertices wall_perimeters;
               dict_segments := segments;
               dict_holes := match holes with [] => None | _ => Some holes end |}
            (CallTriangulate
               {| dict_vertices := wall_perimeters_to_unique_vertices wall_perimeters;
                  dict_segments := segments;
                  dict_holes := match holes with [] => None | _ => Some holes end |}
               (λ tri, of_option (mapM (triangle_face tri) (tri_triangles tri))))
      end.
Proof.
  intros Hall.
  destruct (triangulate_walls_index_map wall_perimeters) as (idx & Ei & Hinv & Hidx).
  destruct (unique_vertices_spec wall_perimeters) as [Hnd Hin].
  unfold triangulate_walls. cbv zeta. rewrite Ei.
  remember (wall_perimeters_to_unique_vertices wall_perimeters) as unique eqn:Eu.
  rewrite (wall_segments_walls idx wall_perimeters [] Hidx).
  rewrite decide_True by done. cbn [app].
  exists (wall ← wall_perimeters; edge_segment idx <$> wall_edges wall).
  split; [by apply segment_ends_edges|].
  destruct (check_walls idx unique wall_perimeters
              (wall ← wall_perimeters; edge_segment idx <$> wall_edges wall) [] [])
    as [i Hi]; [done|done|by rewrite app_nil_r|].
  cbn [length] in Hi. rewrite Hi. cbn [dict_vertices].
  destruct wall_perimeters as [|w walls].
  - by rewrite Eu.
  - destruct unique as [|u unique]; [|reflexivity].
    exfalso. apply Forall_cons in Hall as [[Hne _] _].
    destruct w as [|a w]; [done|].
    apply (elem_of_nil a), Hin. exists (a :: w).
    split; apply list_elem_of_here.
Qed.

(** X6: the run of [triangulate_walls].  It raises, before any file is
    written or the library is called, exactly when some wall is empty or
    does not end where it starts; the check of the segments against the
    walls never fails.  Otherwise, with no wall it returns the empty list,
    and with walls it exports the dictionary and then calls the library with
    it: the vertices are the unique vertices, the segments read through the
    vertices are the edges of the walls, in their order, and the key
    [holes] is there only for a non-empty list of holes. *)
Theorem triangulate_walls_runs (wall_perimeters : list WallPerimeter)
    (holes : list Hole) :
  if decide (Forall closed_perimeter wall_perimeters) then
    ∃ segments,
      mapM (segment_ends (wall_perimeters_to_unique_vertices wall_perimeters))
           segments
      = Some (wall_perimeters ≫= wall_edges) ∧
      triangulate_walls wall_perimeters holes
      = match wall_perimeters with
        | [] => Return []
        | _ =>
            DumpDict
              {| dict_vertices := wall_perimeters_to_unique_vertices wall_perimeters;
                 dict_segments := segments;
                 dict_holes := match holes with [] => None | _ => Some holes end |}
              (CallTriangulate
                 {| dict_vertices := wall_perimeters_to_unique_vertices wall_perimeters;
                    dict_segments := segments;
                    dict_holes := match holes with [] => None | _ => Some holes end |}
                 (λ tri, of_option (mapM (triangle_face tri) (tri_triangles tri))))
        end
  else triangulate_walls wall_perimeters holes = Raise.
Proof.
  destruct (decide (Forall closed_perimeter wall_perimeters)) as [Hall|Hopen].
  - by apply triangulate_walls_closed.
  - by apply triangulate_walls_open.
Qed.

(** ** The sort of Python, as insertion *)

Section sorting_facts.
Context {A : Type} (leb : A → A → bool).
Hypothesis leb_total : ∀ x y, leb x y = true ∨ leb y x = true.
Hypothesis leb_trans : ∀ x y z, leb x y = true → leb y z = true → leb x z = true.

Lemma insert_sorted_StronglySorted x l :
  StronglySorted (λ a b, leb a b = true) l →
  StronglySorted (λ a b, leb a b = true) (insert_sorted leb x l).
Proof.
  induction l as [|y l IH]; intros Hs.
  - repeat constructor.
  - apply StronglySorted_inv in Hs as [Hs Hy]. cbn [insert_sorted].
    destruct (leb y x) eqn:E.
    + constructor; [by apply IH|].
      rewrite (insert_sorted_Permutation leb x l). by constructor.
    + destruct (leb_total x y) as [Hxy|Hyx]; [|congruence].
      constructor; [by constructor|]. constructor; [done|].
      eapply Forall_impl; [exact Hy|]. intros z Hz. by apply (leb_trans x y z).
Qed.

Lemma foldl_insert_sorted_StronglySorted l acc :
  StronglySorted (λ a b, leb a b = true) acc →
  StronglySorted (λ a b, leb a b = true)
                 (foldl (λ acc x, insert_sorted leb x acc) acc l).
Proof.
  revert acc. induction l as [|x l IH]; intros acc Hs; [done|].
  cbn [foldl]. by apply IH, insert_sorted_StronglySorted.
Qed.

Lemma sorted_StronglySorted l :
  StronglySorted (λ a b, leb a b = true) (sorted leb l).
Proof. apply foldl_insert_sorted_StronglySorted. constructor. Qed.

Lemma insert_sorted_last x l :
  Forall (λ y, leb y x = true) l → insert_sorted leb x l = l ++ [x].
Proof.
  induction 1 as [|y l Hy _ IH]; [done|].
  cbn [insert_sorted]. by rewrite Hy, IH.
Qed.

Lemma foldl_insert_sorted_fixed l acc :
  StronglySorted (λ a b, leb a b = true) (acc ++ l) →
  foldl (λ acc x, insert_sorted leb x acc) acc l = acc ++ l.
Proof.
  revert acc. induction l as [|x l IH]; intros acc Hs.
  - by rewrite app_nil_r.
  - cbn [foldl]. rewrite insert_sorted_last.
    + rewrite IH; rewrite <- app_assoc; done.
    + apply Forall_forall. intros y Hy.
      apply (StronglySorted_app_1_elem_of _ _ _ _ _ Hs Hy), list_elem_of_here.
Qed.

Lemma sorted_fixed l :
  StronglySorted (λ a b, leb a b = true) l → sorted leb l = l.
Proof. intros Hs. by apply (foldl_insert_sorted_fixed l []). Qed.
End sorting_facts.

Lemma perimeter_leb_total (a b : list (Z * Z)) :
  perimeter_leb a b = true ∨ perimeter_leb b a = true.
Proof.
  revert b. induction a as [|x a IH]; intros [|y b]; cbn [perimeter_leb]; auto.
  destruct (decide (x = y)) as [->|Hne].
  - rewrite decide_True by done. apply IH.
  - rewrite decide_False by done. apply point_leb_total.
Qed.

Lemma perimeter_leb_trans (a b c : list (Z * Z)) :
  perimeter_leb a b = true → perimeter_leb b c = true → perimeter_leb a c = true.
Proof.
  revert b c. induction a as [|x a IH]; intros [|y b] [|z c];
    cbn [perimeter_leb]; try done.
  repeat case_decide; subst; try done.
  - apply IH.
  - intros Ha Hb. exfalso. by apply (point_leb_antisym z y) in Ha.
  - intros Ha Hb. by apply (point_leb_trans x y z).
Qed.

(** X7: the perimeters that [build] returns are in the order of Python
    lists, and sorting them again changes nothing, so that the [sorted] of
    [matrix2obj] around [build] has no effect. *)
Theorem build_sorted (bm : BlocksMap) (fuel : nat) :
  (∀ ret, build bm fuel = Some ret →
          StronglySorted (λ a b, perimeter_leb a b = true) ret) ∧
  sorted perimeter_leb <$> build bm fuel = build bm fuel.
Proof.
  assert (H : ∀ ret, build bm fuel = Some ret →
                     StronglySorted (λ a b, perimeter_leb a b = true) ret).
  { intros ret. unfold build. destruct (decide _); [intros [= <-]; constructor|].
    destruct (build_loop bm fuel) as [[tracked found]|]; [|done].
    intros [= <-].
    apply sorted_StronglySorted; [apply perimeter_leb_total|apply perimeter_leb_trans]. }
  split; [exact H|].
  destruct (build bm fuel) as [ret|] eqn:E; [|done]. cbn. f_equal.
  apply sorted_fixed, H. reflexivity.
Qed.

(** ** GridModel: the size of the map *)

Lemma mat2map_rows_snoc (matrix : WalkableMatrix) (row : list Z) :
  mat2map_rows (matrix ++ [row])
  = (foldl (mat2map_row (Z.of_nat (length matrix)))
           ((mat2map_rows matrix).1.1, (mat2map_rows matrix).1.2) (enumerate row),
     Some (Z.of_nat (length matrix))).
Proof.
  unfold mat2map_rows. rewrite enumerate_snoc, foldl_app. cbn [foldl].
  destruct (foldl _ _ (enumerate matrix)) as [[ret x] y]. cbn [fst snd].
  by destruct (foldl _ _ (enumerate row)).
Qed.

Lemma mat2map_rows_width (matrix empties : WalkableMatrix) (row : list Z) :
  row ≠ [] → Forall (λ r, r = []) empties →
  (mat2map_rows (matrix ++ [row] ++ empties)).1.2
  = Some (Z.of_nat (length row) - 1).
Proof.
  intros Hne. induction empties as [|e empties IH] using rev_ind; intros He.
  - rewrite app_nil_r, mat2map_rows_snoc. cbn [fst snd].
    destruct (mat2map_row_fold (Z.of_nat (length matrix)) row
                (mat2map_rows matrix).1.1 (mat2map_rows matrix).1.2)
      as (ret' & -> & _). cbn [fst snd]. by destruct row.
  - apply Forall_app in He as [He He']. apply Forall_singleton in He' as ->.
    rewrite !app_assoc, mat2map_rows_snoc, <- !app_assoc.
    change (enumerate []) with (@nil (Z * Z)). cbn [foldl fst snd].
    by apply IH.
Qed.

Lemma mat2map_None (matrix : WalkableMatrix) :
  mat2map matrix = None ↔ ∀ row, row ∈ matrix → row = [].
Proof.
  destruct (mat2map_rows_spec matrix) as (ret & x & Hrows & Hx & Hret).
  unfold mat2map. rewrite Hrows. split.
  - intros Hnone row Hrow. destruct row as [|w row]; [done|].
    destruct Hx as [_ Hx]. destruct Hx as [x' ->]; [by exists (w :: row)|].
    cbn in Hnone. destruct matrix; [by apply elem_of_nil in Hrow|done].
  - intros Hall. destruct x as [x'|]; [|done].
    destruct Hx as [Hx _]. destruct Hx as (row & Hrow & Hne); [by eexists|].
    by apply Hall in Hrow.
Qed.

Lemma mat2map_last_row (pre empties : WalkableMatrix) (row : list Z) :
  row ≠ [] → Forall (λ r, r = []) empties →
  ∃ bm,
    mat2map (pre ++ [row] ++ empties) = Some bm ∧
    map_size bm
    = (Z.of_nat (length row), Z.of_nat (length (pre ++ [row] ++ empties))) ∧
    unit_blocks bm ∧
    ((∀ r, r ∈ pre ++ [row] ++ empties → (length r ≤ length row)%nat) →
     blocks_in_grid bm) ∧
    ∀ box v, map bm !! box = Some v
             ↔ v = 1 ∧ blocked_at (pre ++ [row] ++ empties) box.
Proof.
  intros Hne He.
  destruct (mat2map_rows_spec (pre ++ [row] ++ empties))
    as (ret & x & Hrows & Hx & Hret).
  pose proof (mat2map_rows_width pre empties row Hne He) as Hw.
  rewrite Hrows in Hw. cbn [fst snd] in Hw. subst x.
  unfold mat2map. rewrite Hrows.
  destruct (pre ++ [row] ++ empties) as [|r0 m0] eqn:E; [by destruct pre|].
  rewrite <- E in *. clear E. cbn [mbind option_bind].
  eexists. split; [reflexivity|]. cbn [map_size box_size map].
  split; [f_equal; lia|]. split.
  { split; [reflexivity|]. intros box v Hv. by apply Hret in Hv as [-> _]. }
  split; [|exact Hret].
  intros Hlen box v Hv. cbn [map_size fst snd].
  apply Hret in Hv as (-> & H1 & H2 & r & Hr & Hc).
  apply lookup_lt_Some in Hr as Hr1. apply lookup_lt_Some in Hc.
  apply list_elem_of_lookup_2, Hlen in Hr. lia.
Qed.

(** X8: the size that [mat2map] gives the map.  [mat2map] fails exactly on
    a matrix without any entry (its loop variables are then unbound).
    Otherwise the height is the number of rows and the width is the length
    of the last non-empty row, whatever the other rows are; when no row is
    longer than that one, every block lies in the grid. *)
Theorem mat2map_size (matrix : WalkableMatrix) :
  (mat2map matrix = None ↔ ∀ row, row ∈ matrix → row = []) ∧
  ∀ pre row empties,
    matrix = pre ++ [row] ++ empties → row ≠ [] → Forall (λ r, r = []) empties →
    ∃ bm,
      mat2map matrix = Some bm ∧
      map_size bm = (Z.of_nat (length row), Z.of_nat (length matrix)) ∧
      box_size bm = 1 ∧
      ((∀ r, r ∈ matrix → (length r ≤ length row)%nat) → blocks_in_grid bm).
Proof.
  split; [apply mat2map_None|].
  intros pre row empties -> Hne He.
  destruct (mat2map_last_row pre empties row Hne He) as (bm & E & Hs & Hu & Hg & _).
  exists bm. split; [exact E|]. split; [exact Hs|]. split; [exact (proj1 Hu)|exact Hg].
Qed.

Lemma mat2map_size_witness :
  ∃ bm,
    mat2map [[0; 1]; [1; 0]; []] = Some bm ∧
    map_size bm = (Z.of_nat (length [1; 0]), Z.of_nat (length [[0; 1]; [1; 0]; []])) ∧
    box_size bm = 1 ∧
    ((∀ r, r ∈ [[0; 1]; [1; 0]; []] → (length r ≤ length [1; 0])%nat) →
     blocks_in_grid bm).
Proof.
  apply (proj2 (mat2map_size [[0; 1]; [1; 0]; []]) [[0; 1]] [1; 0] [[]]).
  - reflexivity.
  - discriminate.
  - repeat constructor.
Defined.

(** ** MeshExporter: the export settings *)

Lemma sign_dic_lookup c sign :
  sign_dic !! c = Some sign
  ↔ (c = "-"%char ∧ sign = -1) ∨ (c = "+"%char ∧ sign = 1).
Proof.
  unfold sign_dic. cbn [list_to_map foldr fst snd].
  rewrite !lookup_insert_Some, lookup_empty. split.
  - intros [[<- <-]|[Hne [[<- <-]|[_ [=]]]]]; auto.
  - intros [[-> ->]|[-> ->]]; [by left|]. right. split; [done|]. by left.
Qed.

Lemma axes_index c axis :
  String.index 0 (String c EmptyString) AXES = Some axis
  ↔ (c = "x"%char ∧ axis = 0%nat) ∨ (c = "y"%char ∧ axis = 1%nat) ∨
    (c = "z"%char ∧ axis = 2%nat).
Proof.
  unfold AXES. cbn [String.index String.prefix].
  destruct (ascii_dec c "x") as [->|Hx]; [split; [intros [= <-]; auto|]|].
  { intros [[_ ->]|[[[=] _]|[[=] _]]]. done. }
  destruct (ascii_dec c "y") as [->|Hy]; [split; [intros [= <-]; auto|]|].
  { intros [[[=] _]|[[_ ->]|[[=] _]]]. done. }
  destruct (ascii_dec c "z") as [->|Hz]; [split; [intros [= <-]; auto|]|].
  { intros [[[=] _]|[[[=] _]|[_ ->]]]. done. }
  split; [done|]. intros [[-> _]|[[-> _]|[-> _]]]; done.
Qed.

Lemma parse_setting_Some (s : string) (r : nat * Z) :
  (c0 ← String.get 0 s;
   c1 ← String.get 1 s;
   sign ← sign_dic !! c0;
   axis ← String.index 0 (String c1 EmptyString) AXES;
   Some (axis, sign)) = Some r
  ↔ ∃ c0 c1 rest,
      s = String c0 (String c1 rest) ∧ sign_dic !! c0 = Some r.2 ∧
      String.index 0 (String c1 EmptyString) AXES = Some r.1.
Proof.
  destruct s as [|c0 [|c1 rest]].
  - split; [done|]. by intros (? & ? & ? & [=] & _).
  - split; [done|]. by intros (? & ? & ? & [=] & _).
  - cbn [String.get mbind option_bind]. split.
    + destruct (sign_dic !! c0) as [sign|] eqn:Es; [|done].
      cbn [mbind option_bind].
      destruct (String.index 0 (String c1 EmptyString) AXES) as [axis|] eqn:Ea;
        [|done].
      intros [= <-]. by exists c0, c1, rest.
    + intros (? & ? & ? & [= <- <- <-] & -> & ->). by destruct r.
Qed.

Lemma parse_setting_valid (s : string) :
  is_Some (c0 ← String.get 0 s;
           c1 ← String.get 1 s;
           sign ← sign_dic !! c0;
           axis ← String.index 0 (String c1 EmptyString) AXES;
           Some (axis, sign))
  ↔ valid_setting s.
Proof.
  split.
  - intros [r (c0 & c1 & rest & -> & Hs & Ha)%parse_setting_Some].
    exists c0, c1, rest. split; [done|].
    apply sign_dic_lookup in Hs. apply axes_index in Ha. tauto.
  - intros (c0 & c1 & rest & -> & Hs & Ha).
    assert (∃ sign, sign_dic !! c0 = Some sign) as [sign Hsign].
    { destruct Hs as [->| ->]; eexists; apply sign_dic_lookup; eauto. }
    assert (∃ axis, String.index 0 (String c1 EmptyString) AXES = Some axis)
      as [axis Haxis].
    { destruct Ha as [->|[->| ->]]; eexists; apply axes_index; eauto. }
    exists (axis, sign). apply parse_setting_Some. by exists c0, c1, rest.
Qed.

Lemma parsed_setting_component (s : string) (r : nat * Z) (vertex : Vertex) :
  (c0 ← String.get 0 s;
   c1 ← String.get 1 s;
   sign ← sign_dic !! c0;
   axis ← String.index 0 (String c1 EmptyString) AXES;
   Some (axis, sign)) = Some r →
  is_Some (vertex_component vertex r.1).
Proof.
  intros (c0 & c1 & rest & _ & _ & Ha)%parse_setting_Some.
  apply axes_index in Ha. unfold vertex_component.
  destruct Ha as [[_ ->]|[[_ ->]|[_ ->]]]; by eexists.
Qed.

Lemma parsed_settings_export_vertex (export_settings : list string)
    (parsed : ExportSettings) (vertex : Vertex) :
  parse_readable_export_settings export_settings = Some parsed →
  is_Some (export_vertex vertex parsed).
Proof.
  unfold parse_readable_export_settings. intros Hp.
  destruct (mapM _ export_settings) as [ret|] eqn:E; [|done].
  cbn [mbind option_bind] in Hp.
  destruct ret as [|r0 [|r1 [|r2 ret]]]; try done.
  cbn in Hp. injection Hp as <-.
  apply mapM_Some in E.
  assert (Hc : ∀ i r, (r0 :: r1 :: r2 :: ret) !! i = Some r →
                      is_Some (vertex_component vertex r.1)).
  { intros i r Hi.
    destruct (Forall2_lookup_r _ _ _ _ _ E Hi) as (s & _ & Hs).
    by apply (parsed_setting_component s). }
  destruct (Hc 0%nat r0 eq_refl) as [c0 H0].
  destruct (Hc 1%nat r1 eq_refl) as [c1 H1].
  destruct (Hc 2%nat r2 eq_refl) as [c2 H2].
  unfold export_vertex. rewrite H0, H1, H2. by eexists.
Qed.

(** X11: [parse_readable_export_settings] returns exactly when there are at
    least three settings and every one of them, also those after the third,
    starts with a sign [+] or [-] followed by an axis [x], [y] or [z]; what
    follows the axis is not read.  Settings that parse never make
    [export_vertex] fail. *)
Theorem parse_readable_export_settings_accepts (export_settings : list string) :
  (is_Some (parse_readable_export_settings export_settings)
   ↔ (3 ≤ length export_settings)%nat ∧ Forall valid_setting export_settings) ∧
  ∀ parsed vertex,
    parse_readable_export_settings export_settings = Some parsed →
    is_Some (export_vertex vertex parsed).
Proof.
  split; [|intros parsed vertex; apply parsed_settings_export_vertex].
  unfold parse_readable_export_settings. split.
  - intros [r Hr].
    destruct (mapM _ export_settings) as [ret|] eqn:E; [|done].
    cbn [mbind option_bind] in Hr.
    destruct ret as [|r0 [|r1 [|r2 ret]]]; try done.
    apply length_mapM in E as Hlen. cbn [length] in Hlen.
    split; [lia|]. apply mapM_Some in E.
    apply Forall_forall. intros s Hs.
    apply list_elem_of_lookup in Hs as [i Hs].
    destruct (Forall2_lookup_l _ _ _ _ _ E Hs) as (y & _ & Hy).
    apply parse_setting_valid. by exists y.
  - intros [Hlen Hall].
    assert (Hm : is_Some (mapM (λ s : string,
                c0 ← String.get 0 s;
                c1 ← String.get 1 s;
                sign ← sign_dic !! c0;
                axis ← String.index 0 (String c1 EmptyString) AXES;
                Some (axis, sign)) export_settings)).
    { apply mapM_is_Some. eapply Forall_impl; [exact Hall|].
      intros s. apply parse_setting_valid. }
    destruct Hm as [ret Hm]. rewrite Hm. cbn [mbind option_bind].
    apply length_mapM in Hm. rewrite Hm in Hlen.
    destruct ret as [|r0 [|r1 [|r2 ret]]]; cbn [length] in Hlen; try lia.
    by eexists.
Qed.

(** ** PerimeterTracer: the two tables *)

Lemma possible_directions_keys (m : BlockMatrix) :
  is_Some (POSSIBLE_DIRECTIONS !! m) ↔ m ∈ all_matrices.
Proof.
  split.
  - intros [versors H]. apply elem_of_list_to_map_2 in H.
    repeat (apply elem_of_cons in H as [[= -> _]|H]);
      [..|by apply elem_of_nil in H];
      apply (bool_decide_unpack _); vm_compute; exact I.
  - intros H. each_matrix H; eexists; vm_compute; reflexivity.
Qed.

Lemma rules_keys (m : BlockMatrix) :
  is_Some (RULES !! m) ↔ m ∈ all_matrices.
Proof.
  split.
  - intros [rules H]. apply elem_of_list_to_map_2 in H.
    repeat (apply elem_of_cons in H as [[= -> _]|H]);
      [..|by apply elem_of_nil in H];
      apply (bool_decide_unpack _); vm_compute; exact I.
  - intros H. each_matrix H; eexists; vm_compute; reflexivity.
Qed.

(** Membership in a list of versors that is written out. *)
Ltac versor_in_list := apply (bool_decide_unpack _); vm_compute; exact I.

(** X12: the tables [POSSIBLE_DIRECTIONS] and [RULES] agree.  Both have the
    sixteen matrices of zeros and ones as their keys, and no other.  In
    each of the fourteen cases with a direction to go: the first move (from
    [STILL]) and every move that [RULES] prescribes go along a possible
    direction; every possible direction is prescribed for some versor of
    arrival; and no move goes back along the versor of arrival. *)
Theorem tables_agree :
  (∀ m, is_Some (POSSIBLE_DIRECTIONS !! m) ↔ m ∈ all_matrices) ∧
  (∀ m, is_Some (RULES !! m) ↔ m ∈ all_matrices) ∧
  ∀ m versors rules,
    POSSIBLE_DIRECTIONS !! m = Some versors → RULES !! m = Some rules →
    versors ≠ [] →
    (∃ d, rules !! STILL = Some d ∧ d ∈ versors) ∧
    (∀ d d', rules !! d = Some d' → d' ∈ versors) ∧
    (∀ d', d' ∈ versors → ∃ d, d ≠ STILL ∧ rules !! d = Some d') ∧
    (∀ d d', d ≠ STILL → rules !! d = Some d' → d' ≠ opposite d).
Proof.
  split; [exact possible_directions_keys|]. split; [exact rules_keys|].
  intros m versors rules Hpd Hr Hne.
  apply elem_of_list_to_map_2 in Hpd. apply elem_of_list_to_map_2 in Hr.
  repeat (apply elem_of_cons in Hpd as [[= -> ->]|Hpd]);
    [..|by apply elem_of_nil in Hpd];
    try (exfalso; apply Hne; reflexivity);
    (repeat (apply elem_of_cons in Hr as [[= ->]|Hr]);
     [..|by apply elem_of_nil in Hr]);
    (split; [eexists; split; [vm_compute; reflexivity|versor_in_list]|]);
    (split; [intros d d' H;
             repeat (apply lookup_insert_Some in H as [[<- <-]|[_ H]]);
             [..|by rewrite lookup_empty in H]; versor_in_list|]);
    (split; [intros d' H;
             repeat (apply elem_of_cons in H as [->|H]);
             [..|by apply elem_of_nil in H];
             first [exists LEFT; split; [discriminate|vm_compute; reflexivity]
                   |exists UP; split; [discriminate|vm_compute; reflexivity]
                   |exists RIGHT; split; [discriminate|vm_compute; reflexivity]
                   |exists DOWN; split; [discriminate|vm_compute; reflexivity]]|]);
    intros d d' Hd H;
    repeat (apply lookup_insert_Some in H as [[<- <-]|[_ H]]);
    [..|by rewrite lookup_empty in H];
    first [exfalso; apply Hd; reflexivity|discriminate].
Qed.

(** ** PerimeterTracer: maps that [build] does not take *)

Lemma foldl_build_step_None bm fuel (l : list Vertex2D) :
  foldl (build_step bm fuel) None l = None.
Proof. induction l as [|v l IH]; [done|]. exact IH. Qed.

Lemma build_loop_fails bm fuel v :
  v ∈ get_grid_vertices bm → (∀ st, build_step bm fuel st v = None) →
  build_loop bm fuel = None.
Proof.
  intros Hv Hstep. apply list_elem_of_split in Hv as (l1 & l2 & Hl).
  unfold build_loop. rewrite Hl, foldl_app. cbn [foldl].
  rewrite Hstep. apply foldl_build_step_None.
Qed.

Lemma build_fails bm fuel :
  map bm ≠ ∅ → build_loop bm fuel = None → build bm fuel = None.
Proof.
  intros Hne Hl. unfold build. rewrite decide_False by done. by rewrite Hl.
Qed.

Lemma all_matrices_binary (m : BlockMatrix) :
  m ∈ all_matrices →
  (m.1.1 = 0 ∨ m.1.1 = 1) ∧ (m.1.2 = 0 ∨ m.1.2 = 1) ∧
  (m.2.1 = 0 ∨ m.2.1 = 1) ∧ (m.2.2 = 0 ∨ m.2.2 = 1).
Proof. intros H. each_matrix H; cbn [fst snd]; lia. Qed.

(** X13: maps that make [build] raise.  On a map that is not empty, [build]
    never returns when the size of the boxes is zero and the grid has a
    vertex (ZeroDivisionError in [map_vertex]), nor when one of the four
    boxes around some vertex of the grid holds a value other than [0] and
    [1] (KeyError in [POSSIBLE_DIRECTIONS]). *)
Theorem build_raises (bm : BlocksMap) (v : Vertex2D) (fuel : nat) :
  map bm ≠ ∅ → v ∈ get_grid_vertices bm →
  (box_size bm = 0 ∨
   ∃ v_boxes box,
     vertex2boxes bm v = Some v_boxes ∧
     box ∈ [upleft v_boxes; upright v_boxes; downleft v_boxes; downright v_boxes] ∧
     get0 (map bm) box ≠ 0 ∧ get0 (map bm) box ≠ 1) →
  build bm fuel = None.
Proof.
  intros Hne Hv Hbad. apply build_fails; [exact Hne|].
  apply (build_loop_fails bm fuel v Hv). intros [[tracked ret]|]; [|done].
  unfold build_step. cbn [mbind option_bind].
  destruct Hbad as [Hz|(v_boxes & box & Hvb & Hbox & H0 & H1)].
  - unfold vertex2boxes, map_vertex. by rewrite decide_True.
  - rewrite Hvb. cbn [mbind option_bind].
    destruct (POSSIBLE_DIRECTIONS !! boxes2block_matrix bm v_boxes) as [versors|] eqn:E;
      [|done].
    exfalso.
    assert (Hm : boxes2block_matrix bm v_boxes ∈ all_matrices)
      by (apply possible_directions_keys; by eexists).
    apply all_matrices_binary in Hm. unfold boxes2block_matrix in Hm.
    cbn [fst snd] in Hm.
    repeat (apply elem_of_cons in Hbox as [->|Hbox]);
      [..|by apply elem_of_nil in Hbox]; lia.
Qed.

Lemma build_raises_witness :
  build (mkBlocksMap {[ (0, 0) := 2 ]} (1, 1) 1) 36 = None.
Proof.
  apply (build_raises (mkBlocksMap {[ (0, 0) := 2 ]} (1, 1) 1) (0, 0) 36).
  - apply (bool_decide_unpack _). vm_compute. exact I.
  - apply (bool_decide_unpack _). vm_compute. exact I.
  - right. eexists _, (0, 0). split; [reflexivity|].
    split; [apply (bool_decide_unpack _); vm_compute; exact I|].
    split; vm_compute; discriminate.
Defined.

Lemma get_grid_vertices_first bm :
  1 ≤ (map_size bm).1 → 1 ≤ (map_size bm).2 →
  ∃ rest, get_grid_vertices bm = (0, 0) :: rest.
Proof.
  intros Hw Hh. unfold get_grid_vertices.
  rewrite (seqZ_cons 0 (map_size bm).1) by lia.
  cbn [mbind list_bind]. rewrite (seqZ_cons 0 (map_size bm).2) by lia.
  cbn [mbind list_bind app]. rewrite !Z.mul_0_l. by eexists.
Qed.

(** X14: boxes larger than one unit are not supported.  The walk moves by
    unit versors whatever the size of the boxes.  With boxes of size two or
    more and a block in the top-left box of the grid, the walk that starts
    at the first vertex goes right by one unit, is still at the corner of
    the same box, and finds no rule for arriving there by [RIGHT]
    (KeyError): [build] does not return. *)
Theorem build_box_size_unsupported (bm : BlocksMap) (fuel : nat) :
  2 ≤ box_size bm → 1 ≤ (map_size bm).1 → 1 ≤ (map_size bm).2 →
  map bm !! (0, 0) = Some 1 →
  map bm !! (-1, -1) = None → map bm !! (0, -1) = None →
  map bm !! (-1, 0) = None →
  (∃ v_boxes rules,
     vertex2boxes bm (1, 0) = vertex2boxes bm (0, 0) ∧
     vertex2boxes bm (1, 0) = Some v_boxes ∧
     RULES !! boxes2block_matrix bm v_boxes = Some rules ∧
     rules !! STILL = Some RIGHT ∧ rules !! RIGHT = None) ∧
  build bm fuel = None.
Proof.
  intros Hbs Hw Hh H00 H11 H01 H10.
  assert (Hv0 : vertex2boxes bm (0, 0)
                = Some {| upleft := (-1, -1); upright := (0, -1);
                          downleft := (-1, 0); downright := (0, 0) |}).
  { unfold vertex2boxes, map_vertex. rewrite decide_False by lia.
    cbn [fst snd mbind option_bind]. by rewrite Z.quot_0_l by lia. }
  assert (Hv1 : vertex2boxes bm (1, 0) = vertex2boxes bm (0, 0)).
  { unfold vertex2boxes, map_vertex. rewrite decide_False by lia.
    cbn [fst snd mbind option_bind].
    by rewrite Z.quot_small, Z.quot_0_l by lia. }
  assert (Hm : boxes2block_matrix bm
                 {| upleft := (-1, -1); upright := (0, -1);
                    downleft := (-1, 0); downright := (0, 0) |}
               = ((0, 0), (0, 1))).
  { unfold boxes2block_matrix, get0. cbn [upleft upright downleft downright].
    by rewrite H00, H11, H01, H10. }
  split.
  { eexists _, _. split; [exact Hv1|]. split; [by rewrite Hv1|].
    rewrite Hm. split; [vm_compute; reflexivity|]. split; vm_compute; reflexivity. }
  apply build_fails; [intros E; by rewrite E, lookup_empty in H00|].
  destruct (get_grid_vertices_first bm Hw Hh) as [rest Hg].
  unfold build_loop. rewrite Hg. cbn [foldl].
  enough (build_step bm fuel (Some (∅, [])) (0, 0) = None) as ->
    by apply foldl_build_step_None.
  unfold build_step. cbn [mbind option_bind]. rewrite Hv0.
  cbn [mbind option_bind]. cbv zeta. rewrite Hm.
  change (POSSIBLE_DIRECTIONS !! ((0, 0), (0, 1))) with (Some [RIGHT; DOWN]).
  cbn [mbind option_bind length]. rewrite decide_False by done.
  rewrite decide_False by (intros [[=] _]).
  change (get0 ∅ (0, 0)) with 0. rewrite decide_False by lia.
  destruct fuel as [|[|fuel]]; [done| |].
  - cbn [walk]. rewrite Hv0. cbn [mbind option_bind]. cbv zeta. rewrite Hm.
    change (POSSIBLE_DIRECTIONS !! ((0, 0), (0, 1))) with (Some [RIGHT; DOWN]).
    change (RULES !! ((0, 0), (0, 1)))
      with (Some (list_to_map [(STILL, RIGHT); (UP, RIGHT); (LEFT, DOWN)]
                  : gmap Versor2D Versor2D)).
    cbn [mbind option_bind].
    change (list_to_map [(STILL, RIGHT); (UP, RIGHT); (LEFT, DOWN)] !! STILL)
      with (Some RIGHT).
    cbn [mbind option_bind]. rewrite decide_False by done. done.
  - cbn [walk]. rewrite Hv0. cbn [mbind option_bind]. cbv zeta. rewrite Hm.
    change (POSSIBLE_DIRECTIONS !! ((0, 0), (0, 1))) with (Some [RIGHT; DOWN]).
    change (RULES !! ((0, 0), (0, 1)))
      with (Some (list_to_map [(STILL, RIGHT); (UP, RIGHT); (LEFT, DOWN)]
                  : gmap Versor2D Versor2D)).
    cbn [mbind option_bind].
    change (list_to_map [(STILL, RIGHT); (UP, RIGHT); (LEFT, DOWN)] !! STILL)
      with (Some RIGHT).
    cbn [mbind option_bind]. rewrite decide_False by done.
    change (sum_vectors (0, 0) RIGHT) with (1, 0).
    rewrite Hv1, Hv0. cbn [mbind option_bind]. rewrite Hm.
    change (POSSIBLE_DIRECTIONS !! ((0, 0), (0, 1))) with (Some [RIGHT; DOWN]).
    change (RULES !! ((0, 0), (0, 1)))
      with (Some (list_to_map [(STILL, RIGHT); (UP, RIGHT); (LEFT, DOWN)]
                  : gmap Versor2D Versor2D)).
    cbn [mbind option_bind].
    change (list_to_map [(STILL, RIGHT); (UP, RIGHT); (LEFT, DOWN)] !! RIGHT)
      with (@None Versor2D).
    done.
Qed.

Lemma build_box_size_unsupported_witness :
  (∃ v_boxes rules,
     vertex2boxes (mkBlocksMap {[ (0, 0) := 1 ]} (1, 1) 2) (1, 0)
     = vertex2boxes (mkBlocksMap {[ (0, 0) := 1 ]} (1, 1) 2) (0, 0) ∧
     vertex2boxes (mkBlocksMap {[ (0, 0) := 1 ]} (1, 1) 2) (1, 0) = Some v_boxes ∧
     RULES !! boxes2block_matrix (mkBlocksMap {[ (0, 0) := 1 ]} (1, 1) 2) v_boxes
     = Some rules ∧
     rules !! STILL = Some RIGHT ∧ rules !! RIGHT = None) ∧
  build (mkBlocksMap {[ (0, 0) := 1 ]} (1, 1) 2) 36 = None.
Proof.
  apply (build_box_size_unsupported (mkBlocksMap {[ (0, 0) := 1 ]} (1, 1) 2) 36);
    cbn [box_size map_size map fst snd]; try lia; vm_compute; reflexivity.
Defined.

(** ** GridModel: the vertices of the grid *)

Lemma NoDup_get_grid_vertices (bm : BlocksMap) :
  box_size bm ≠ 0 → NoDup (get_grid_vertices bm).
Proof.
  intros Hbs. unfold get_grid_vertices. apply NoDup_bind.
  - intros x1 x2 v _ _ (y1 & H1 & _)%list_elem_of_bind (y2 & H2 & _)%list_elem_of_bind.
    apply list_elem_of_singleton in H1, H2. subst v.
    injection H2 as H2 _. by apply Z.mul_cancel_r in H2.
  - intros x _. apply NoDup_bind.
    + intros y1 y2 v _ _ H1%list_elem_of_singleton H2%list_elem_of_singleton.
      subst v. injection H2 as H2. by apply Z.mul_cancel_r in H2.
    + intros y _. apply NoDup_singleton.
    + apply NoDup_seqZ.
  - apply NoDup_seqZ.
Qed.

Lemma elem_of_get_grid_vertices (bm : BlocksMap) v :
  v ∈ get_grid_vertices bm
  ↔ ∃ box, 0 ≤ box.1 < (map_size bm).1 ∧ 0 ≤ box.2 < (map_size bm).2 ∧
           v = (box.1 * box_size bm, box.2 * box_size bm).
Proof.
  unfold get_grid_vertices. rewrite list_elem_of_bind. split.
  - intros (bx & (by_ & ->%list_elem_of_singleton & Hy%elem_of_seqZ)%list_elem_of_bind
                 & Hx%elem_of_seqZ).
    exists (bx, by_). cbn [fst snd]. split; [lia|]. split; [lia|]. done.
  - intros ([bx by_] & Hx & Hy & ->). cbn [fst snd] in *.
    exists bx. split; [|apply elem_of_seqZ; lia].
    apply list_elem_of_bind. exists by_.
    split; [apply list_elem_of_singleton; done|apply elem_of_seqZ; lia].
Qed.

(** X15: the vertices that [get_grid_vertices] yields, for boxes of a size
    other than zero.  They are the top-left corners of the boxes of the
    grid, each one once: a vertex is yielded exactly when it is the corner
    [(bx * box_size, by * box_size)] of a box with [0 <= bx < width] and
    [0 <= by < height], and [map_vertex] sends it back to that box.  The
    corners on the right and the bottom border of the grid are not
    yielded. *)
Theorem get_grid_vertices_boxes (bm : BlocksMap) :
  box_size bm ≠ 0 →
  NoDup (get_grid_vertices bm) ∧
  ∀ v, v ∈ get_grid_vertices bm
       ↔ ∃ box, 0 ≤ box.1 < (map_size bm).1 ∧ 0 ≤ box.2 < (map_size bm).2 ∧
                v = (box.1 * box_size bm, box.2 * box_size bm) ∧
                map_vertex bm v = Some box.
Proof.
  intros Hbs. split; [by apply NoDup_get_grid_vertices|].
  intros v. rewrite elem_of_get_grid_vertices. split.
  - intros ([bx by_] & Hx & Hy & ->). exists (bx, by_).
    split; [done|]. split; [done|]. split; [done|].
    unfold map_vertex. rewrite decide_False by done.
    cbn [fst snd]. by rewrite !Z.quot_mul by done.
  - intros (box & Hx & Hy & -> & _). by exists box.
Qed.

Lemma get_grid_vertices_boxes_witness :
  NoDup (get_grid_vertices (mkBlocksMap {[ (0, 0) := 1 ]} (2, 3) 2)) ∧
  ∀ v, v ∈ get_grid_vertices (mkBlocksMap {[ (0, 0) := 1 ]} (2, 3) 2)
       ↔ ∃ box, 0 ≤ box.1 < 2 ∧ 0 ≤ box.2 < 3 ∧
                v = (box.1 * 2, box.2 * 2) ∧
                map_vertex (mkBlocksMap {[ (0, 0) := 1 ]} (2, 3) 2) v = Some box.
Proof.
  apply (get_grid_vertices_boxes (mkBlocksMap {[ (0, 0) := 1 ]} (2, 3) 2)).
  cbn [box_size]. lia.
Defined.

(** ** PerimeterTracer: where the perimeters lie *)

Lemma arrival_on_boundary m d l r :
  m ∈ all_matrices → arrival_sides m d = Some (l, r) → l ≠ r →
  ∃ versors, POSSIBLE_DIRECTIONS !! m = Some versors ∧ versors ≠ [].
Proof.
  intros Hm Hd Hlr. each_matrix Hm; each_versor Hd; vm_compute in Hd;
    injection Hd as <- <-; same_sides Hlr;
    eexists; (split; [vm_compute; reflexivity|discriminate]).
Qed.

Lemma on_wall_boundary bm s :
  unit_blocks bm → on_wall bm s → boundary_vertex bm s.1.
Proof.
  intros Hbm (l & r & Hs & Hlr).
  exact (arrival_on_boundary _ _ _ _ (matrix_at_binary bm s.1 Hbm) Hs Hlr).
Qed.

Lemma boundary_in_grid bm v :
  unit_blocks bm → blocks_in_grid bm → boundary_vertex bm v →
  0 ≤ v.1 ≤ (map_size bm).1 ∧ 0 ≤ v.2 ≤ (map_size bm).2.
Proof.
  intros Hbm Hg (versors & Hv & Hne).
  pose proof (stored_in_grid bm (v.1 - 1, v.2 - 1) Hg) as G00.
  pose proof (stored_in_grid bm (v.1, v.2 - 1) Hg) as G10.
  pose proof (stored_in_grid bm (v.1 - 1, v.2) Hg) as G01.
  pose proof (stored_in_grid bm (v.1, v.2) Hg) as G11.
  cbn [fst snd] in *. unfold matrix_at in Hv.
  destruct (get0_binary bm (v.1 - 1, v.2 - 1) Hbm) as [E00|E00];
    destruct (get0_binary bm (v.1, v.2 - 1) Hbm) as [E10|E10];
    destruct (get0_binary bm (v.1 - 1, v.2) Hbm) as [E01|E01];
    destruct (get0_binary bm (v.1, v.2) Hbm) as [E11|E11];
    try lia.
  exfalso. rewrite E00, E10, E01, E11 in Hv. vm_compute in Hv.
  injection Hv as <-. by apply Hne.
Qed.

Lemma walk_points bm fuel :
  unit_blocks bm →
  ∀ first tracked perim d v d0 tracked' perim',
    on_wall bm (v, d0) →
    rule (matrix_at bm v) d = rule (matrix_at bm v) d0 →
    walk bm fuel first tracked perim d v = Some (tracked', perim') →
    ∀ x, x ∈ perim' → x ∈ perim ∨ ∃ s, on_wall bm s ∧ s.1 = x.
Proof.
  intros Hbm. induction fuel as [|fuel IH];
    intros first tracked perim d v d0 tracked' perim' Hw Hr Hwalk x Hx; [done|].
  destruct (on_wall_step bm (v, d0) Hbm Hw) as (d' & Hr' & He & _).
  cbn [fst snd] in Hr', He. rewrite <- Hr in Hr'.
  rewrite (walk_unfold _ _ _ _ _ _ _ _ Hbm Hr') in Hwalk.
  pose proof (on_wall_step_on_wall bm (v, d0) Hbm Hw) as Hw'. rewrite He in Hw'.
  destruct (decide (sum_vectors v d' = first)) as [_|_].
  - injection Hwalk as _ <-. apply elem_of_app in Hx as [Hx|Hx]; [by left|].
    apply list_elem_of_singleton in Hx as ->. right. by eexists.
  - destruct (IH _ _ _ _ _ d' _ _ Hw' eq_refl Hwalk x Hx) as [Hin|Hon]; [|by right].
    apply elem_of_app in Hin as [Hin|Hin]; [by left|].
    apply list_elem_of_singleton in Hin as ->. right. by eexists.
Qed.

Lemma remove_internal_edge_points_elem vertices ret x :
  remove_internal_edge_points vertices = Some ret → x ∈ ret → x ∈ vertices.
Proof.
  intros Hr Hx. destruct vertices as [|a [|b tl]]; [done| |].
  - cbn in Hr. injection Hr as <-.
    apply elem_of_cons in Hx as [->|Hx]; [apply list_elem_of_here|done].
  - remember (b :: tl) as tl' eqn:Etl.
    destruct (remove_internal_edge_points_ends (a :: tl')) as (f & l & Hf & Hl & E);
      [subst tl'; cbn [length]; lia|].
    rewrite E in Hr. injection Hr as <-. injection Hf as <-.
    apply elem_of_cons in Hx as [->|Hx]; [apply list_elem_of_here|].
    apply list_elem_of_further, (elem_of_sublist _ _ _ Hx).
    apply corner_points_sublist; [exact Hl|by subst tl'].
Qed.

Lemma build_step_points bm fuel tracked ret v tracked' ret' :
  unit_blocks bm →
  build_step bm fuel (Some (tracked, ret)) v = Some (tracked', ret') →
  Forall (Forall (boundary_vertex bm)) ret →
  Forall (Forall (boundary_vertex bm)) ret'.
Proof.
  intros Hbm Hstep Hret. unfold build_step in Hstep.
  cbn [mbind option_bind] in Hstep.
  destruct (vertex2boxes_matrix_at bm v (proj1 Hbm)) as (boxes & Hb & Hm).
  rewrite Hb in Hstep. cbn [mbind option_bind] in Hstep. cbv zeta in Hstep.
  rewrite Hm in Hstep.
  destruct (POSSIBLE_DIRECTIONS !! matrix_at bm v) as [versors|] eqn:Ev; [|done].
  cbn [mbind option_bind] in Hstep.
  destruct (decide (length versors = 0%nat)) as [_|Hlen];
    [by injection Hstep as _ <-|].
  destruct (decide _) as [_|_]; [by injection Hstep as _ <-|].
  destruct (decide _) as [_|_]; [by injection Hstep as _ <-|].
  assert (Hbv : boundary_vertex bm v).
  { exists versors. split; [done|]. by intros ->. }
  destruct (walk bm fuel v tracked [v] STILL v) as [[tracked1 perim]|] eqn:Ew;
    [|done].
  cbn [mbind option_bind] in Hstep.
  destruct (remove_internal_edge_points perim) as [perim1|] eqn:E1; [|done].
  cbn [mbind option_bind] in Hstep.
  destruct (normalized_perimeter perim1) as [perim2|] eqn:E2; [|done].
  cbn [mbind option_bind] in Hstep. injection Hstep as _ <-.
  apply Forall_app. split; [exact Hret|]. apply Forall_singleton, Forall_forall.
  intros x Hx.
  destruct (normalized_perimeter_ends _ _ E2) as (_ & _ & _ & _ & Hsub).
  apply Hsub in Hx. apply (remove_internal_edge_points_elem _ _ _ E1) in Hx.
  destruct Hbv as (vs & Hvs & Hne).
  destruct (rule_still _ vs (matrix_at_binary bm v Hbm) Hvs Hne)
    as (d0 & d1 & l & r & Ha & Hlr & Hr0 & Hrs).
  assert (Hw : on_wall bm (v, d0)) by (by exists l, r).
  destruct (walk_points bm fuel Hbm v tracked [v] STILL v d0 _ _ Hw
              ltac:(by rewrite Hrs, Hr0) Ew x Hx) as [Hin|(s & Hs & <-)].
  - apply list_elem_of_singleton in Hin as ->. by exists vs.
  - by apply on_wall_boundary.
Qed.

Lemma build_loop_points bm fuel vertices st tracked' ret' :
  unit_blocks bm →
  foldl (build_step bm fuel) st vertices = Some (tracked', ret') →
  (∀ tracked ret, st = Some (tracked, ret) →
                  Forall (Forall (boundary_vertex bm)) ret) →
  Forall (Forall (boundary_vertex bm)) ret'.
Proof.
  intros Hbm. revert st. induction vertices as [|v vertices IH]; intros st Hf Hst.
  - by apply (Hst tracked').
  - cbn [foldl] in Hf. apply (IH _ Hf). intros tracked1 ret1 E.
    destruct st as [[tracked ret]|]; [|done].
    apply (build_step_points bm fuel tracked ret v tracked1 ret1 Hbm E).
    by apply (Hst tracked).
Qed.

(** X16: where the perimeters lie.  On a map of unit blocks that lie in the
    grid, [build] returns, and every point of every perimeter it returns is
    a vertex of the boundary (its four boxes are neither all blocks nor all
    free) inside the rectangle of the grid, borders included. *)
Theorem build_perimeters_in_grid (bm : BlocksMap) (fuel : nat) :
  unit_blocks bm → blocks_in_grid bm →
  (length (wall_states bm) ≤ fuel)%nat →
  ∃ ret,
    build bm fuel = Some ret ∧
    ∀ p v, p ∈ ret → v ∈ p →
           boundary_vertex bm v ∧
           0 ≤ v.1 ≤ (map_size bm).1 ∧ 0 ≤ v.2 ≤ (map_size bm).2.
Proof.
  intros Hbm Hg Hfuel.
  destruct (build_returns_closed bm fuel Hbm Hfuel) as (ret & Hret & _).
  exists ret. split; [exact Hret|]. intros p v Hp Hv.
  enough (Hb : boundary_vertex bm v) by (split; [done|by apply boundary_in_grid]).
  unfold build in Hret. destruct (decide (map bm = ∅)) as [_|_].
  { injection Hret as <-. by apply elem_of_nil in Hp. }
  destruct (build_loop bm fuel) as [[tracked found]|] eqn:El; [|done].
  cbn in Hret. injection Hret as <-. rewrite sorted_Permutation in Hp.
  assert (Hall : Forall (Forall (boundary_vertex bm)) found).
  { apply (build_loop_points bm fuel (get_grid_vertices bm) (Some (∅, []))
             tracked found Hbm El).
    intros ? ? [= <- <-]. constructor. }
  exact (proj1 (Forall_forall _ p) (proj1 (Forall_forall _ found) Hall p Hp) v Hv).
Qed.

Lemma build_perimeters_in_grid_witness :
  ∃ ret,
    build (mkBlocksMap (<[(1, 0) := 1]> {[ (0, 1) := 1 ]}) (2, 2) 1) 100 = Some ret ∧
    ∀ p v, p ∈ ret → v ∈ p →
           boundary_vertex (mkBlocksMap (<[(1, 0) := 1]> {[ (0, 1) := 1 ]}) (2, 2) 1) v ∧
           0 ≤ v.1 ≤ 2 ∧ 0 ≤ v.2 ≤ 2.
Proof.
  apply (build_perimeters_in_grid
           (mkBlocksMap (<[(1, 0) := 1]> {[ (0, 1) := 1 ]}) (2, 2) 1) 100).
  - split; [reflexivity|]. apply (bool_decide_unpack _). vm_compute. exact I.
  - apply (bool_decide_unpack _). vm_compute. exact I.
  - vm_compute. lia.
Defined.

(** ** PerimeterTracer: a map with a block has a perimeter *)

Lemma topmost_block bm x (n : nat) :
  unit_blocks bm → blocks_in_grid bm →
  get0 (map bm) (x, Z.of_nat n) ≠ 0 →
  ∃ y, 0 ≤ y ≤ Z.of_nat n ∧ get0 (map bm) (x, y) = 1 ∧ get0 (map bm) (x, y - 1) = 0.
Proof.
  intros Hbm Hg. induction n as [|n IH]; intros Hn.
  - exists 0. split; [lia|].
    destruct (get0_binary bm (x, Z.of_nat 0) Hbm) as [E|E]; [done|].
    split; [exact E|].
    destruct (get0_binary bm (x, 0 - 1) Hbm) as [E'|E']; [done|].
    assert (H : get0 (map bm) (x, 0 - 1) ≠ 0) by lia.
    apply (stored_in_grid bm _ Hg) in H. cbn [fst snd] in H. lia.
  - destruct (get0_binary bm (x, Z.of_nat (S n)) Hbm) as [E|E]; [done|].
    destruct (get0_binary bm (x, Z.of_nat (S n) - 1) Hbm) as [E'|E'].
    + exists (Z.of_nat (S n)). split; [lia|]. done.
    + destruct IH as (y & Hy & H1 & H0).
      { replace (Z.of_nat n) with (Z.of_nat (S n) - 1) by lia. lia. }
      exists y. split; [lia|]. done.
Qed.

Lemma block_corner_boundary bm x y :
  unit_blocks bm →
  get0 (map bm) (x, y) = 1 → get0 (map bm) (x, y - 1) = 0 →
  boundary_vertex bm (x, y).
Proof.
  intros Hbm H1 H0. unfold boundary_vertex, matrix_at. cbn [fst snd].
  rewrite H1, H0.
  destruct (get0_binary bm (x - 1, y - 1) Hbm) as [-> | ->];
    destruct (get0_binary bm (x - 1, y) Hbm) as [-> | ->];
    eexists; (split; [vm_compute; reflexivity|discriminate]).
Qed.

Lemma elem_of_unit_grid bm x y :
  box_size bm = 1 → 0 ≤ x < (map_size bm).1 → 0 ≤ y < (map_size bm).2 →
  (x, y) ∈ get_grid_vertices bm.
Proof.
  intros Hbs Hx Hy. unfold get_grid_vertices. rewrite Hbs.
  apply list_elem_of_bind. exists x. split; [|apply elem_of_seqZ; lia].
  apply list_elem_of_bind. exists y. split; [|apply elem_of_seqZ; lia].
  rewrite !Z.mul_1_r. apply list_elem_of_here.
Qed.

Lemma first_boundary_vertex bm (l : list Vertex2D) v :
  unit_blocks bm → v ∈ l → boundary_vertex bm v →
  ∃ l1 w l2, l = l1 ++ w :: l2 ∧ boundary_vertex bm w ∧
             Forall (λ u, ¬ boundary_vertex bm u) l1.
Proof.
  intros Hbm. induction l as [|a l IH]; intros Hv Hb; [by apply elem_of_nil in Hv|].
  assert (Hdec : boundary_vertex bm a ∨ ¬ boundary_vertex bm a).
  { destruct (possible_directions_departures _ (matrix_at_binary bm a Hbm))
      as (versors & Ha & _).
    destruct (decide (versors = [])) as [->|Hne].
    - right. intros (vs & Hvs & Hne). congruence.
    - left. by exists versors. }
  destruct Hdec as [Ha|Ha].
  - exists [], a, l. split; [done|]. split; [done|]. constructor.
  - apply elem_of_cons in Hv as [->|Hv]; [done|].
    destruct (IH Hv Hb) as (l1 & w & l2 & -> & Hw & Hl1).
    exists (a :: l1), w, l2. split; [done|]. split; [done|]. by constructor.
Qed.

Lemma build_loop_off_boundary bm fuel (l : list Vertex2D) tracked ret :
  unit_blocks bm → Forall (λ u, ¬ boundary_vertex bm u) l →
  foldl (build_step bm fuel) (Some (tracked, ret)) l = Some (tracked, ret).
Proof.
  intros Hbm Hl. induction Hl as [|u l Hu _ IH]; [done|].
  cbn [foldl]. rewrite build_step_skipped; [exact IH|exact Hbm|by left].
Qed.

Lemma build_loop_grows bm fuel vertices tracked ret :
  unit_blocks bm → (length (wall_states bm) ≤ fuel)%nat →
  ∃ tracked' ret',
    foldl (build_step bm fuel) (Some (tracked, ret)) vertices
    = Some (tracked', ret') ∧
    (length ret ≤ length ret')%nat.
Proof.
  intros Hbm Hfuel. revert tracked ret.
  induction vertices as [|v vertices IH]; intros tracked ret; cbn [foldl].
  { by exists tracked, ret. }
  destruct (skipped_or_not bm tracked v Hbm) as [Hskip|Hskip].
  - rewrite build_step_skipped by done. by apply IH.
  - destruct (build_step_walked bm fuel tracked ret v Hbm Hskip Hfuel)
      as (s0 & k & p & _ & _ & _ & _ & _ & _ & Hp & ->).
    destruct (IH (add_passes bm tracked (trail bm k (step bm s0))) (ret ++ [p]))
      as (tracked' & ret' & E & Hlen).
    exists tracked', ret'. split; [exact E|].
    rewrite length_app in Hlen. cbn [length] in Hlen. lia.
Qed.

Lemma build_some_perimeter (bm : BlocksMap) (fuel : nat) :
  unit_blocks bm → blocks_in_grid bm →
  (length (wall_states bm) ≤ fuel)%nat →
  map bm ≠ ∅ → build bm fuel ≠ Some [].
Proof.
  intros Hbm Hg Hfuel Hne Hb.
  destruct (map_choose _ Hne) as ([x y] & val & Hxy).
  assert (H0 : get0 (map bm) (x, y) ≠ 0).
  { unfold get0. rewrite Hxy. cbn. by rewrite (proj2 Hbm _ _ Hxy). }
  destruct (stored_in_grid bm _ Hg H0) as [Hx Hy]. cbn [fst snd] in Hx, Hy.
  destruct (topmost_block bm x (Z.to_nat y) Hbm Hg) as (y' & Hy' & H1 & H0').
  { by rewrite Z2Nat.id by lia. }
  pose proof (block_corner_boundary bm x y' Hbm H1 H0') as Hbv.
  assert (Hin : (x, y') ∈ get_grid_vertices bm)
    by (apply elem_of_unit_grid; [exact (proj1 Hbm)|lia..]).
  destruct (first_boundary_vertex bm _ _ Hbm Hin Hbv) as (l1 & w & l2 & Hl & Hw & Hl1).
  unfold build in Hb. rewrite decide_False in Hb by done.
  unfold build_loop in Hb. rewrite Hl, foldl_app in Hb.
  rewrite (build_loop_off_boundary bm fuel l1 ∅ [] Hbm Hl1) in Hb.
  cbn [foldl] in Hb.
  assert (Hns : ¬ skipped bm ∅ w).
  { intros [Hs|[[_ Hs]|[_ Hs]]]; [done|..]; change (get0 ∅ w) with 0 in Hs; lia. }
  destruct (build_step_walked bm fuel ∅ [] w Hbm Hns Hfuel)
    as (s0 & k & p & _ & _ & _ & _ & _ & _ & _ & Hstep).
  rewrite Hstep in Hb.
  destruct (build_loop_grows bm fuel l2
              (add_passes bm ∅ (trail bm k (step bm s0))) ([] ++ [p]) Hbm Hfuel)
    as (tracked' & ret' & E & Hlen).
  rewrite E in Hb. cbn [mbind option_bind] in Hb. injection Hb as Hb.
  apply (f_equal length) in Hb. rewrite sorted_Permutation in Hb.
  cbn [length app] in Hb, Hlen. lia.
Qed.

(** X17: on a map of unit blocks that lie in the grid, [build] returns a
    list of perimeters (it does not raise, and enough fuel is enough), and
    this list is empty exactly when the map has no block: for every map with
    a block [build] returns at least one perimeter. *)
Theorem build_no_perimeter (bm : BlocksMap) (fuel : nat) :
  unit_blocks bm → blocks_in_grid bm →
  (length (wall_states bm) ≤ fuel)%nat →
  ∃ ret, build bm fuel = Some ret ∧ (ret = [] ↔ map bm = ∅).
Proof.
  intros Hbm Hg Hfuel.
  destruct (build_returns_closed bm fuel Hbm Hfuel) as (ret & Hret & _).
  exists ret. split; [exact Hret|]. split.
  - intros ->. destruct (decide (map bm = ∅)) as [E|Hne]; [exact E|].
    by destruct (build_some_perimeter bm fuel Hbm Hg Hfuel Hne).
  - intros E. unfold build in Hret. rewrite decide_True in Hret by exact E.
    congruence.
Qed.

Lemma build_no_perimeter_witness :
  ∃ ret, build (mkBlocksMap {[ (0, 0) := 1 ]} (1, 1) 1) 36 = Some ret ∧
    (ret = [] ↔ map (mkBlocksMap {[ (0, 0) := 1 ]} (1, 1) 1) = ∅).
Proof.
  apply (build_no_perimeter (mkBlocksMap {[ (0, 0) := 1 ]} (1, 1) 1) 36).
  - split; [reflexivity|]. apply (bool_decide_unpack _). vm_compute. exact I.
  - apply (bool_decide_unpack _). vm_compute. exact I.
  - vm_compute. lia.
Defined.

(** ** ImageLoader: the matrix of an image *)

Lemma pixel_walkable_fits mode pixel :
  is_Some (pixel_walkable mode pixel) ↔ pixel_fits mode pixel.
Proof.
  unfold pixel_walkable, pixel_fits.
  destruct (decide (mode = "P"%string)) as [HP|HP], pixel as [n|bands].
  - split; [done|by eexists].
  - split; [by intros [? ?]|by intros [? _]].
  - split; [by intros [? ?]|done].
  - destruct (decide (mode = "RGBA"%string)) as [HR|HR].
    + split.
      * intros [w Hw]. split; [done|]. intros _.
        destruct (bands !! 3%nat) as [alpha|] eqn:E; [|done].
        apply lookup_lt_Some in E. lia.
      * intros [_ Hlen].
        destruct (lookup_lt_is_Some_2 bands 3%nat) as [alpha ->]; [by apply Hlen|].
        by eexists.
    + split; [done|by eexists].
Qed.

Lemma pixel_walkable_binary mode pixel w :
  pixel_walkable mode pixel = Some w → w = 0 ∨ w = 1.
Proof.
  unfold pixel_walkable. intros H.
  assert (Hb : ∀ b : bool, Z.b2z b = 0 ∨ Z.b2z b = 1) by (intros []; auto).
  repeat case_decide; destruct pixel as [n|bands]; try done.
  - injection H as <-. apply Hb.
  - destruct (bands !! 3%nat); [|done]. injection H as <-. apply Hb.
  - injection H as <-. apply Hb.
Qed.

Lemma load_png_rows img matrix :
  load_png img = Some matrix →
  length matrix = Z.to_nat (height img) ∧
  ∀ row, row ∈ matrix →
         length row = Z.to_nat (width img) ∧ ∀ w, w ∈ row → w = 0 ∨ w = 1.
Proof.
  unfold load_png. intros H. split.
  - apply length_mapM in H. by rewrite <- H, length_seqZ.
  - intros row Hrow. apply mapM_Some in H.
    apply list_elem_of_lookup in Hrow as [j Hj].
    destruct (Forall2_lookup_r _ _ _ _ _ H Hj) as (y & _ & Hy).
    split.
    + apply length_mapM in Hy. by rewrite <- Hy, length_seqZ.
    + intros w Hw. apply mapM_Some in Hy.
      apply list_elem_of_lookup in Hw as [i Hi].
      destruct (Forall2_lookup_r _ _ _ _ _ Hy Hi) as (x & _ & Hx).
      by apply pixel_walkable_binary in Hx.
Qed.

Lemma load_png_is_Some img : is_Some (load_png img) ↔ pixels_fit img.
Proof.
  unfold load_png, pixels_fit. rewrite mapM_is_Some, Forall_forall.
  unfold compose. split.
  - intros H x y Hx Hy. apply pixel_walkable_fits.
    assert (Hrow : is_Some (mapM (λ x, pixel_walkable (mode img) (getpixel img (x, y)))
                                 (seqZ 0 (width img))))
      by (apply H, elem_of_seqZ; lia).
    rewrite mapM_is_Some, Forall_forall in Hrow. unfold compose in Hrow.
    apply Hrow, elem_of_seqZ. lia.
  - intros H y Hy%elem_of_seqZ. rewrite mapM_is_Some, Forall_forall.
    unfold compose. intros x Hx%elem_of_seqZ. apply pixel_walkable_fits, H; lia.
Qed.

(** X18: the matrix of an image.  [load_png] returns exactly when every
    pixel is of the kind that the mode of the image calls for (it raises
    TypeError on a tuple in mode [P] and on a number in any other mode, and
    IndexError on fewer than four bands in mode [RGBA]).  The matrix it
    returns has one row for each line of the image, every row as long as
    the image is wide, and holds only [0] and [1]; for an image with a pixel,
    [mat2map] then makes a map of unit blocks, of the size of the image, with
    every block in the grid. *)
Theorem load_png_matrix (img : Image) :
  (is_Some (load_png img) ↔ pixels_fit img) ∧
  ∀ matrix,
    load_png img = Some matrix →
    length matrix = Z.to_nat (height img) ∧
    (∀ row, row ∈ matrix →
            length row = Z.to_nat (width img) ∧ ∀ w, w ∈ row → w = 0 ∨ w = 1) ∧
    (1 ≤ width img → 1 ≤ height img →
     ∃ bm, mat2map matrix = Some bm ∧
           map_size bm = (width img, height img) ∧
           unit_blocks bm ∧ blocks_in_grid bm).
Proof.
  split; [apply load_png_is_Some|]. intros matrix Hm.
  destruct (load_png_rows img matrix Hm) as [Hlen Hrows].
  split; [exact Hlen|]. split; [exact Hrows|]. intros Hw Hh.
  destruct (exists_last (l := matrix)) as (pre & row & ->).
  { intros ->. cbn in Hlen. lia. }
  assert (Hrow : length row = Z.to_nat (width img)).
  { apply Hrows, elem_of_app. right. apply list_elem_of_here. }
  destruct (mat2map_last_row pre [] row) as (bm & E & Hs & Hu & Hg & _).
  { intros ->. cbn in Hrow. lia. }
  { constructor. }
  cbn [app] in E, Hs, Hg. exists bm. split; [exact E|].
  split; [rewrite Hs, Hrow, Hlen; f_equal; lia|]. split; [exact Hu|].
  apply Hg. intros r Hr. apply Hrows in Hr as [Hr _]. lia.
Qed.

Lemma load_png_matrix_witness :
  length [[0; 1]] = Z.to_nat 1 ∧
  (∀ row, row ∈ [[0; 1]] →
          length row = Z.to_nat 2 ∧ ∀ w, w ∈ row → w = 0 ∨ w = 1) ∧
  (1 ≤ 2 → 1 ≤ 1 →
   ∃ bm, mat2map [[0; 1]] = Some bm ∧
         map_size bm = (2, 1) ∧ unit_blocks bm ∧ blocks_in_grid bm).
Proof.
  apply (proj2 (load_png_matrix
                  (mkImage "RGBA" 2 1
                     (λ xy, if decide (xy = (0, 0))
                            then PixelBands [0; 0; 0; 255]
                            else PixelBands [255; 255; 255; 255])))
               [[0; 1]]).
  reflexivity.
Defined.

(** ** From the matrix to the triangulation *)

Lemma mat2map_unit_blocks (matrix : WalkableMatrix) :
  (∃ row, row ∈ matrix ∧ row ≠ []) →
  ∃ bm, mat2map matrix = Some bm ∧ unit_blocks bm.
Proof.
  intros Hrow. destruct (mat2map_rows_spec matrix) as (ret & x & Hrows & Hx & Hret).
  apply Hx in Hrow as Hsome. destruct Hsome as [x' ->].
  destruct matrix as [|row0 matrix0].
  { destruct Hrow as (r & Hr & _). by apply elem_of_nil in Hr. }
  unfold mat2map. rewrite Hrows. cbn [mbind option_bind].
  eexists. split; [reflexivity|]. split; [reflexivity|].
  intros box v Hv. by apply Hret in Hv as [-> _].
Qed.

(** X19: the walls that [matrix2obj] traces always pass the assertions of
    [triangulate_walls].  For every matrix with an entry, rectangular or
    not, the map is built, its walls are traced, and [triangulate_walls] on
    these walls and the holes of the matrix does not raise: it returns the
    empty list when there is no wall, and otherwise exports its dictionary
    and calls the library. *)
Theorem matrix2obj_walls_triangulate (matrix : WalkableMatrix) (fuel : nat) :
  (∃ row, row ∈ matrix ∧ row ≠ []) →
  ∃ bm,
    mat2map matrix = Some bm ∧
    ((length (wall_states bm) ≤ fuel)%nat →
     ∃ wall_perimeters,
       matrix2obj_wall_perimeters fuel matrix = Some wall_perimeters ∧
       Forall closed_perimeter wall_perimeters ∧
       match triangulate_walls wall_perimeters (matrix2holes matrix) with
       | Return triangles => wall_perimeters = [] ∧ triangles = []
       | DumpDict dic (CallTriangulate dic' _) =>
           wall_perimeters ≠ [] ∧ dic' = dic ∧
           dict_vertices dic = wall_perimeters_to_unique_vertices wall_perimeters
       | _ => False
       end).
Proof.
  intros Hrow. destruct (mat2map_unit_blocks matrix Hrow) as (bm & Hm & Hbm).
  exists bm. split; [exact Hm|]. intros Hfuel.
  destruct (build_returns_closed bm fuel Hbm Hfuel) as (ret & Hret & Hclosed).
  exists (sorted perimeter_leb ret). split.
  { unfold matrix2obj_wall_perimeters. rewrite Hm. cbn [mbind option_bind].
    by rewrite Hret. }
  assert (Hall : Forall closed_perimeter (sorted perimeter_leb ret)).
  { apply Forall_forall. intros p Hp. rewrite sorted_Permutation in Hp.
    by apply Hclosed. }
  split; [exact Hall|].
  destruct (triangulate_walls_closed _ (matrix2holes matrix) Hall)
    as (segments & _ & ->).
  destruct (sorted perimeter_leb ret) as [|w walls]; [done|].
  split; [done|]. split; reflexivity.
Qed.

Lemma matrix2obj_walls_triangulate_witness :
  ∃ bm,
    mat2map [[1; 0]; [0; 1]] = Some bm ∧
    ((length (wall_states bm) ≤ 100)%nat →
     ∃ wall_perimeters,
       matrix2obj_wall_perimeters 100 [[1; 0]; [0; 1]] = Some wall_perimeters ∧
       Forall closed_perimeter wall_perimeters ∧
       match triangulate_walls wall_perimeters (matrix2holes [[1; 0]; [0; 1]]) with
       | Return triangles => wall_perimeters = [] ∧ triangles = []
       | DumpDict dic (CallTriangulate dic' _) =>
           wall_perimeters ≠ [] ∧ dic' = dic ∧
           dict_vertices dic = wall_perimeters_to_unique_vertices wall_perimeters
       | _ => False
       end).
Proof.
  apply (matrix2obj_walls_triangulate [[1; 0]; [0; 1]] 100).
  exists [1; 0]. split; [apply list_elem_of_here|discriminate].
Defined.

(** ** PerimeterTracer: the edges of the perimeters *)

Lemma chain_nil {A} (R : A → A → Prop) : chain R [].
Proof. intros i a b H. by rewrite lookup_nil in H. Qed.

Lemma chain_singleton {A} (R : A → A → Prop) x : chain R [x].
Proof. intros i a b _ H. by rewrite lookup_cons_ne_0, lookup_nil in H. Qed.

Lemma chain_cons {A} (R : A → A → Prop) a b l :
  chain R (a :: b :: l) ↔ R a b ∧ chain R (b :: l).
Proof.
  split.
  - intros H. split; [by apply (H 0%nat)|].
    intros i x y Hx Hy. by apply (H (S i)).
  - intros [Hab H] [|i] x y Hx Hy.
    + cbn in Hx, Hy. by injection Hx as <-; injection Hy as <-.
    + by apply (H i).
Qed.

Lemma chain_app {A} (R : A → A → Prop) l1 l2 :
  chain R (l1 ++ l2)
  ↔ chain R l1 ∧ chain R l2 ∧
    ∀ a b, last l1 = Some a → head l2 = Some b → R a b.
Proof.
  induction l1 as [|x [|y l1] IH].
  - cbn [app]. split; [|tauto]. intros H.
    split; [apply chain_nil|]. split; [done|]. done.
  - cbn [app]. destruct l2 as [|b l2].
    + split; [|intros _; apply chain_singleton]. intros H.
      split; [done|]. split; [apply chain_nil|]. done.
    + rewrite chain_cons. split.
      * intros [Hxb H]. split; [apply chain_singleton|]. split; [done|].
        by intros ? ? [= <-] [= <-].
      * intros (_ & H & Hj). split; [by apply Hj|done].
  - change ((x :: y :: l1) ++ l2) with (x :: (y :: l1) ++ l2).
    change ((y :: l1) ++ l2) with (y :: l1 ++ l2) at 1.
    rewrite !chain_cons. change (y :: l1 ++ l2) with ((y :: l1) ++ l2).
    rewrite IH. change (last (x :: y :: l1)) with (last (y :: l1)). tauto.
Qed.

Lemma chain_impl {A} (R R' : A → A → Prop) l :
  (∀ a b, R a b → R' a b) → chain R l → chain R' l.
Proof. intros HR H i a b Ha Hb. by apply HR, (H i). Qed.

Lemma versor_axis_step (a : Vertex2D) (d : Versor2D) (n : Z) :
  d ∈ all_versors → 1 ≤ n → axis_step a (a.1 + n * d.1, a.2 + n * d.2).
Proof.
  intros Hd Hn. unfold all_versors, LEFT, UP, RIGHT, DOWN in Hd.
  unfold axis_step. cbn [fst snd].
  repeat (apply elem_of_cons in Hd as [->|Hd]); [..|by apply elem_of_nil in Hd];
    cbn [fst snd]; lia.
Qed.

Lemma unit_step_versor (a b : Vertex2D) :
  unit_step a b → ∃ d, d ∈ all_versors ∧ b = sum_vectors a d.
Proof.
  intros H. exists (b.1 - a.1, b.2 - a.2). split; [exact H|].
  destruct a, b. unfold sum_vectors. cbn [fst snd]. f_equal; lia.
Qed.

Lemma unit_step_sum (a : Vertex2D) (d : Versor2D) :
  d ∈ all_versors → unit_step a (sum_vectors a d).
Proof.
  intros Hd. unfold unit_step, sum_vectors. cbn [fst snd].
  replace (a.1 + d.1 - a.1, a.2 + d.2 - a.2) with d; [done|].
  destruct d. cbn [fst snd]. f_equal; lia.
Qed.

(** The points kept by [remove_internal_edge_points], seen from the last
    point kept, [a0]: the point [x] under the window is [a0] itself, or lies
    some steps [d] further and is followed by one more step [d]. *)
Lemma corner_points_rectilinear tl :
  ∀ a0 x final,
    chain unit_step (x :: tl) → tl ≠ [] → last (x :: tl) = Some final →
    (x = a0 ∨
     ∃ d n, d ∈ all_versors ∧ 1 ≤ n ∧ x = (a0.1 + n * d.1, a0.2 + n * d.2) ∧
            head tl = Some (sum_vectors x d)) →
    chain axis_step (a0 :: corner_points (x :: tl) ++ [final]).
Proof.
  induction tl as [|b [|c rest] IH]; intros a0 x final Hc Hne Hl Hx; [done| |].
  - cbn in Hl. injection Hl as <-. cbn [corner_points app].
    apply chain_cons. split; [|apply chain_singleton].
    apply chain_cons in Hc as [Hxb _].
    destruct Hx as [->|(d & n & Hd & Hn & -> & [= ->])].
    + destruct (unit_step_versor _ _ Hxb) as (d & Hd & ->).
      pose proof (versor_axis_step a0 d 1 Hd ltac:(lia)) as H.
      unfold sum_vectors. by rewrite !Z.mul_1_l in H.
    + pose proof (versor_axis_step a0 d (n + 1) Hd ltac:(lia)) as H.
      unfold sum_vectors. cbn [fst snd].
      replace (a0.1 + n * d.1 + d.1) with (a0.1 + (n + 1) * d.1) by lia.
      by replace (a0.2 + n * d.2 + d.2) with (a0.2 + (n + 1) * d.2) by lia.
  - apply chain_cons in Hc as [Hxb Hc].
    assert (Hl' : last (b :: c :: rest) = Some final) by exact Hl.
    assert (Hab : axis_step a0 b ∧
                  ∃ d n, d ∈ all_versors ∧ 1 ≤ n ∧
                         b = (a0.1 + n * d.1, a0.2 + n * d.2) ∧
                         (b.1 - x.1, b.2 - x.2) = d).
    { destruct Hx as [->|(d & n & Hd & Hn & -> & [= ->])].
      - destruct (unit_step_versor _ _ Hxb) as (d & Hd & ->).
        pose proof (versor_axis_step a0 d 1 Hd ltac:(lia)) as H.
        rewrite !Z.mul_1_l in H. split; [exact H|].
        exists d, 1. split; [done|]. split; [lia|]. unfold sum_vectors.
        cbn [fst snd]. rewrite !Z.mul_1_l. split; [done|].
        destruct d. cbn [fst snd]. f_equal; lia.
      - pose proof (versor_axis_step a0 d (n + 1) Hd ltac:(lia)) as H.
        unfold sum_vectors. cbn [fst snd].
        replace (a0.1 + n * d.1 + d.1) with (a0.1 + (n + 1) * d.1) by lia.
        replace (a0.2 + n * d.2 + d.2) with (a0.2 + (n + 1) * d.2) by lia.
        split; [exact H|]. exists d, (n + 1).
        split; [done|]. split; [lia|]. split; [done|].
        destruct d. cbn [fst snd]. f_equal; lia. }
    destruct Hab as (Hstep & d & n & Hd & Hn & Hb & Hdx).
    cbn [corner_points]. destruct (decide _) as [Heq|Hneq].
    + apply IH; [exact Hc|done|exact Hl'|]. right.
      exists d, n. split; [done|]. split; [done|]. split; [done|].
      cbn [head]. f_equal. rewrite Hdx in Heq. rewrite Heq.
      destruct b, c. unfold sum_vectors. cbn [fst snd]. f_equal; lia.
    + change ((b :: corner_points (b :: c :: rest)) ++ [final])
        with (b :: corner_points (b :: c :: rest) ++ [final]).
      apply chain_cons. split; [exact Hstep|].
      apply IH; [exact Hc|done|exact Hl'|]. by left.
Qed.

Lemma dedup_runs_chain (R : Vertex2D → Vertex2D → Prop) l :
  chain (λ a b, a = b ∨ R a b) l → chain R (dedup_runs l).
Proof.
  induction l as [|a [|b tl] IH]; intros H.
  - apply chain_nil.
  - apply chain_singleton.
  - apply chain_cons in H as [Hab H]. destruct (decide (a = b)) as [->|Hne].
    + rewrite dedup_runs_cons_eq. by apply IH.
    + rewrite (dedup_runs_cons_ne a b) by done.
      specialize (IH H). destruct Hab as [?|Hab]; [done|].
      destruct (dedup_runs (b :: tl)) as [|b' tl'] eqn:E.
      * apply chain_singleton.
      * apply chain_cons. split; [|exact IH].
        assert (Hh : head (dedup_runs (b :: tl)) = Some b)
          by (by rewrite head_dedup_runs).
        rewrite E in Hh. cbn in Hh. by injection Hh as ->.
Qed.

(** A closed list read from another starting point and closed again. *)
Lemma chain_rotate (R : Vertex2D → Vertex2D → Prop) p1 p2 m :
  chain R (p1 ++ p2) → head (p1 ++ p2) = last (p1 ++ p2) →
  head (p2 ++ p1) = Some m →
  chain (λ a b, a = b ∨ R a b) (p2 ++ p1 ++ [m]).
Proof.
  intros Hc Hclosed Hm.
  apply chain_app in Hc as (H1 & H2 & H12).
  apply chain_app. split; [by eapply chain_impl; [|exact H2]; auto|].
  split.
  - apply chain_app. split; [by eapply chain_impl; [|exact H1]; auto|].
    split; [apply chain_singleton|].
    intros a b Ha [= <-]. destruct p2 as [|y p2].
    + left. rewrite app_nil_r in Hclosed. cbn [app] in Hm. congruence.
    + right. cbn in Hm. injection Hm as <-. by apply H12.
  - intros a b Ha Hb. left. destruct p2 as [|y p2]; [done|].
    assert (Hl : last (p1 ++ y :: p2) = Some a).
    { rewrite last_app. by rewrite Ha. }
    destruct p1 as [|x p1].
    + cbn [app head] in *. congruence.
    + cbn [app head] in *. congruence.
Qed.

Lemma walk_unit_path bm fuel :
  unit_blocks bm →
  ∀ first tracked perim d v d0 tracked' perim',
    on_wall bm (v, d0) →
    rule (matrix_at bm v) d = rule (matrix_at bm v) d0 →
    last perim = Some v → chain unit_step perim →
    walk bm fuel first tracked perim d v = Some (tracked', perim') →
    chain unit_step perim' ∧ last perim' = Some first ∧
    ∃ extra, perim' = perim ++ extra ∧ extra ≠ [].
Proof.
  intros Hbm. induction fuel as [|fuel IH];
    intros first tracked perim d v d0 tracked' perim' Hw Hr Hl Hc Hwalk; [done|].
  destruct (on_wall_step bm (v, d0) Hbm Hw) as (d' & Hr' & He & Hdep).
  cbn [fst snd] in Hr', He, Hdep. rewrite <- Hr in Hr'.
  rewrite (walk_unfold _ _ _ _ _ _ _ _ Hbm Hr') in Hwalk.
  pose proof (on_wall_step_on_wall bm (v, d0) Hbm Hw) as Hw'. rewrite He in Hw'.
  assert (Hd' : d' ∈ all_versors).
  { destruct Hw as (l & r & Hs & _). rewrite Hs in Hdep.
    by apply departure_sides_versor in Hdep. }
  assert (Hc' : chain unit_step (perim ++ [sum_vectors v d'])).
  { apply chain_app. split; [exact Hc|]. split; [apply chain_singleton|].
    intros a b Ha [= <-]. rewrite Hl in Ha. injection Ha as <-.
    by apply unit_step_sum. }
  destruct (decide (sum_vectors v d' = first)) as [Hf|_].
  - injection Hwalk as _ <-. split; [exact Hc'|].
    split; [by rewrite last_snoc, Hf|]. by eexists.
  - destruct (IH _ _ _ _ _ d' _ _ Hw' eq_refl (last_snoc _ _) Hc' Hwalk)
      as (H1 & H2 & extra & -> & _).
    split; [exact H1|]. split; [exact H2|].
    exists ([sum_vectors v d'] ++ extra). by rewrite app_assoc.
Qed.

Lemma build_step_rectilinear bm fuel tracked ret v tracked' ret' :
  unit_blocks bm →
  build_step bm fuel (Some (tracked, ret)) v = Some (tracked', ret') →
  Forall rectilinear ret → Forall rectilinear ret'.
Proof.
  intros Hbm Hstep Hret. unfold build_step in Hstep.
  cbn [mbind option_bind] in Hstep.
  destruct (vertex2boxes_matrix_at bm v (proj1 Hbm)) as (boxes & Hb & Hm).
  rewrite Hb in Hstep. cbn [mbind option_bind] in Hstep. cbv zeta in Hstep.
  rewrite Hm in Hstep.
  destruct (POSSIBLE_DIRECTIONS !! matrix_at bm v) as [versors|] eqn:Ev; [|done].
  cbn [mbind option_bind] in Hstep.
  destruct (decide (length versors = 0%nat)) as [_|Hlen];
    [by injection Hstep as _ <-|].
  destruct (decide _) as [_|_]; [by injection Hstep as _ <-|].
  destruct (decide _) as [_|_]; [by injection Hstep as _ <-|].
  assert (Hne : versors ≠ []) by (by intros ->).
  destruct (walk bm fuel v tracked [v] STILL v) as [[tracked1 perim]|] eqn:Ew;
    [|done].
  cbn [mbind option_bind] in Hstep.
  destruct (remove_internal_edge_points perim) as [perim1|] eqn:E1; [|done].
  cbn [mbind option_bind] in Hstep.
  destruct (normalized_perimeter perim1) as [perim2|] eqn:E2; [|done].
  cbn [mbind option_bind] in Hstep. injection Hstep as _ <-.
  apply Forall_app. split; [exact Hret|]. apply Forall_singleton.
  destruct (rule_still _ versors (matrix_at_binary bm v Hbm) Ev Hne)
    as (d0 & d1 & l & r & Ha & Hlr & Hr0 & Hrs).
  assert (Hw : on_wall bm (v, d0)) by (by exists l, r).
  destruct (walk_unit_path bm fuel Hbm v tracked [v] STILL v d0 _ _ Hw
              ltac:(by rewrite Hrs, Hr0) eq_refl (chain_singleton _ _) Ew)
    as (Hc & Hlast & extra & -> & Hextra).
  cbn [app] in *.
  destruct (remove_internal_edge_points_ends (v :: extra)) as (f & z & Hf & Hz & E).
  { destruct extra; [done|]. cbn [length]. lia. }
  cbn in Hf. injection Hf as <-. rewrite Hlast in Hz. injection Hz as <-.
  rewrite E in E1.
  assert (Eq : perim1 = v :: corner_points (v :: extra) ++ [v]) by congruence.
  subst perim1. clear E1.
  assert (Hq : chain axis_step (v :: corner_points (v :: extra) ++ [v])).
  { apply corner_points_rectilinear; [exact Hc|exact Hextra|exact Hlast|by left]. }
  destruct (normalized_perimeter_unfold (v :: corner_points (v :: extra) ++ [v]))
    as (m & p1 & p2 & _ & Hp & Hh & Hnorm); [done|].
  rewrite Hnorm in E2.
  assert (Eq : perim2 = dedup_runs (p2 ++ p1 ++ [m])) by congruence.
  subst perim2. clear E2.
  apply dedup_runs_chain. rewrite Hp in Hq.
  apply (chain_rotate axis_step p1 p2 m Hq); [|exact Hh].
  rewrite <- Hp. cbn [head]. by rewrite app_comm_cons, last_snoc.
Qed.

Lemma build_loop_preserves bm fuel (P : list WallPerimeter → Prop)
    (vertices : list Vertex2D) st tracked' ret' :
  (∀ tracked ret v tracked1 ret1,
     build_step bm fuel (Some (tracked, ret)) v = Some (tracked1, ret1) →
     P ret → P ret1) →
  foldl (build_step bm fuel) st vertices = Some (tracked', ret') →
  (∀ tracked ret, st = Some (tracked, ret) → P ret) →
  P ret'.
Proof.
  intros Hstep. revert st. induction vertices as [|v vertices IH]; intros st Hf Hst.
  - by apply (Hst tracked').
  - cbn [foldl] in Hf. apply (IH _ Hf). intros tracked1 ret1 E.
    destruct st as [[tracked ret]|]; [|done].
    apply (Hstep tracked ret v tracked1 ret1 E). by apply (Hst tracked).
Qed.

(** X20: the perimeters are rectilinear.  On a map of unit blocks, [build]
    returns, and every perimeter it returns is closed and made of
    horizontal and vertical edges only, each edge joining two different
    points. *)
Theorem build_perimeters_rectilinear (bm : BlocksMap) (fuel : nat) :
  unit_blocks bm → (length (wall_states bm) ≤ fuel)%nat →
  ∃ ret,
    build bm fuel = Some ret ∧
    ∀ p, p ∈ ret → closed_perimeter p ∧ rectilinear p.
Proof.
  intros Hbm Hfuel.
  destruct (build_returns_closed bm fuel Hbm Hfuel) as (ret & Hret & Hclosed).
  exists ret. split; [exact Hret|]. intros p Hp. split; [by apply Hclosed|].
  unfold build in Hret. destruct (decide (map bm = ∅)) as [_|_].
  { injection Hret as <-. by apply elem_of_nil in Hp. }
  destruct (build_loop bm fuel) as [[tracked found]|] eqn:El; [|done].
  cbn in Hret. injection Hret as <-. rewrite sorted_Permutation in Hp.
  assert (Hall : Forall rectilinear found).
  { apply (build_loop_preserves bm fuel (Forall rectilinear)
             (get_grid_vertices bm) (Some (∅, [])) tracked found).
    - intros tr r v tr1 r1 E. by apply (build_step_rectilinear bm fuel tr r v tr1 r1).
    - exact El.
    - intros ? ? [= <- <-]. constructor. }
  exact (proj1 (Forall_forall _ found) Hall p Hp).
Qed.

Lemma build_perimeters_rectilinear_witness :
  ∃ ret,
    build (mkBlocksMap (<[(1, 0) := 1]> {[ (0, 1) := 1 ]}) (2, 2) 1) 100 = Some ret ∧
    ∀ p, p ∈ ret → closed_perimeter p ∧ rectilinear p.
Proof.
  apply (build_perimeters_rectilinear
           (mkBlocksMap (<[(1, 0) := 1]> {[ (0, 1) := 1 ]}) (2, 2) 1) 100).
  - split; [reflexivity|]. apply (bool_decide_unpack _). vm_compute. exact I.
  - vm_compute. lia.
Defined.

(** ** MeshExporter: [create_wavefront] *)

Lemma filter_nil_iff {A} (P : A → Prop) `{∀ x, Decision (P x)} (l : list A) :
  filter P l = [] ↔ ∀ x, x ∈ l → ¬ P x.
Proof.
  induction l as [|a l IH].
  - split; [intros _ x Hx; by apply elem_of_nil in Hx|done].
  - rewrite filter_cons. destruct (decide (P a)) as [Ha|Ha].
    + split; [done|]. intros Hall. exfalso. apply (Hall a); [apply list_elem_of_here|done].
    + rewrite IH. split.
      * intros Hall x [->|Hx]%elem_of_cons; [done|by apply Hall].
      * intros Hall x Hx. by apply Hall, list_elem_of_further.
Qed.

Lemma triangulate_vertex_is_Some (v : list Number) :
  is_Some (triangulate_vertex v) ↔ length v = 2%nat ∨ length v = 3%nat.
Proof.
  destruct v as [|x [|y [|z [|w v]]]]; cbn; split;
    try (by intros [? ?]); try (intros [?|?]; lia); try (by eexists); auto.
Qed.

Lemma triangulate_vertex_Some (v : list Number) (vertex : Vertex) :
  triangulate_vertex v = Some vertex →
  (∃ x y, v = [x; y] ∧ vertex = (x, y, PyFloat false 0)) ∨
  (∃ x y z, v = [x; y; z] ∧ vertex = (x, y, z)).
Proof.
  destruct v as [|x [|y [|z [|w v]]]]; cbn; try done; intros [= <-].
  - left. by exists x, y.
  - right. by exists x, y, z.
Qed.

Lemma create_wavefront_unfold (vertices : list Vertex) (faces : list (list Z))
    (zero_index : bool) (readable_export_settings : list string)
    (dst : option string) ret written :
  create_wavefront vertices faces zero_index None readable_export_settings dst
  = Some (ret, written) →
  ∃ settings vertex_rows,
    parse_readable_export_settings readable_export_settings = Some settings ∧
    mapM (λ vertex, export_vertex vertex settings) vertices = Some vertex_rows ∧
    (zero_index = false → ∀ face, face ∈ faces → 0 ∉ face) ∧
    ret = String.concat newline
            (vertex_rows ++ ((λ face, export_face_indices face zero_index) <$> faces)) ∧
    written = match dst with
              | Some path =>
                  if decide (path = EmptyString) then None else Some (path, ret)
              | None => None
              end.
Proof.
  unfold create_wavefront. cbn [mbind option_bind].
  destruct (parse_readable_export_settings readable_export_settings)
    as [settings|] eqn:Es; [|done].
  cbn [mbind option_bind].
  destruct (mapM (λ vertex, export_vertex vertex settings) vertices)
    as [rows|] eqn:Er; [|done].
  cbn [mbind option_bind]. cbv zeta. destruct (decide _) as [Hf|]; [|done].
  intros [= <- <-]. exists settings, rows. split; [done|]. split; [done|].
  split; [|done]. intros Hz face Hface H0.
  rewrite filter_nil_iff in Hf. by apply (Hf face).
Qed.

Lemma create_wavefront_triangulated (vertices : list Vertex)
    (faces : list (list Z)) (zero_index : bool) (tri : TriangulateOutput)
    (readable_export_settings : list string) (dst : option string) :
  create_wavefront vertices faces zero_index (Some tri) readable_export_settings dst
  = (tri_vertices ← mapM triangulate_vertex (out_vertices tri);
     create_wavefront tri_vertices (out_triangles tri) true None
                      readable_export_settings dst).
Proof.
  unfold create_wavefront.
  by destruct (mapM triangulate_vertex (out_vertices tri)).
Qed.

(** X21: [create_wavefront].  With a triangulation result the arguments
    [vertices], [faces] and [zero_index] are not used: the rows of the
    vertices are those of the vertices of the result, two coordinates
    getting the float [0.0] as the third, and the faces are the triangles
    of the result, written one-based, each index raised by one, a face with
    the index [0] included; the call raises only on a vertex of a length
    other than two and three, or on export settings that do not parse.
    Without a result it raises exactly when the settings do not parse, or
    when [zero_index] is false and some face holds the index [0].  When it
    returns, the file written to a non-empty [dst] holds the string that is
    returned. *)
Theorem create_wavefront_result (vertices : list Vertex) (faces : list (list Z))
    (zero_index : bool) (triangulate_result : option TriangulateOutput)
    (readable_export_settings : list string) (dst : option string) :
  (∀ tri,
     triangulate_result = Some tri →
     (∀ vertices' faces' zero_index',
        create_wavefront vertices faces zero_index triangulate_result
                         readable_export_settings dst
        = create_wavefront vertices' faces' zero_index' triangulate_result
                           readable_export_settings dst) ∧
     (create_wavefront vertices faces zero_index triangulate_result
                       readable_export_settings dst = None
      ↔ (∃ v, v ∈ out_vertices tri ∧ length v ≠ 2%nat ∧ length v ≠ 3%nat) ∨
        parse_readable_export_settings readable_export_settings = None) ∧
     (∀ ret written,
        create_wavefront vertices faces zero_index triangulate_result
                         readable_export_settings dst = Some (ret, written) →
        ∃ settings vertex_rows,
          parse_readable_export_settings readable_export_settings = Some settings ∧
          Forall2 (λ v row,
                     (∃ x y, v = [x; y] ∧
                             export_vertex (x, y, PyFloat false 0) settings = Some row) ∨
                     (∃ x y z, v = [x; y; z] ∧
                               export_vertex (x, y, z) settings = Some row))
                  (out_vertices tri) vertex_rows ∧
          ret = String.concat newline
                  (vertex_rows ++
                   ((λ face, "f " +:+ String.concat " " ((λ i, pretty (i + 1)) <$> face))
                      <$> out_triangles tri)))) ∧
  (triangulate_result = None →
   (create_wavefront vertices faces zero_index triangulate_result
                     readable_export_settings dst = None
    ↔ parse_readable_export_settings readable_export_settings = None ∨
      (zero_index = false ∧ ∃ face, face ∈ faces ∧ 0 ∈ face)) ∧
   (∀ ret written,
      create_wavefront vertices faces zero_index triangulate_result
                       readable_export_settings dst = Some (ret, written) →
      ∃ settings vertex_rows,
        parse_readable_export_settings readable_export_settings = Some settings ∧
        mapM (λ vertex, export_vertex vertex settings) vertices = Some vertex_rows ∧
        ret = String.concat newline
                (vertex_rows ++
                 ((λ face, "f " +:+ String.concat " "
                                      ((λ i, pretty (i + Z.b2z zero_index)) <$> face))
                    <$> faces)))) ∧
  (∀ ret written,
     create_wavefront vertices faces zero_index triangulate_result
                      readable_export_settings dst = Some (ret, written) →
     written = match dst with
               | Some path =>
                   if decide (path = EmptyString) then None else Some (path, ret)
               | None => None
               end).
Proof.
  split; [|split].
  - intros tri ->. split; [reflexivity|]. split.
    + unfold create_wavefront.
      destruct (mapM triangulate_vertex (out_vertices tri)) as [vs|] eqn:Ev.
      * cbn [mbind option_bind].
        destruct (parse_readable_export_settings readable_export_settings)
          as [settings|] eqn:Es.
        -- cbn [mbind option_bind].
           destruct (mapM (λ vertex, export_vertex vertex settings) vs)
             as [rows|] eqn:Er.
           ++ cbn [mbind option_bind]. cbv zeta. rewrite decide_True.
              ** split; [done|]. intros [(v & Hv & H2 & H3)|?]; [|done]. exfalso.
                 assert (Hs : is_Some (mapM triangulate_vertex (out_vertices tri)))
                   by (by eexists).
                 rewrite mapM_is_Some, Forall_forall in Hs.
                 apply Hs, triangulate_vertex_is_Some in Hv. lia.
              ** apply filter_nil_iff. by intros face _ [_ ?].
           ++ exfalso.
              assert (Hs : is_Some (mapM (λ vertex, export_vertex vertex settings) vs)).
              { apply mapM_is_Some, Forall_forall. intros v _.
                by apply (parsed_settings_export_vertex readable_export_settings). }
              rewrite Er in Hs. by destruct Hs.
        -- cbn [mbind option_bind]. split; [by right|done].
      * cbn [mbind option_bind]. split; [|done]. intros _. left.
        assert (Hn : ¬ is_Some (mapM triangulate_vertex (out_vertices tri)))
          by (rewrite Ev; by intros [? ?]).
        rewrite mapM_is_Some in Hn. apply not_Forall_Exists in Hn; [|apply _].
        apply Exists_exists in Hn as (v & Hv & Hbad). exists v. split; [done|].
        unfold compose in Hbad. rewrite triangulate_vertex_is_Some in Hbad. lia.
    + intros ret written. rewrite create_wavefront_triangulated.
      destruct (mapM triangulate_vertex (out_vertices tri)) as [vs|] eqn:Ev; [|done].
      cbn [mbind option_bind].
      intros (settings & rows & Hs & Hrows & _ & -> & _)%create_wavefront_unfold.
      exists settings, rows. split; [exact Hs|]. split; [|done].
      apply mapM_Some in Ev, Hrows.
      apply Forall2_same_length_lookup. split.
      { by rewrite (Forall2_length _ _ _ Ev), (Forall2_length _ _ _ Hrows). }
      intros i v row Hv Hrow.
      destruct (Forall2_lookup_l _ _ _ _ _ Ev Hv) as (vertex & Hvertex & Ht).
      destruct (Forall2_lookup_l _ _ _ _ _ Hrows Hvertex) as (row' & Hrow' & He).
      assert (row' = row) as -> by congruence.
      destruct (triangulate_vertex_Some v vertex Ht)
        as [(x & y & -> & ->)|(x & y & z & -> & ->)].
      * left. by exists x, y.
      * right. by exists x, y, z.
  - intros ->. split.
    + unfold create_wavefront. cbn [mbind option_bind].
      destruct (parse_readable_export_settings readable_export_settings)
        as [settings|] eqn:Es.
      * cbn [mbind option_bind].
        destruct (mapM (λ vertex, export_vertex vertex settings) vertices)
          as [rows|] eqn:Er.
        -- cbn [mbind option_bind]. cbv zeta.
           destruct (decide (filter (λ face, 0 ∈ face ∧ zero_index = false) faces = []))
             as [Hf|Hf].
           ++ split; [done|]. intros [?|[Hz (face & Hface & H0)]]; [done|].
              exfalso. rewrite filter_nil_iff in Hf. by apply (Hf face).
           ++ split; [|done]. intros _. right.
              destruct zero_index.
              ** exfalso. apply Hf, filter_nil_iff. by intros face _ [_ ?].
              ** split; [done|].
                 destruct (filter (λ face, 0 ∈ face ∧ false = false) faces)
                   as [|face l] eqn:E; [done|].
                 assert (Hin : face ∈ filter (λ face, 0 ∈ face ∧ false = false) faces)
                   by (rewrite E; apply list_elem_of_here).
                 apply list_elem_of_filter in Hin as [[H0 _] Hin]. by exists face.
        -- exfalso.
           assert (Hs : is_Some (mapM (λ vertex, export_vertex vertex settings) vertices)).
           { apply mapM_is_Some, Forall_forall. intros v _.
             by apply (parsed_settings_export_vertex readable_export_settings). }
           rewrite Er in Hs. by destruct Hs.
      * cbn [mbind option_bind]. split; [by left|done].
    + intros ret written
        (settings & rows & Hs & Hrows & _ & -> & _)%create_wavefront_unfold.
      by exists settings, rows.
  - intros ret written. destruct triangulate_result as [tri|].
    + rewrite create_wavefront_triangulated.
      destruct (mapM triangulate_vertex (out_vertices tri)) as [vs|]; [|done].
      cbn [mbind option_bind].
      by intros (_ & _ & _ & _ & _ & _ & ->)%create_wavefront_unfold.
    + by intros (_ & _ & _ & _ & _ & _ & ->)%create_wavefront_unfold.
Qed.

(** A run of [create_wavefront] on a triangulation result: the third
    coordinate is the float [0.0], which the setting [-z] turns into
    [-0.0], and the triangle of the vertex [0] is written with the index
    [1]. *)
Lemma create_wavefront_sample :
  create_wavefront [] [] false
    (Some (mkTriangulateOutput [[PyFloat false 1; PyFloat false 2]] [[0; 0; 0]]))
    ["+x"; "-z"; "+y"]%string None
  = Some (String.concat newline
            ["v 1.000000 -0.000000 2.000000"; "f 1 1 1"]%string, None).
Proof. vm_compute. reflexivity. Qed.

(** ** From the matrix to the perimeters: no block, no perimeter *)

Lemma sorted_nil_iff {A} (leb : A → A → bool) (l : list A) :
  sorted leb l = [] ↔ l = [].
Proof.
  split; [|by intros ->]. intros E. apply (f_equal length) in E.
  rewrite sorted_Permutation in E. by destruct l.
Qed.

(** X23: a matrix without a block has no wall, and one block is enough for
    a wall.  For a matrix whose last row is not empty and is as long as any
    other row, the tracing of [matrix2obj] returns a list of walls (it does
    not raise, and enough fuel is enough), and this list is empty exactly
    when no entry of the matrix is a block (falsy): with a block the list
    has a perimeter. *)
Theorem matrix_without_block (pre : WalkableMatrix) (row : list Z) (fuel : nat) :
  row ≠ [] → (∀ r, r ∈ pre ++ [row] → (length r ≤ length row)%nat) →
  ∃ bm,
    mat2map (pre ++ [row]) = Some bm ∧
    ((length (wall_states bm) ≤ fuel)%nat →
     ∃ walls,
       matrix2obj_wall_perimeters fuel (pre ++ [row]) = Some walls ∧
       (walls = [] ↔ ∀ box, ¬ blocked_at (pre ++ [row]) box)).
Proof.
  intros Hne Hlen.
  destruct (mat2map_last_row pre [] row Hne ltac:(constructor))
    as (bm & E & Hs & Hu & Hg & Hmap).
  cbn [app] in E, Hg, Hmap. exists bm. split; [exact E|]. intros Hfuel.
  unfold matrix2obj_wall_perimeters. rewrite E. cbn [mbind option_bind].
  assert (Hempty : map bm = ∅ ↔ ∀ box, ¬ blocked_at (pre ++ [row]) box).
  { split.
    - intros Hm box Hb.
      assert (Hl : map bm !! box = Some 1) by (by apply Hmap).
      by rewrite Hm, lookup_empty in Hl.
    - intros Hall. apply map_eq. intros box. rewrite lookup_empty.
      destruct (map bm !! box) as [v|] eqn:El; [|done].
      exfalso. apply Hmap in El as [_ Hb]. by apply (Hall box). }
  destruct (build_returns_closed bm fuel Hu Hfuel) as (ret & Hret & _).
  exists (sorted perimeter_leb ret). rewrite Hret. split; [done|].
  rewrite <- Hempty, sorted_nil_iff. split.
  - intros ->. destruct (decide (map bm = ∅)) as [Em|Hm]; [exact Em|].
    by destruct (build_some_perimeter bm fuel Hu (Hg Hlen) Hfuel Hm).
  - intros Em. unfold build in Hret. rewrite decide_True in Hret by exact Em.
    congruence.
Qed.

Lemma matrix_without_block_witness :
  ∃ bm,
    mat2map ([[1; 0]] ++ [[1; 1]]) = Some bm ∧
    ((length (wall_states bm) ≤ 100)%nat →
     ∃ walls,
       matrix2obj_wall_perimeters 100 ([[1; 0]] ++ [[1; 1]]) = Some walls ∧
       (walls = [] ↔ ∀ box, ¬ blocked_at ([[1; 0]] ++ [[1; 1]]) box)).
Proof.
  apply (matrix_without_block [[1; 0]] [1; 1] 100); [discriminate|].
  intros r Hr. repeat (apply elem_of_cons in Hr as [->|Hr]); [done..|].
  by apply elem_of_nil in Hr.
Defined.

(** ** Holes and blocks *)

Lemma mat2map_content (matrix : WalkableMatrix) bm :
  mat2map matrix = Some bm →
  ∀ box v, map bm !! box = Some v ↔ v = 1 ∧ blocked_at matrix box.
Proof.
  destruct (mat2map_rows_spec matrix) as (ret & x & Hrows & _ & Hret).
  unfold mat2map. rewrite Hrows. destruct x as [x|]; [|done].
  cbn [mbind option_bind]. destruct matrix; [done|].
  cbn [mbind option_bind]. by intros [= <-].
Qed.

(** X24: holes and blocks share the boxes of the matrix between them.  A
    box of the matrix with a falsy entry is a block of the map of
    [mat2map] and gets no marker from [matrix2holes]; a box with a truthy
    entry gets the marker at its centre and is no block. *)
Theorem holes_and_blocks (matrix : WalkableMatrix) (bm : BlocksMap) :
  mat2map matrix = Some bm →
  ∀ box row w,
    0 ≤ box.1 → 0 ≤ box.2 →
    matrix !! Z.to_nat box.2 = Some row → row !! Z.to_nat box.1 = Some w →
    if decide (w = 0)
    then map bm !! box = Some 1 ∧ box_centre box ∉ matrix2holes matrix
    else map bm !! box = None ∧ box_centre box ∈ matrix2holes matrix.
Proof.
  intros Hm box row w Hx Hy Hrow Hw.
  pose proof (mat2map_content matrix bm Hm) as Hmap.
  assert (Hholes : box_centre box ∈ matrix2holes matrix ↔ walkable_at matrix box).
  { rewrite matrix2holes_walkable_boxes, list_elem_of_fmap. split.
    - intros (box' & Hc & Hin). apply box_centre_inj in Hc as <-.
      by apply elem_of_walkable_boxes.
    - intros Hwalk. exists box. split; [done|]. by apply elem_of_walkable_boxes. }
  destruct (decide (w = 0)) as [->|Hne].
  - split.
    + apply Hmap. split; [done|]. split; [done|]. split; [done|]. by exists row.
    + rewrite Hholes. intros (_ & _ & row' & w' & Hrow' & Hw' & Hne).
      rewrite Hrow in Hrow'. injection Hrow' as <-. rewrite Hw in Hw'.
      by injection Hw' as <-.
  - split.
    + destruct (map bm !! box) as [v|] eqn:E; [|done]. exfalso.
      apply Hmap in E as (_ & _ & _ & row' & Hrow' & Hw').
      rewrite Hrow in Hrow'. injection Hrow' as <-. rewrite Hw in Hw'.
      by injection Hw' as ->.
    + apply Hholes. split; [done|]. split; [done|]. by exists row, w.
Qed.

Lemma holes_and_blocks_witness :
  if decide (0 = 0)
  then map (mkBlocksMap {[ (1, 0) := 1 ]} (2, 1) 1) !! (1, 0) = Some 1 ∧
       box_centre (1, 0) ∉ matrix2holes [[1; 0]]
  else map (mkBlocksMap {[ (1, 0) := 1 ]} (2, 1) 1) !! (1, 0) = None ∧
       box_centre (1, 0) ∈ matrix2holes [[1; 0]].
Proof.
  assert (Hm : mat2map [[1; 0]] = Some (mkBlocksMap {[ (1, 0) := 1 ]} (2, 1) 1))
    by (vm_compute; reflexivity).
  apply (holes_and_blocks [[1; 0]] (mkBlocksMap {[ (1, 0) := 1 ]} (2, 1) 1)
           Hm (1, 0) [1; 0] 0);
    cbn [fst snd]; try lia; reflexivity.
Defined.

(** ** PerimeterTracer: the solid rectangle *)

Section solid_rectangle.
Variables (bm : BlocksMap) (W H : Z).
Hypothesis Hsolid : solid bm W H.
Hypothesis HW : 1 ≤ W.
Hypothesis HH : 1 ≤ H.

Lemma solid_unit_blocks : unit_blocks bm.
Proof. exact (proj1 Hsolid). Qed.

Lemma matrix_at_solid v :
  matrix_at bm v
  = ((if decide (0 ≤ v.1 - 1 < W ∧ 0 ≤ v.2 - 1 < H) then 1 else 0,
      if decide (0 ≤ v.1 < W ∧ 0 ≤ v.2 - 1 < H) then 1 else 0),
     (if decide (0 ≤ v.1 - 1 < W ∧ 0 ≤ v.2 < H) then 1 else 0,
      if decide (0 ≤ v.1 < W ∧ 0 ≤ v.2 < H) then 1 else 0)).
Proof.
  destruct Hsolid as (_ & _ & Hget). unfold matrix_at. by rewrite !Hget.
Qed.

(** Decides the four boxes around a vertex of the solid rectangle, and
    reads the rule of the case. *)
Ltac solid_case :=
  rewrite matrix_at_solid; cbn [fst snd];
  repeat first [rewrite decide_True by lia | rewrite decide_False by lia].

Ltac solid_step :=
  unfold step; solid_case;
  lazymatch goal with
  | |- context [rule ?m ?d] =>
      let r := eval vm_compute in (rule m d) in
      change (rule m d) with r
  end;
  unfold sum_vectors, RIGHT, DOWN, LEFT, UP; cbn [fst snd];
  repeat f_equal; lia.

Lemma tour_step j :
  Z.of_nat (S j) < 2 * W + 2 * H →
  step bm (tour W H j) = tour W H (S j).
Proof.
  intros Hj. unfold tour. rewrite Nat2Z.inj_succ in *.
  repeat case_decide; try lia; solid_step.
Qed.

Lemma tour_iter j :
  Z.of_nat j < 2 * W + 2 * H →
  Nat.iter j (step bm) ((1, 0), RIGHT) = tour W H j.
Proof.
  induction j as [|j IH]; intros Hj.
  - unfold tour. rewrite decide_True by lia. reflexivity.
  - rewrite Nat.iter_succ, IH by lia. by apply tour_step.
Qed.

Lemma tour_on_wall : on_wall bm ((1, 0), RIGHT).
Proof.
  exists 0, 1. split; [|done]. unfold sides. cbn [fst snd].
  rewrite arrival_sides_RIGHT. solid_case. reflexivity.
Qed.

Lemma tour_trail :
  trail bm (Z.to_nat (2 * W + 2 * H)) ((1, 0), RIGHT)
  = tour W H <$> seq 0 (Z.to_nat (2 * W + 2 * H)).
Proof.
  unfold trail. apply list_fmap_ext. intros i j Hj.
  apply lookup_seq in Hj as [-> Hj]. apply tour_iter. lia.
Qed.

Lemma tour_walk fuel tracked :
  (Z.to_nat (2 * W + 2 * H) ≤ fuel)%nat →
  walk bm fuel (0, 0) tracked [(0, 0)] STILL (0, 0)
  = Some (add_passes bm tracked (tour W H <$> seq 0 (Z.to_nat (2 * W + 2 * H))),
          (0, 0) :: (fst <$> (tour W H <$> seq 0 (Z.to_nat (2 * W + 2 * H))))).
Proof.
  intros Hfuel. rewrite <- tour_trail.
  apply (walk_follows_trail bm (Z.to_nat (2 * W + 2 * H)) solid_unit_blocks
           ((1, 0), RIGHT) (0, 0) fuel tracked [(0, 0)] (0, 0) STILL).
  - exact tour_on_wall.
  - lia.
  - rewrite tour_iter by lia. unfold tour.
    repeat case_decide; try lia. cbn [fst]. f_equal; lia.
  - intros j Hj. rewrite tour_iter by lia. unfold tour.
    repeat case_decide; cbn [fst]; intros [=]; lia.
  - solid_case. vm_compute. reflexivity.
  - reflexivity.
Qed.
End solid_rectangle.

Lemma run_fmap a d n :
  run a d n
  = (λ i : nat, (a.1 + (Z.of_nat i + 1) * d.1, a.2 + (Z.of_nat i + 1) * d.2))
      <$> seq 0 n.
Proof.
  revert a. induction n as [|n IH]; intros a; [done|].
  cbn [run]. rewrite <- cons_seq, fmap_cons, <- fmap_S_seq, <- list_fmap_compose.
  f_equal.
  - unfold sum_vectors. destruct a. cbn [fst snd]. f_equal; lia.
  - rewrite IH. apply list_fmap_ext. intros _ i _. unfold compose, sum_vectors.
    cbn [fst snd]. f_equal; lia.
Qed.

Lemma last_run a d n :
  last (run a d (S n))
  = Some (a.1 + Z.of_nat (S n) * d.1, a.2 + Z.of_nat (S n) * d.2).
Proof.
  rewrite run_fmap, seq_S, fmap_app. cbn [fmap list_fmap].
  rewrite last_snoc. cbn [Nat.add]. do 2 f_equal; lia.
Qed.

Lemma corner_points_cons3 (x a b : Vertex2D) tl :
  corner_points (x :: a :: b :: tl)
  = if decide ((a.1 - x.1, a.2 - x.2) = (b.1 - a.1, b.2 - a.2))
    then corner_points (a :: b :: tl)
    else a :: corner_points (a :: b :: tl).
Proof. reflexivity. Qed.

(** Along a straight run no point is kept. *)
Lemma corner_points_run n :
  ∀ x a d rest e' e,
    sum_vectors x d = a →
    e = (a.1 + Z.of_nat n * d.1, a.2 + Z.of_nat n * d.2) →
    sum_vectors e' d = e →
    corner_points (x :: a :: run a d n ++ rest) = corner_points (e' :: e :: rest).
Proof.
  induction n as [|n IH]; intros x a d rest e' e Hx He He'.
  - cbn [run app]. f_equal. f_equal.
    + destruct x, e', a, d. unfold sum_vectors in *. cbn [fst snd] in *.
      subst e. injection Hx as Hx1 Hx2. injection He' as H1 H2. f_equal; lia.
    + f_equal. destruct a. subst e. cbn [fst snd]. f_equal; lia.
  - cbn [run app]. rewrite corner_points_cons3, decide_True.
    + apply (IH a (sum_vectors a d) d rest e' e); [done| |done].
      subst e. unfold sum_vectors. cbn [fst snd]. f_equal; lia.
    + rewrite <- Hx. unfold sum_vectors. cbn [fst snd]. f_equal; lia.
Qed.

Lemma corner_points_tour (w h : nat) :
  corner_points
    ((0, 0) :: run (0, 0) RIGHT (S w)
            ++ run (Z.of_nat (S w), 0) DOWN (S h)
            ++ run (Z.of_nat (S w), Z.of_nat (S h)) LEFT (S w)
            ++ run (0, Z.of_nat (S h)) UP (S h))
  = [(Z.of_nat (S w), 0); (Z.of_nat (S w), Z.of_nat (S h)); (0, Z.of_nat (S h))].
Proof.
  set (W := Z.of_nat (S w)). set (H := Z.of_nat (S h)).
  assert (HW : W = Z.of_nat w + 1) by (unfold W; lia).
  assert (HH : H = Z.of_nat h + 1) by (unfold H; lia).
  cbn [run app].
  rewrite (corner_points_run w (0, 0) (sum_vectors (0, 0) RIGHT) RIGHT _
             (W - 1, 0) (W, 0));
    [|done|unfold sum_vectors, RIGHT; cbn [fst snd]; f_equal; lia
      |unfold sum_vectors, RIGHT; cbn [fst snd]; f_equal; lia].
  rewrite corner_points_cons3, decide_False
    by (unfold sum_vectors, DOWN; cbn [fst snd]; intros [=]; lia).
  f_equal.
  rewrite (corner_points_run h (W, 0) (sum_vectors (W, 0) DOWN) DOWN _
             (W, H - 1) (W, H));
    [|done|unfold sum_vectors, DOWN; cbn [fst snd]; f_equal; lia
      |unfold sum_vectors, DOWN; cbn [fst snd]; f_equal; lia].
  rewrite corner_points_cons3, decide_False
    by (unfold sum_vectors, LEFT; cbn [fst snd]; intros [=]; lia).
  f_equal.
  rewrite (corner_points_run w (W, H) (sum_vectors (W, H) LEFT) LEFT _
             (1, H) (0, H));
    [|done|unfold sum_vectors, LEFT; cbn [fst snd]; f_equal; lia
      |unfold sum_vectors, LEFT; cbn [fst snd]; f_equal; lia].
  rewrite corner_points_cons3, decide_False
    by (unfold sum_vectors, UP; cbn [fst snd]; intros [=]; lia).
  f_equal.
  rewrite <- (app_nil_r (run (sum_vectors (0, H) UP) UP h)).
  rewrite (corner_points_run h (0, H) (sum_vectors (0, H) UP) UP []
             (0, 1) (0, 0));
    [|done|unfold sum_vectors, UP; cbn [fst snd]; f_equal; lia
      |unfold sum_vectors, UP; cbn [fst snd]; f_equal; lia].
  reflexivity.
Qed.

Lemma fmap_seq_shift {A} (f : nat → A) (g : nat → A) m n :
  (∀ i, (i < n)%nat → f (m + i)%nat = g i) → f <$> seq m n = g <$> seq 0 n.
Proof.
  intros Hfg. replace m with (m + 0)%nat at 1 by lia.
  rewrite <- fmap_add_seq, <- list_fmap_compose. apply list_fmap_ext.
  intros j i Hi. apply lookup_seq in Hi as [-> Hi]. by apply Hfg.
Qed.

Lemma tour_points (w h : nat) :
  fst <$> (tour (Z.of_nat (S w)) (Z.of_nat (S h))
             <$> seq 0 (S w + (S h + (S w + S h))))
  = run (0, 0) RIGHT (S w)
    ++ run (Z.of_nat (S w), 0) DOWN (S h)
    ++ run (Z.of_nat (S w), Z.of_nat (S h)) LEFT (S w)
    ++ run (0, Z.of_nat (S h)) UP (S h).
Proof.
  rewrite <- list_fmap_compose, !seq_app, !fmap_app, !run_fmap.
  apply (f_equal2 app); [|apply (f_equal2 app); [|apply (f_equal2 app)]];
    apply fmap_seq_shift; intros i Hi; unfold compose, tour;
    repeat case_decide; try lia;
    unfold RIGHT, DOWN, LEFT, UP; cbn [fst snd]; f_equal; lia.
Qed.

Lemma point_leb_origin (p : Z * Z) : 0 ≤ p.1 → 0 ≤ p.2 → point_leb (0, 0) p = true.
Proof.
  intros H1 H2. unfold point_leb. cbn [fst snd].
  destruct (Z.ltb_spec 0 p.1); [done|].
  destruct (Z.eqb_spec 0 p.1); [|lia]. destruct (Z.leb_spec 0 p.2); [done|lia].
Qed.

Lemma normalized_perimeter_rectangle (W H : Z) :
  1 ≤ W → 1 ≤ H →
  normalized_perimeter [(0, 0); (W, 0); (W, H); (0, H); (0, 0)]
  = Some [(0, 0); (W, 0); (W, H); (0, H); (0, 0)].
Proof.
  intros HW HH. unfold normalized_perimeter.
  assert (Hmin : min_point [(0, 0); (W, 0); (W, H); (0, H); (0, 0)] = Some (0, 0)).
  { cbn [min_point foldl]. by rewrite !point_leb_origin by (cbn [fst snd]; lia). }
  rewrite Hmin. cbn [mbind option_bind].
  rewrite rotate_to_head by done. cbn [mbind option_bind lookup list_lookup app].
  rewrite remove_contiguous_values_dedup. f_equal.
  rewrite (dedup_runs_cons_ne (0, 0) (W, 0)) by (intros [=]; lia).
  rewrite (dedup_runs_cons_ne (W, 0) (W, H)) by (intros [=]; lia).
  rewrite (dedup_runs_cons_ne (W, H) (0, H)) by (intros [=]; lia).
  rewrite (dedup_runs_cons_ne (0, H) (0, 0)) by (intros [=]; lia).
  by rewrite dedup_runs_cons_eq.
Qed.

Lemma build_loop_skipped bm fuel (l : list Vertex2D) tracked ret :
  unit_blocks bm → Forall (skipped bm tracked) l →
  foldl (build_step bm fuel) (Some (tracked, ret)) l = Some (tracked, ret).
Proof.
  intros Hbm Hl. induction Hl as [|u l Hu _ IH]; [done|].
  cbn [foldl]. by rewrite build_step_skipped.
Qed.

Section solid_build.
Variables (bm : BlocksMap) (w h : nat).
Hypothesis Hsolid : solid bm (Z.of_nat (S w)) (Z.of_nat (S h)).

Lemma solid_first_walk fuel :
  (S w + (S h + (S w + S h)) ≤ fuel)%nat →
  build_step bm fuel (Some (∅, [])) (0, 0)
  = Some (add_passes bm ∅
            (tour (Z.of_nat (S w)) (Z.of_nat (S h))
               <$> seq 0 (S w + (S h + (S w + S h)))),
          [[(0, 0); (Z.of_nat (S w), 0); (Z.of_nat (S w), Z.of_nat (S h));
            (0, Z.of_nat (S h)); (0, 0)]]).
Proof.
  intros Hfuel. pose proof (solid_unit_blocks bm _ _ Hsolid) as Hbm.
  assert (Hk : Z.to_nat (2 * Z.of_nat (S w) + 2 * Z.of_nat (S h))
               = (S w + (S h + (S w + S h)))%nat) by lia.
  unfold build_step. cbn [mbind option_bind].
  destruct (vertex2boxes_matrix_at bm (0, 0) (proj1 Hbm)) as (boxes & Hb & Hm).
  rewrite Hb. cbn [mbind option_bind]. cbv zeta. rewrite Hm.
  rewrite (matrix_at_solid bm _ _ Hsolid). cbn [fst snd].
  repeat first [rewrite decide_True by lia | rewrite decide_False by lia].
  change (POSSIBLE_DIRECTIONS !! ((0, 0), (0, 1))) with (Some [RIGHT; DOWN]).
  cbn [mbind option_bind length]. rewrite decide_False by done.
  rewrite decide_False by (intros [[=] _]).
  change (get0 ∅ (0, 0)) with 0. rewrite decide_False by lia.
  rewrite (tour_walk bm _ _ Hsolid ltac:(lia) ltac:(lia) fuel ∅) by lia.
  rewrite Hk. cbn [mbind option_bind]. rewrite tour_points.
  set (L := (0, 0) :: run (0, 0) RIGHT (S w)
                   ++ run (Z.of_nat (S w), 0) DOWN (S h)
                   ++ run (Z.of_nat (S w), Z.of_nat (S h)) LEFT (S w)
                   ++ run (0, Z.of_nat (S h)) UP (S h)).
  destruct (remove_internal_edge_points_ends L) as (f & z & Hf & Hz & E).
  { unfold L. cbn [run app length]. lia. }
  assert (f = (0, 0)) as -> by (unfold L in Hf; cbn in Hf; congruence).
  assert (z = (0, 0)) as ->.
  { unfold L in Hz. rewrite app_comm_cons, !app_assoc, last_app, last_run in Hz.
    injection Hz as <-. cbn [fst snd]. unfold UP. cbn [fst snd]. f_equal; lia. }
  rewrite E. cbn [mbind option_bind]. unfold L. rewrite corner_points_tour.
  cbn [app]. rewrite normalized_perimeter_rectangle by lia. reflexivity.
Qed.

Lemma passes_pos (states : list (Z * Z * (Z * Z))) s v :
  s ∈ states → origin s = v → (1 ≤ passes states v)%nat.
Proof.
  intros Hs Ho. unfold passes.
  assert (Hin : s ∈ filter (λ s, origin s = v) states)
    by (by apply list_elem_of_filter).
  destruct (filter (λ s, origin s = v) states); [by apply elem_of_nil in Hin|].
  cbn [length]. lia.
Qed.

Lemma solid_counter v j :
  (j < S w + (S h + (S w + S h)))%nat →
  origin (tour (Z.of_nat (S w)) (Z.of_nat (S h)) j) = v →
  pass_weight bm v = 2 →
  0 < get0 (add_passes bm ∅
              (tour (Z.of_nat (S w)) (Z.of_nat (S h))
                 <$> seq 0 (S w + (S h + (S w + S h))))) v.
Proof.
  intros Hj Ho Hw2. rewrite get0_add_passes, Hw2. change (get0 ∅ v) with 0.
  pose proof (passes_pos (tour (Z.of_nat (S w)) (Z.of_nat (S h))
                            <$> seq 0 (S w + (S h + (S w + S h))))
                (tour (Z.of_nat (S w)) (Z.of_nat (S h)) j) v) as Hp.
  assert (1 ≤ passes (tour (Z.of_nat (S w)) (Z.of_nat (S h))
                        <$> seq 0 (S w + (S h + (S w + S h)))) v)%nat; [|lia].
  apply Hp; [|done]. apply list_elem_of_fmap. exists j. split; [done|].
  apply elem_of_seq. lia.
Qed.

Lemma solid_skipped v :
  v ∈ get_grid_vertices bm → v ≠ (0, 0) →
  skipped bm
    (add_passes bm ∅
       (tour (Z.of_nat (S w)) (Z.of_nat (S h))
          <$> seq 0 (S w + (S h + (S w + S h))))) v.
Proof.
  intros Hv Hne. destruct Hsolid as (Hbm & Hsize & Hget).
  apply elem_of_get_grid_vertices in Hv as ([x y] & Hx & Hy & ->).
  rewrite Hsize, (proj1 Hbm) in *. cbn [fst snd] in *. rewrite !Z.mul_1_r in *.
  unfold skipped, boundary_vertex, saddle_vertex, pass_weight.
  destruct (decide (0 < x)) as [Hx0|Hx0], (decide (0 < y)) as [Hy0|Hy0].
  - left. rewrite (matrix_at_solid bm _ _ Hsolid). cbn [fst snd].
    repeat first [rewrite decide_True by lia | rewrite decide_False by lia].
    intros (versors & Hv & Hn). vm_compute in Hv. by injection Hv as <-.
  - right. right. assert (y = 0) as -> by lia. split.
    + rewrite (matrix_at_solid bm _ _ Hsolid). cbn [fst snd].
      repeat first [rewrite decide_True by lia | rewrite decide_False by lia].
      intros (versors & Hv & Hn). vm_compute in Hv. by injection Hv as <-.
    + apply (solid_counter (x, 0) (Z.to_nat x)); [lia| |].
      * unfold tour, origin. rewrite decide_True by lia. unfold RIGHT.
        cbn [fst snd]. f_equal; lia.
      * unfold pass_weight. rewrite (matrix_at_solid bm _ _ Hsolid). cbn [fst snd].
        repeat first [rewrite decide_True by lia | rewrite decide_False by lia].
        reflexivity.
  - right. right. assert (x = 0) as -> by lia. split.
    + rewrite (matrix_at_solid bm _ _ Hsolid). cbn [fst snd].
      repeat first [rewrite decide_True by lia | rewrite decide_False by lia].
      intros (versors & Hv & Hn). vm_compute in Hv. by injection Hv as <-.
    + apply (solid_counter (0, y)
               (Z.to_nat (2 * Z.of_nat (S w) + 2 * Z.of_nat (S h) - y))); [lia| |].
      * unfold tour, origin. repeat case_decide; try lia. unfold UP.
        cbn [fst snd]. f_equal; lia.
      * unfold pass_weight. rewrite (matrix_at_solid bm _ _ Hsolid). cbn [fst snd].
        repeat first [rewrite decide_True by lia | rewrite decide_False by lia].
        reflexivity.
  - exfalso. apply Hne. f_equal; lia.
Qed.

Lemma solid_build fuel :
  (S w + (S h + (S w + S h)) ≤ fuel)%nat →
  build bm fuel
  = Some [[(0, 0); (Z.of_nat (S w), 0); (Z.of_nat (S w), Z.of_nat (S h));
           (0, Z.of_nat (S h)); (0, 0)]].
Proof.
  intros Hfuel. pose proof Hsolid as (Hbm & Hsize & Hget).
  unfold build. rewrite decide_False.
  2:{ intros E. specialize (Hget (0, 0)). unfold get0 in Hget.
      rewrite E, lookup_empty in Hget. cbn [fst snd] in Hget.
      rewrite decide_True in Hget by lia. done. }
  destruct (get_grid_vertices_first bm) as [rest Hg]; [rewrite Hsize; cbn; lia..|].
  unfold build_loop. rewrite Hg. cbn [foldl].
  rewrite solid_first_walk by done.
  assert (Hrest : Forall (skipped bm
            (add_passes bm ∅
               (tour (Z.of_nat (S w)) (Z.of_nat (S h))
                  <$> seq 0 (S w + (S h + (S w + S h)))))) rest).
  { pose proof (NoDup_get_grid_vertices bm) as Hnd. rewrite Hg in Hnd.
    apply NoDup_cons in Hnd as [Hnin _]; [|by rewrite (proj1 Hbm)].
    apply Forall_forall. intros v Hv. apply solid_skipped.
    - rewrite Hg. by apply list_elem_of_further.
    - by intros ->. }
  rewrite (build_loop_skipped bm fuel rest _ _ Hbm Hrest). reflexivity.
Qed.
End solid_build.

Lemma blocked_at_full (w h : nat) (box : Pos) :
  blocked_at (replicate h (replicate w 0)) box
  ↔ 0 ≤ box.1 < Z.of_nat w ∧ 0 ≤ box.2 < Z.of_nat h.
Proof.
  unfold blocked_at. split.
  - intros (H1 & H2 & row & Hrow & Hc).
    apply lookup_replicate in Hrow as [-> Hlt].
    apply lookup_replicate in Hc as [_ Hlt']. lia.
  - intros [Hx Hy]. split; [lia|]. split; [lia|].
    exists (replicate w 0). split; apply lookup_replicate_2; lia.
Qed.

Lemma mat2map_full (w h : nat) :
  ∃ bm,
    mat2map (replicate (S h) (replicate (S w) 0)) = Some bm ∧
    solid bm (Z.of_nat (S w)) (Z.of_nat (S h)).
Proof.
  destruct (mat2map_rows_spec (replicate (S h) (replicate (S w) 0)))
    as (ret & x & Hrows & Hx & Hret).
  pose proof (mat2map_rows_width (replicate h (replicate (S w) 0)) []
                (replicate (S w) 0) ltac:(done) ltac:(constructor)) as Hw.
  rewrite app_nil_r, <- replicate_S_end, Hrows in Hw. cbn [fst snd] in Hw.
  subst x. unfold mat2map. rewrite Hrows.
  destruct (replicate (S h) (replicate (S w) 0)) as [|r0 m0] eqn:E; [done|].
  rewrite <- E in *. clear E. cbn [mbind option_bind].
  eexists. split; [reflexivity|]. split; [|split].
  - split; [reflexivity|]. intros box v Hv. cbn [map] in Hv.
    by apply Hret in Hv as [-> _].
  - cbn [map_size]. rewrite !length_replicate. f_equal; lia.
  - intros box. cbn [map]. unfold get0.
    destruct (decide (0 ≤ box.1 < Z.of_nat (S w) ∧ 0 ≤ box.2 < Z.of_nat (S h)))
      as [Hin|Hout].
    + assert (Hb : ret !! box = Some 1)
        by (apply Hret; split; [done|by apply blocked_at_full]).
      by rewrite Hb.
    + destruct (ret !! box) as [v|] eqn:E; [|done].
      exfalso. apply Hout. apply Hret in E as [_ Hb]. by apply blocked_at_full in Hb.
Qed.

(** X22: the matrix without a walkable box.  For every width and height of
    at least one, the walls of the matrix of that size that holds only
    zeros are traced as one perimeter, the rectangle of the whole grid from
    its top-left corner clockwise: the points along the sides between the
    corners are removed. *)
Theorem full_matrix_perimeter (width height fuel : nat) :
  (1 ≤ width)%nat → (1 ≤ height)%nat → (2 * (width + height) ≤ fuel)%nat →
  matrix2obj_wall_perimeters fuel (replicate height (replicate width 0))
  = Some [[(0, 0); (Z.of_nat width, 0); (Z.of_nat width, Z.of_nat height);
           (0, Z.of_nat height); (0, 0)]].
Proof.
  intros Hw Hh Hfuel.
  destruct width as [|w]; [lia|]. destruct height as [|h]; [lia|].
  destruct (mat2map_full w h) as (bm & Hm & Hsolid).
  unfold matrix2obj_wall_perimeters. rewrite Hm. cbn [mbind option_bind].
  rewrite (solid_build bm w h Hsolid fuel) by lia. reflexivity.
Qed.

Lemma full_matrix_perimeter_witness :
  matrix2obj_wall_perimeters 10 (replicate 2 (replicate 3 0))
  = Some [[(0, 0); (Z.of_nat 3, 0); (Z.of_nat 3, Z.of_nat 2);
           (0, Z.of_nat 2); (0, 0)]].
Proof. apply (full_matrix_perimeter 3 2 10); lia. Defined.

(** * The walk leaves its vertex and comes back *)

Lemma step_between_sum a d : step_between a (sum_vectors a d) = d.
Proof.
  destruct a, d. unfold step_between, sum_vectors. cbn [fst snd]. f_equal; lia.
Qed.

Lemma trail_path bm k :
  unit_blocks bm →
  ∀ s, on_wall bm s →
       fst <$> trail bm k (step bm s) = path s.1 (snd <$> trail bm k (step bm s)).
Proof.
  intros Hbm. induction k as [|k IH]; intros s Hw; [done|].
  rewrite trail_S, !fmap_cons. cbn [path].
  pose proof (on_wall_step_on_wall bm s Hbm Hw) as Hw'.
  rewrite (IH _ Hw').
  destruct (on_wall_step bm s Hbm Hw) as (d' & _ & He & _).
  by rewrite He.
Qed.

Lemma path_lookup ds :
  ∀ a j x y,
    (a :: path a ds) !! j = Some x → (a :: path a ds) !! S j = Some y →
    ds !! j = Some (step_between x y).
Proof.
  induction ds as [|d ds IH]; intros a j x y Hx Hy; [done|].
  destruct j as [|j].
  - cbn in Hx, Hy. injection Hx as <-. injection Hy as <-.
    cbn. by rewrite step_between_sum.
  - by apply (IH (sum_vectors a d) j x y).
Qed.

Lemma last_path ds :
  ∀ a, last (a :: path a ds) = Some (sum_vectors a (total ds)).
Proof.
  induction ds as [|d ds IH]; intros a.
  - cbn. f_equal. destruct a. unfold sum_vectors. cbn. f_equal; lia.
  - cbn [path]. change (last (a :: ?l)) with (last l). rewrite IH. f_equal.
    unfold total. cbn [foldr]. destruct a, d. unfold sum_vectors. cbn [fst snd].
    f_equal; lia.
Qed.

Lemma chain_path ds :
  Forall (λ d, d ∈ all_versors) ds → ∀ a, chain unit_step (a :: path a ds).
Proof.
  induction 1 as [|d ds Hd _ IH]; intros a; [apply chain_singleton|].
  cbn [path]. apply chain_cons. split; [by apply unit_step_sum|apply IH].
Qed.

Lemma turns_cons2 a b ds :
  turns (a :: b :: ds) = if decide (a = b) then turns (b :: ds) else S (turns (b :: ds)).
Proof. reflexivity. Qed.

Lemma corner_points_path ds :
  ∀ a, length (corner_points (a :: path a ds)) = turns ds.
Proof.
  induction ds as [|d [|e ds] IH]; intros a; [done..|].
  specialize (IH (sum_vectors a d)).
  change (path a (d :: e :: ds))
    with (sum_vectors a d :: sum_vectors (sum_vectors a d) e
            :: path (sum_vectors (sum_vectors a d) e) ds).
  change (path (sum_vectors a d) (e :: ds))
    with (sum_vectors (sum_vectors a d) e
            :: path (sum_vectors (sum_vectors a d) e) ds) in IH.
  rewrite corner_points_cons3, turns_cons2.
  change (?b.1 - ?a.1, ?b.2 - ?a.2) with (step_between a b).
  rewrite !step_between_sum.
  destruct (decide (d = e)) as [_|_]; [exact IH|].
  cbn [length]. by rewrite IH.
Qed.

Lemma turns_length ds : ds ≠ [] → (turns ds + 1 ≤ length ds)%nat.
Proof.
  induction ds as [|a [|b ds] IH]; intros Hne; [done|cbn; lia|].
  rewrite turns_cons2. specialize (IH ltac:(done)). cbn [length] in *.
  destruct (decide (a = b)); lia.
Qed.

Lemma turns_size ds :
  ds ≠ [] → (size (list_to_set ds : gset Versor2D) ≤ turns ds + 1)%nat.
Proof.
  induction ds as [|a [|b ds] IH]; intros Hne; [done|..].
  - cbn [list_to_set turns]. rewrite (right_id_L ∅ (∪)), size_singleton. lia.
  - rewrite turns_cons2, list_to_set_cons. specialize (IH ltac:(done)).
    destruct (decide (a = b)) as [->|Hab].
    + etrans; [|exact IH]. apply subseteq_size. set_solver.
    + rewrite size_union_alt, size_singleton.
      pose proof (subseteq_size (list_to_set (b :: ds) ∖ {[a]})
                    (list_to_set (b :: ds) : gset Versor2D) ltac:(set_solver)).
      lia.
Qed.

(** Of the steps of a list of versors, only [d] adds to the way made along
    [d], and only its opposite takes from it. *)
Lemma versor_balance (d : Versor2D) ds :
  d ∈ all_versors → Forall (λ e, e ∈ all_versors) ds → opposite d ∉ ds →
  0 ≤ (total ds).1 * d.1 + (total ds).2 * d.2 ∧
  (d ∈ ds → 1 ≤ (total ds).1 * d.1 + (total ds).2 * d.2).
Proof.
  intros Hd Hall. induction Hall as [|e ds He _ IH]; intros Hopp.
  - split; [cbn; lia|]. intros H. by apply elem_of_nil in H.
  - apply not_elem_of_cons in Hopp as [Hne Hopp].
    destruct (IH Hopp) as [IH0 IH1].
    assert (Hdot : 0 ≤ e.1 * d.1 + e.2 * d.2 ∧ (d = e → e.1 * d.1 + e.2 * d.2 = 1)).
    { unfold all_versors, LEFT, UP, RIGHT, DOWN, opposite in *.
      repeat (apply elem_of_cons in Hd as [->|Hd]); [..|by apply elem_of_nil in Hd];
        repeat (apply elem_of_cons in He as [->|He]); try (by apply elem_of_nil in He);
        cbn [fst snd] in *; try (split; [lia|]; try (intros _; lia); by intros [=]);
        by exfalso; apply Hne. }
    destruct Hdot as [Hdot0 Hdot1].
    unfold total in *. cbn [foldr]. unfold sum_vectors at 1 3 5 7. cbn [fst snd].
    split; [lia|]. intros [->|Hin]%elem_of_cons.
    + specialize (Hdot1 eq_refl). lia.
    + specialize (IH1 Hin). lia.
Qed.

Lemma versor_returns (d : Versor2D) ds :
  Forall (λ e, e ∈ all_versors) ds → total ds = (0, 0) →
  d ∈ ds → opposite d ∈ ds.
Proof.
  intros Hall Ht Hd.
  destruct (decide (opposite d ∈ ds)) as [H|H]; [exact H|]. exfalso.
  assert (Hv : d ∈ all_versors) by exact (proj1 (Forall_forall _ _) Hall d Hd).
  destruct (versor_balance d ds Hv Hall H) as [_ H1].
  specialize (H1 Hd). rewrite Ht in H1. cbn [fst snd] in H1. lia.
Qed.

Lemma straight_run (d : Versor2D) ds :
  d ≠ opposite d →
  chain (λ a b : Versor2D, b ≠ opposite a) ds →
  Forall (λ e, e = d ∨ e = opposite d) ds →
  ∀ a, head ds = Some a → Forall (λ e, e = a) ds.
Proof.
  intros Hd Hc Hall. induction Hall as [|x ds Hx Hall IH]; intros a Ha; [done|].
  cbn in Ha. injection Ha as <-. constructor; [done|].
  destruct ds as [|y ds]; [constructor|].
  apply chain_cons in Hc as [Hxy Hc].
  assert (y = x) as ->.
  { pose proof (Forall_inv Hall) as Hy. cbn beta in Hy.
    destruct Hx as [->| ->], Hy as [->| ->]; try done.
    by rewrite opposite_involutive in Hxy. }
  by apply IH.
Qed.

Lemma perpendicular_step (d : Versor2D) ds :
  d ≠ opposite d →
  chain (λ a b : Versor2D, b ≠ opposite a) ds →
  d ∈ ds → opposite d ∈ ds →
  ∃ e, e ∈ ds ∧ e ≠ d ∧ e ≠ opposite d.
Proof.
  intros Hd Hc H1 H2.
  destruct (decide (Exists (λ e, e ≠ d ∧ e ≠ opposite d) ds)) as [H|H].
  { apply Exists_exists in H as (e & He & Hne). by exists e. }
  exfalso. apply not_Exists_Forall in H; [|apply _].
  assert (Hall : Forall (λ e, e = d ∨ e = opposite d) ds).
  { eapply Forall_impl; [exact H|]. intros e He. cbn in He.
    destruct (decide (e = d)) as [?|?]; [by left|].
    destruct (decide (e = opposite d)) as [?|?]; [by right|].
    by exfalso; apply He. }
  destruct ds as [|a ds]; [by apply elem_of_nil in H1|].
  pose proof (straight_run d (a :: ds) Hd Hc Hall a eq_refl) as Hsame.
  pose proof (proj1 (Forall_forall _ _) Hsame _ H1) as E1.
  pose proof (proj1 (Forall_forall _ _) Hsame _ H2) as E2.
  cbn beta in E1, E2. congruence.
Qed.

(** A run of steps that comes back where it started, never turning back on
    the spot, takes every one of the four versors, and so turns three times
    at least. *)
Lemma closed_run_turns ds :
  ds ≠ [] → Forall (λ e, e ∈ all_versors) ds →
  chain (λ a b : Versor2D, b ≠ opposite a) ds → total ds = (0, 0) →
  (3 ≤ turns ds)%nat.
Proof.
  intros Hne Hall Hc Ht.
  destruct ds as [|d ds']; [done|]. set (ds := d :: ds') in *.
  assert (Hd : d ∈ ds) by apply list_elem_of_here.
  assert (Hdv : d ∈ all_versors) by exact (proj1 (Forall_forall _ _) Hall d Hd).
  assert (Hdo : d ≠ opposite d).
  { unfold all_versors, LEFT, UP, RIGHT, DOWN, opposite in *.
    repeat (apply elem_of_cons in Hdv as [->|Hdv]); [..|by apply elem_of_nil in Hdv];
      by intros [=]. }
  pose proof (versor_returns d ds Hall Ht Hd) as Hd'.
  destruct (perpendicular_step d ds Hdo Hc Hd Hd') as (e & He & Hed & Hed').
  assert (Hev : e ∈ all_versors) by exact (proj1 (Forall_forall _ _) Hall e He).
  pose proof (versor_returns e ds Hall Ht He) as He'.
  assert (Hnd : NoDup [d; opposite d; e; opposite e]).
  { unfold all_versors, LEFT, UP, RIGHT, DOWN, opposite in *.
    repeat (apply elem_of_cons in Hdv as [->|Hdv]); [..|by apply elem_of_nil in Hdv];
      repeat (apply elem_of_cons in Hev as [->|Hev]); try (by apply elem_of_nil in Hev);
      cbn [fst snd] in *; try done;
      apply (bool_decide_unpack _); vm_compute; exact I. }
  assert (Hsub : (list_to_set [d; opposite d; e; opposite e] : gset Versor2D)
                 ⊆ list_to_set ds).
  { intros x Hx. rewrite elem_of_list_to_set in Hx |- *.
    repeat (apply elem_of_cons in Hx as [->|Hx]); [done..|].
    by apply elem_of_nil in Hx. }
  apply subseteq_size in Hsub. rewrite size_list_to_set in Hsub by exact Hnd.
  pose proof (turns_size ds Hne). cbn [length] in Hsub. lia.
Qed.

(** ** The walk from a vertex of the boundary *)

Lemma walk_leaves_and_returns bm v :
  unit_blocks bm → boundary_vertex bm v →
  ∃ perimeter log,
    returning_walk bm v perimeter ∧
    (3 ≤ length (corner_points perimeter))%nat ∧
    ∀ fuel tracked,
      (length (wall_states bm) ≤ fuel)%nat →
      walk bm fuel v tracked [v] STILL v
      = Some (add_passes bm tracked log, perimeter).
Proof.
  intros Hbm Hb.
  destruct (walk_returns bm v Hbm Hb)
    as (s0 & k & Hw & Hs0 & Hstill & Hk & Hback & Hmin & Hwalk).
  assert (Hw1 : on_wall bm (step bm s0)) by (by apply on_wall_step_on_wall).
  assert (Hpath : fst <$> trail bm k (step bm s0)
                  = path v (snd <$> trail bm k (step bm s0))).
  { rewrite <- Hs0. by apply trail_path. }
  assert (Hrule : ∀ j, rule (matrix_at bm (Nat.iter j (step bm) (step bm s0)).1)
                         (Nat.iter j (step bm) (step bm s0)).2
                       = Some (Nat.iter (S j) (step bm) (step bm s0)).2).
  { intros j. rewrite Nat.iter_succ.
    destruct (on_wall_step bm (Nat.iter j (step bm) (step bm s0)) Hbm)
      as (d' & Hr & He & _); [by apply on_wall_iter|].
    by rewrite He, Hr. }
  assert (Hturn : ∀ j, (Nat.iter (S j) (step bm) (step bm s0)).2
                       ≠ opposite (Nat.iter j (step bm) (step bm s0)).2).
  { intros j. rewrite Nat.iter_succ.
    apply step_no_turn_back; [done|]. by apply on_wall_iter. }
  assert (Hvers : ∀ j, (Nat.iter j (step bm) (step bm s0)).2 ∈ all_versors).
  { intros j.
    destruct (on_wall_iter bm (step bm s0) j Hbm Hw1) as [(l & r & Hs & _) _].
    by apply arrival_sides_versor in Hs. }
  assert (Hds : ∀ j, (j < k)%nat →
                     (snd <$> trail bm k (step bm s0)) !! j
                     = Some (Nat.iter j (step bm) (step bm s0)).2).
  { intros j Hj. by rewrite list_lookup_fmap, trail_lookup. }
  assert (Hpt : ∀ j, (j < k)%nat →
                     (fst <$> trail bm k (step bm s0)) !! j
                     = Some (Nat.iter j (step bm) (step bm s0)).1).
  { intros j Hj. by rewrite list_lookup_fmap, trail_lookup. }
  assert (Hlast : last (fst <$> trail bm k (step bm s0)) = Some v).
  { replace k with (S (k - 1)) by lia.
    unfold trail. rewrite seq_S, fmap_app, fmap_app. cbn [fmap list_fmap].
    rewrite last_snoc. cbn [Nat.add fst]. by rewrite Hback. }
  assert (Hlen : length (snd <$> trail bm k (step bm s0)) = k)
    by (by rewrite length_fmap, length_trail).
  assert (Hlp : length (fst <$> trail bm k (step bm s0)) = k)
    by (by rewrite length_fmap, length_trail).
  revert Hwalk. rewrite Hpath in *.
  remember (snd <$> trail bm k (step bm s0)) as ds eqn:Eds. clear Eds.
  remember (step bm s0) as s1 eqn:Es1. clear Es1. intros Hwalk.
  assert (Hall : Forall (λ e, e ∈ all_versors) ds).
  { apply Forall_lookup. intros j e Hj.
    assert (Hjk : (j < k)%nat) by (rewrite <- Hlen; by eapply lookup_lt_Some).
    rewrite (Hds j Hjk) in Hj. assert (e = (Nat.iter j (step bm) s1).2) as -> by congruence.
    apply Hvers. }
  assert (Hlast' : last (v :: path v ds) = Some v).
  { destruct (path v ds); [done|exact Hlast]. }
  assert (Htot : total ds = (0, 0)).
  { rewrite last_path in Hlast'. injection Hlast' as H1.
    pose proof (f_equal fst H1) as Hx. pose proof (f_equal snd H1) as Hy.
    unfold sum_vectors in Hx, Hy. cbn [fst snd] in Hx, Hy.
    destruct (total ds) as [tx ty]. cbn [fst snd] in Hx, Hy. f_equal; lia. }
  assert (Hc : chain (λ a b : Versor2D, b ≠ opposite a) ds).
  { intros j a b Ha Hb'.
    assert (Hjk : (S j < k)%nat) by (rewrite <- Hlen; by eapply lookup_lt_Some).
    rewrite (Hds j ltac:(lia)) in Ha. rewrite (Hds (S j) Hjk) in Hb'.
    assert (a = (Nat.iter j (step bm) s1).2) as -> by congruence.
    assert (b = (Nat.iter (S j) (step bm) s1).2) as -> by congruence.
    apply Hturn. }
  assert (Hne : ds ≠ []) by (intros E; rewrite E in Hlen; cbn in Hlen; lia).
  pose proof (closed_run_turns ds Hne Hall Hc Htot) as Hturns.
  pose proof (turns_length ds Hne) as Htl.
  exists (v :: path v ds), (trail bm k s1).
  split; [|split].
  - exists (path v ds). split; [done|].
    split; [lia|]. split; [by apply chain_path|]. split; [|split].
    + split.
      * intros a b Ha Hb1.
        pose proof (path_lookup ds v 0%nat a b Ha Hb1) as Hd1.
        rewrite (Hds 0%nat ltac:(lia)) in Hd1.
        assert (a = v) as -> by (cbn in Ha; congruence).
        assert (Hd1' : s1.2 = step_between v b) by (cbn in Hd1; congruence).
        rewrite <- Hd1'. exact Hstill.
      * intros j a b c Ha Hb1 Hc1.
        pose proof (path_lookup ds v j a b Ha Hb1) as Hd1.
        pose proof (path_lookup ds v (S j) b c Hb1 Hc1) as Hd2.
        assert (Hjk : (S j < k)%nat) by (rewrite <- Hlen; by eapply lookup_lt_Some).
        rewrite (Hds j ltac:(lia)) in Hd1. rewrite (Hds (S j) Hjk) in Hd2.
        change ((v :: path v ds) !! S j) with (path v ds !! j) in Hb1.
        rewrite (Hpt j ltac:(lia)) in Hb1.
        assert (b = (Nat.iter j (step bm) s1).1) as Hbj by congruence.
        assert (Ed1 : (Nat.iter j (step bm) s1).2 = step_between a b) by congruence.
        assert (Ed2 : (Nat.iter (S j) (step bm) s1).2 = step_between b c) by congruence.
        rewrite <- Ed1, <- Ed2, Hbj. apply Hrule.
    + exact Hlast.
    + intros j u Hj Hu. rewrite (Hpt j ltac:(lia)) in Hu.
      assert (u = (Nat.iter j (step bm) s1).1) as -> by congruence.
      apply Hmin. lia.
  - rewrite corner_points_path. lia.
  - intros fuel tracked Hfuel. apply Hwalk. lia.
Qed.

(** ** From the corner points to the normal form *)

Lemma normalized_perimeter_length q p :
  chain axis_step q → head q = last q →
  normalized_perimeter q = Some p → length p = length q.
Proof.
  intros Hc Hclosed Hn.
  assert (Hq : q ≠ []) by (by intros ->).
  assert (Hfix : ∀ l, chain axis_step l → dedup_runs l = l).
  { intros l Hl. apply dedup_runs_fixed. intros i a b Ha Hb.
    specialize (Hl i a b Ha Hb). destruct a, b. unfold axis_step in Hl.
    cbn [fst snd] in Hl. intros [= -> ->]. lia. }
  destruct (normalized_perimeter_unfold q Hq) as (m & p1 & p2 & _ & -> & Hh & Hn').
  rewrite Hn' in Hn. injection Hn as <-.
  destruct p2 as [|y p2].
  { rewrite app_nil_r in *. cbn [app] in *.
    rewrite dedup_runs_snoc_last by congruence. by rewrite Hfix. }
  cbn [app head] in Hh. injection Hh as ->.
  destruct p1 as [|x p1].
  { change (length (dedup_runs ((m :: p2) ++ [m])) = length (m :: p2)).
    change (Some m = last (m :: p2)) in Hclosed.
    rewrite dedup_runs_snoc_last by congruence. by rewrite Hfix. }
  assert (Hl2 : last (m :: p2) = Some x).
  { rewrite last_app in Hclosed.
    change (head ((x :: p1) ++ m :: p2)) with (Some x) in Hclosed.
    destruct (last (m :: p2)) as [z|] eqn:E; [congruence|].
    by apply last_None in E. }
  destruct (last_Some (m :: p2) x) as [[p2' E2] _]; [done|].
  assert (Hhm : head (p2' ++ [x]) = Some m) by (by rewrite <- E2).
  rewrite E2 in *. clear E2.
  apply chain_app in Hc as (H1 & H2 & H12).
  replace ((p2' ++ [x]) ++ (x :: p1) ++ [m]) with (p2' ++ x :: x :: (p1 ++ [m]))
    by (by rewrite <- !app_assoc).
  rewrite dedup_runs_middle, Hfix.
  { rewrite !length_app. cbn [length]. rewrite !length_app. cbn [length]. lia. }
  apply chain_app in H2 as (H2 & _ & H2x).
  apply chain_app. split; [exact H2|]. split.
  - change (x :: p1 ++ [m]) with ((x :: p1) ++ [m]).
    apply chain_app. split; [exact H1|]. split; [apply chain_singleton|].
    intros a b Ha [= <-]. by apply H12.
  - intros a b Ha [= <-]. by apply H2x.
Qed.

(** ** The perimeters of [build] *)

Lemma build_step_cases bm fuel tracked ret v tracked1 ret1 :
  unit_blocks bm →
  build_step bm fuel (Some (tracked, ret)) v = Some (tracked1, ret1) →
  ret1 = ret ∨
  ∃ perimeter corners p,
    boundary_vertex bm v ∧
    walk bm fuel v tracked [v] STILL v = Some (tracked1, perimeter) ∧
    remove_internal_edge_points perimeter = Some corners ∧
    normalized_perimeter corners = Some p ∧
    ret1 = ret ++ [p].
Proof.
  intros Hbm Hstep. unfold build_step in Hstep.
  cbn [mbind option_bind] in Hstep.
  destruct (vertex2boxes_matrix_at bm v (proj1 Hbm)) as (boxes & Hb & Hm).
  rewrite Hb in Hstep. cbn [mbind option_bind] in Hstep. cbv zeta in Hstep.
  rewrite Hm in Hstep.
  destruct (POSSIBLE_DIRECTIONS !! matrix_at bm v) as [versors|] eqn:Ev; [|done].
  cbn [mbind option_bind] in Hstep.
  destruct (decide (length versors = 0%nat)) as [_|Hlen];
    [left; by injection Hstep as _ <-|].
  destruct (decide _) as [_|_]; [left; by injection Hstep as _ <-|].
  destruct (decide _) as [_|_]; [left; by injection Hstep as _ <-|].
  assert (Hne : versors ≠ []) by (by intros ->).
  destruct (walk bm fuel v tracked [v] STILL v) as [[tracked2 perim]|] eqn:Ew;
    [|done].
  cbn [mbind option_bind] in Hstep.
  destruct (remove_internal_edge_points perim) as [perim1|] eqn:E1; [|done].
  cbn [mbind option_bind] in Hstep.
  destruct (normalized_perimeter perim1) as [perim2|] eqn:E2; [|done].
  cbn [mbind option_bind] in Hstep. injection Hstep as <- <-.
  right. exists perim, perim1, perim2. split; [by exists versors|]. done.
Qed.

Lemma build_loop_from_walks bm fuel (Q : WallPerimeter → Prop)
    (vertices : list Vertex2D) :
  (∀ tracked ret v tracked1 ret1,
     v ∈ vertices →
     build_step bm fuel (Some (tracked, ret)) v = Some (tracked1, ret1) →
     Forall Q ret → Forall Q ret1) →
  ∀ st tracked' ret',
    foldl (build_step bm fuel) st vertices = Some (tracked', ret') →
    (∀ tracked ret, st = Some (tracked, ret) → Forall Q ret) →
    Forall Q ret'.
Proof.
  induction vertices as [|v vertices IH]; intros Hstep st tracked' ret' Hf Hst.
  - by apply (Hst tracked').
  - cbn [foldl] in Hf. eapply IH; [|exact Hf|].
    + intros tracked ret u tracked1 ret1 Hu. apply Hstep. by apply list_elem_of_further.
    + intros tracked1 ret1 E. destruct st as [[tracked ret]|]; [|done].
      apply (Hstep tracked ret v tracked1 ret1); [apply list_elem_of_here|exact E|].
      by apply (Hst tracked).
Qed.

Lemma walked_perimeter bm fuel v tracked tracked1 perimeter corners p :
  unit_blocks bm → (length (wall_states bm) ≤ fuel)%nat →
  boundary_vertex bm v →
  walk bm fuel v tracked [v] STILL v = Some (tracked1, perimeter) →
  remove_internal_edge_points perimeter = Some corners →
  normalized_perimeter corners = Some p →
  returning_walk bm v perimeter ∧ closed_perimeter p ∧ (5 ≤ length p)%nat.
Proof.
  intros Hbm Hfuel Hb Hwalk Hrem Hnorm.
  destruct (walk_leaves_and_returns bm v Hbm Hb) as (w & log & Hret & Hcorn & Hw).
  rewrite (Hw fuel tracked Hfuel) in Hwalk. injection Hwalk as _ <-.
  split; [exact Hret|].
  destruct Hret as (steps & -> & Hlen & Hc & _ & Hlast & _).
  destruct (remove_internal_edge_points_ends (v :: steps)) as (f & z & Hf & Hz & E).
  { cbn [length]. lia. }
  cbn in Hf. injection Hf as <-.
  assert (Hlast' : last (v :: steps) = Some v).
  { destruct steps; [done|]. exact Hlast. }
  rewrite Hlast' in Hz. injection Hz as <-.
  rewrite E in Hrem. injection Hrem as <-.
  assert (Hq : chain axis_step (v :: corner_points (v :: steps) ++ [v])).
  { apply corner_points_rectilinear; [exact Hc| |exact Hlast'|by left].
    by destruct steps. }
  assert (Hcl : head (v :: corner_points (v :: steps) ++ [v])
                = last (v :: corner_points (v :: steps) ++ [v])).
  { cbn [head]. by rewrite app_comm_cons, last_snoc. }
  pose proof (normalized_perimeter_length _ _ Hq Hcl Hnorm) as Hlp.
  cbn [length] in Hlp. rewrite length_app in Hlp. cbn [length] in Hlp.
  destruct (normalized_perimeter_ends _ _ Hnorm) as (m & _ & Hh & Hl & _).
  split; [|lia]. split; [|congruence]. intros Ep. by rewrite Ep in Hh.
Qed.

(** C1. On a blocks map with unit boxes and values [1], with fuel for as
    many turns as the map has wall states, [build] returns, and every
    perimeter it returns is a closed loop: it ends where it starts and has
    five points at least, so four edges.  Each of them is what [build] makes
    of the walk from a vertex of the grid, and that walk left its vertex and
    came back to it.  The walk from any vertex of the boundary, with any
    counter, returns a raw perimeter, and it does so by coming back: the raw
    perimeter starts at the vertex, takes four steps of one unit at least,
    each the turn of the tables, and ends with the first step that reaches
    the vertex again. *)
Theorem build_perimeters_closed (bm : BlocksMap) (fuel : nat) :
  unit_blocks bm → (length (wall_states bm) ≤ fuel)%nat →
  (∃ ret,
     build bm fuel = Some ret ∧
     ∀ p, p ∈ ret →
          closed_perimeter p ∧ (5 ≤ length p)%nat ∧ perimeter_of_walk bm fuel p) ∧
  (∀ v tracked,
     boundary_vertex bm v →
     ∃ tracked' perimeter,
       walk bm fuel v tracked [v] STILL v = Some (tracked', perimeter) ∧
       returning_walk bm v perimeter).
Proof.
  intros Hbm Hfuel. split.
  - destruct (build_returns_closed bm fuel Hbm Hfuel) as (ret & Hret & _).
    exists ret. split; [exact Hret|]. intros p Hp.
    unfold build in Hret. destruct (decide (map bm = ∅)) as [_|_].
    { injection Hret as <-. by apply elem_of_nil in Hp. }
    destruct (build_loop bm fuel) as [[tracked found]|] eqn:El; [|done].
    cbn in Hret. injection Hret as <-. rewrite sorted_Permutation in Hp.
    assert (Hall : Forall (λ p, closed_perimeter p ∧ (5 ≤ length p)%nat ∧
                                perimeter_of_walk bm fuel p) found).
    { apply (build_loop_from_walks bm fuel _ (get_grid_vertices bm))
        with (st := Some (∅, [])) (tracked' := tracked); [|exact El|].
      - intros tr r v tr1 r1 Hv E Hr.
        destruct (build_step_cases bm fuel tr r v tr1 r1 Hbm E)
          as [->|(w & corners & q & Hb & Hw & Hrem & Hnorm & ->)]; [exact Hr|].
        apply Forall_app. split; [exact Hr|]. apply Forall_singleton.
        destruct (walked_perimeter bm fuel v tr tr1 w corners q
                    Hbm Hfuel Hb Hw Hrem Hnorm) as (Hrw & Hcl & Hlen).
        split; [exact Hcl|]. split; [exact Hlen|].
        by exists v, tr, tr1, w, corners.
      - intros ? ? [= <- <-]. constructor. }
    exact (proj1 (Forall_forall _ found) Hall p Hp).
  - intros v tracked Hb.
    destruct (walk_leaves_and_returns bm v Hbm Hb) as (w & log & Hret & _ & Hw).
    exists (add_passes bm tracked log), w. split; [by apply Hw|exact Hret].
Qed.

Lemma build_perimeters_closed_witness :
  (∃ ret,
     build (mkBlocksMap {[ (0, 0) := 1 ]} (1, 1) 1) 36 = Some ret ∧
     ∀ p, p ∈ ret →
          closed_perimeter p ∧ (5 ≤ length p)%nat ∧
          perimeter_of_walk (mkBlocksMap {[ (0, 0) := 1 ]} (1, 1) 1) 36 p) ∧
  (∀ v tracked,
     boundary_vertex (mkBlocksMap {[ (0, 0) := 1 ]} (1, 1) 1) v →
     ∃ tracked' perimeter,
       walk (mkBlocksMap {[ (0, 0) := 1 ]} (1, 1) 1) 36 v tracked [v] STILL v
       = Some (tracked', perimeter) ∧
       returning_walk (mkBlocksMap {[ (0, 0) := 1 ]} (1, 1) 1) v perimeter).
Proof.
  apply (build_perimeters_closed (mkBlocksMap {[ (0, 0) := 1 ]} (1, 1) 1) 36).
  - split; [reflexivity|]. apply (bool_decide_unpack _). vm_compute. exact I.
  - vm_compute. lia.
Defined.

(** * MeshExporter: sets and dicts of vertices *)

Lemma tuple_leb_spec (a b : Z * Z * Z) :
  tuple_leb a b = true
  ↔ a.1.1 < b.1.1 ∨
    (a.1.1 = b.1.1 ∧ (a.1.2 < b.1.2 ∨ (a.1.2 = b.1.2 ∧ a.2 ≤ b.2))).
Proof.
  destruct a as [[x y] z], b as [[x' y'] z']. unfold tuple_leb, point_leb.
  cbn [fst snd]. destruct (decide ((x, y) = (x', y'))) as [[= -> ->]|Hne].
  - lia.
  - assert (x ≠ x' ∨ y ≠ y') by (destruct (decide (x = x')); [right|left]; congruence).
    lia.
Qed.

Lemma tuple_leb_antisym (a b : Z * Z * Z) :
  tuple_leb a b = true → tuple_leb b a = true → a = b.
Proof.
  rewrite !tuple_leb_spec. destruct a as [[x y] z], b as [[x' y'] z'].
  cbn [fst snd]. intros H1 H2. repeat f_equal; lia.
Qed.

Lemma vertex_leb_total (a b : Vertex) :
  vertex_leb a b = true ∨ vertex_leb b a = true.
Proof. unfold vertex_leb. rewrite !tuple_leb_spec. lia. Qed.

Lemma vertex_leb_trans (a b c : Vertex) :
  vertex_leb a b = true → vertex_leb b c = true → vertex_leb a c = true.
Proof. unfold vertex_leb. rewrite !tuple_leb_spec. lia. Qed.

Lemma vertex_leb_same (a b : Vertex) :
  vertex_leb a b = true → vertex_leb b a = true → same_vertex a b.
Proof. apply tuple_leb_antisym. Qed.




Lemma NoDup_fmap_same {A B} (f : A → B) (l : list A) x y :
  NoDup (f <$> l) → x ∈ l → y ∈ l → f x = f y → x = y.
Proof.
  intros Hnd [i Hi]%list_elem_of_lookup [j Hj]%list_elem_of_lookup Hf.
  assert (Hfi : (f <$> l) !! i = Some (f x)) by (by rewrite list_lookup_fmap, Hi).
  assert (Hfj : (f <$> l) !! j = Some (f x)) by (by rewrite list_lookup_fmap, Hj, Hf).
  pose proof (NoDup_lookup _ _ _ _ Hnd Hfi Hfj) as ->. congruence.
Qed.

(** ** The set [unique] *)

Lemma set_add_lookup (unique : VertexSet) (vertex : Vertex) c w :
  set_add unique vertex !! c = Some w
  ↔ unique !! c = Some w ∨
    (unique !! c = None ∧ c = vertex_value vertex ∧ w = vertex).
Proof.
  unfold set_add. destruct (unique !! vertex_value vertex) as [u|] eqn:E.
  - split; [by left|]. intros [H|(Hn & -> & _)]; [done|congruence].
  - destruct (decide (c = vertex_value vertex)) as [->|Hne].
    + rewrite lookup_insert_eq. split.
      * intros [= <-]. by right.
      * intros [H|(_ & _ & ->)]; [congruence|done].
    + rewrite lookup_insert_ne by done. split; [by left|].
      by intros [H|(_ & ? & _)].
Qed.

Lemma face_fold_lookup (face : Face) (acc : VertexSet) c w :
  foldl set_add acc face !! c = Some w →
  acc !! c = Some w ∨ (acc !! c = None ∧ w ∈ face ∧ vertex_value w = c).
Proof.
  revert acc. induction face as [|v face IH]; intros acc; cbn [foldl]; [by left|].
  intros [H|(Hn & Hw & Hv)]%IH.
  - apply set_add_lookup in H as [H|(Hn & -> & ->)]; [by left|].
    right. split; [done|]. split; [apply list_elem_of_here|done].
  - right. split; [|split; [by apply list_elem_of_further|done]].
    destruct (acc !! c) as [u|] eqn:E; [|done].
    assert (set_add acc v !! c = Some u) by (apply set_add_lookup; by left).
    congruence.
Qed.

Lemma face_fold_is_Some (face : Face) (acc : VertexSet) c :
  is_Some (foldl set_add acc face !! c)
  ↔ is_Some (acc !! c) ∨ ∃ w, w ∈ face ∧ vertex_value w = c.
Proof.
  revert acc. induction face as [|v face IH]; intros acc; cbn [foldl].
  - split; [by left|]. intros [H|(w & Hw & _)]; [done|by apply elem_of_nil in Hw].
  - rewrite IH. split.
    + intros [[u Hu]|(w & Hw & Hv)].
      * apply set_add_lookup in Hu as [Hu|(_ & -> & ->)]; [left; by eexists|].
        right. exists v. split; [apply list_elem_of_here|done].
      * right. exists w. split; [by apply list_elem_of_further|done].
    + intros [[u Hu]|(w & [->|Hw]%elem_of_cons & Hv)].
      * left. exists u. apply set_add_lookup. by left.
      * left. destruct (acc !! c) as [u|] eqn:E.
        -- exists u. apply set_add_lookup. by left.
        -- exists v. apply set_add_lookup. right. by rewrite Hv.
      * right. by exists w.
Qed.

Lemma mesh_fold_lookup (mesh : Mesh) (acc : VertexSet) c w :
  foldl (λ unique face, foldl set_add unique face) acc mesh !! c = Some w →
  acc !! c = Some w ∨ (acc !! c = None ∧ mesh_vertex mesh w ∧ vertex_value w = c).
Proof.
  revert acc. induction mesh as [|face mesh IH]; intros acc; cbn [foldl]; [by left|].
  intros [H|(Hn & (f & Hf & Hw) & Hv)]%IH.
  - apply face_fold_lookup in H as [H|(Hn & Hw & Hv)]; [by left|].
    right. split; [done|]. split; [|done].
    exists face. split; [apply list_elem_of_here|done].
  - right. split; [|split; [|done]].
    + destruct (acc !! c) as [u|] eqn:E; [|done].
      assert (is_Some (foldl set_add acc face !! c))
        by (apply face_fold_is_Some; left; by eexists).
      rewrite Hn in H. by destruct H.
    + exists f. split; [by apply list_elem_of_further|done].
Qed.

Lemma mesh_fold_is_Some (mesh : Mesh) (acc : VertexSet) c :
  is_Some (foldl (λ unique face, foldl set_add unique face) acc mesh !! c)
  ↔ is_Some (acc !! c) ∨ ∃ w, mesh_vertex mesh w ∧ vertex_value w = c.
Proof.
  revert acc. induction mesh as [|face mesh IH]; intros acc; cbn [foldl].
  - split; [by left|]. intros [H|(w & (f & Hf & _) & _)]; [done|].
    by apply elem_of_nil in Hf.
  - rewrite IH, face_fold_is_Some. split.
    + intros [[H|(w & Hw & Hv)]|(w & (f & Hf & Hw) & Hv)].
      * by left.
      * right. exists w. split; [|done]. exists face.
        split; [apply list_elem_of_here|done].
      * right. exists w. split; [|done]. exists f.
        split; [by apply list_elem_of_further|done].
    + intros [H|(w & (f & [->|Hf]%elem_of_cons & Hw) & Hv)].
      * by left; left.
      * left. right. by exists w.
      * right. exists w. split; [by exists f|done].
Qed.

Lemma mesh_unique_lookup (mesh : Mesh) c w :
  mesh_unique mesh !! c = Some w → mesh_vertex mesh w ∧ vertex_value w = c.
Proof.
  intros [H|(_ & H)]%mesh_fold_lookup; [by rewrite lookup_empty in H|done].
Qed.

Lemma mesh_unique_is_Some (mesh : Mesh) c :
  is_Some (mesh_unique mesh !! c) ↔ ∃ w, mesh_vertex mesh w ∧ vertex_value w = c.
Proof.
  unfold mesh_unique. rewrite mesh_fold_is_Some, lookup_empty.
  split; [intros [[? [=]]|H]; exact H|by right].
Qed.


(** ** The sorted list of the elements *)

Lemma elem_of_sorted_unique (mesh : Mesh) w :
  w ∈ sorted_unique mesh ↔ mesh_unique mesh !! vertex_value w = Some w.
Proof.
  unfold sorted_unique, set_list. rewrite sorted_Permutation, list_elem_of_fmap.
  split.
  - intros ([c u] & -> & H%elem_of_map_to_list). cbn [snd].
    destruct (mesh_unique_lookup _ _ _ H) as [_ <-]. exact H.
  - intros H. exists (vertex_value w, w). split; [done|].
    by apply elem_of_map_to_list.
Qed.

Lemma sorted_unique_mesh_vertex (mesh : Mesh) w :
  w ∈ sorted_unique mesh → mesh_vertex mesh w.
Proof. intros H%elem_of_sorted_unique. by apply mesh_unique_lookup in H as [? _]. Qed.

Lemma sorted_unique_kept (mesh : Mesh) v :
  mesh_vertex mesh v → ∃ w, w ∈ sorted_unique mesh ∧ same_vertex w v.
Proof.
  intros Hv.
  destruct (proj2 (mesh_unique_is_Some mesh (vertex_value v))) as [w Hw];
    [by exists v|].
  destruct (mesh_unique_lookup _ _ _ Hw) as [_ Hval].
  exists w. split; [|exact Hval]. apply elem_of_sorted_unique. by rewrite Hval.
Qed.

Lemma sorted_unique_values (mesh : Mesh) :
  vertex_value <$> sorted_unique mesh ≡ₚ (map_to_list (mesh_unique mesh)).*1.
Proof.
  unfold sorted_unique, set_list. rewrite sorted_Permutation.
  rewrite <- list_fmap_compose.
  assert (E : (vertex_value ∘ snd) <$> map_to_list (mesh_unique mesh)
              = (map_to_list (mesh_unique mesh)).*1); [|by rewrite E].
  apply list_fmap_ext. intros i [c w] H. cbn.
  apply list_elem_of_lookup_2, elem_of_map_to_list in H.
  by apply mesh_unique_lookup in H as [_ ?].
Qed.

Lemma NoDup_sorted_unique_values (mesh : Mesh) :
  NoDup (vertex_value <$> sorted_unique mesh).
Proof. rewrite sorted_unique_values. apply NoDup_fst_map_to_list. Qed.

Lemma sorted_unique_sorted (mesh : Mesh) :
  StronglySorted (λ a b, vertex_leb a b = true) (sorted_unique mesh).
Proof. apply sorted_StronglySorted; [apply vertex_leb_total|apply vertex_leb_trans]. Qed.

Lemma length_sorted_unique (mesh : Mesh) :
  length (sorted_unique mesh) = size (mesh_unique mesh).
Proof.
  unfold sorted_unique, set_list.
  by rewrite sorted_Permutation, length_fmap, length_map_to_list.
Qed.



(** A sorted list of vertices of different values is the sort of each of
    its permutations. *)
Lemma sorted_of_Permutation (l l' : list Vertex) :
  l ≡ₚ l' → NoDup (vertex_value <$> l') →
  StronglySorted (λ a b, vertex_leb a b = true) l' →
  sorted vertex_leb l = l'.
Proof.
  intros Hp Hnd Hs.
  apply (StronglySorted_unique_strong (λ a b, vertex_leb a b = true)).
  - intros a b Ha Hb H1 H2. rewrite sorted_Permutation, Hp in Ha.
    apply (NoDup_fmap_same vertex_value l' a b Hnd Ha Hb).
    by apply vertex_leb_same.
  - apply sorted_StronglySorted; [apply vertex_leb_total|apply vertex_leb_trans].
  - exact Hs.
  - by rewrite sorted_Permutation.
Qed.

(** ** The dict of the indices *)

Lemma index_dict_lookup (l : list Vertex) (start : Z) c k i :
  NoDup (vertex_value <$> l) →
  foldl (λ ret (iv : Z * Vertex), dict_set ret iv.2 iv.1) (∅ : VertexDict)
        (zip (seqZ start (Z.of_nat (length l))) l) !! c = Some (k, i)
  ↔ start ≤ i ∧ l !! Z.to_nat (i - start) = Some k ∧ vertex_value k = c.
Proof.
  revert c k i. induction l as [|a l IH] using rev_ind; intros c k i Hnd.
  - rewrite zip_with_nil_r. cbn [foldl]. rewrite lookup_empty, lookup_nil.
    split; [done|]. by intros (_ & ? & _).
  - rewrite length_app. cbn [length].
    replace (Z.of_nat (length l + 1)) with (Z.of_nat (length l) + 1) by lia.
    rewrite seqZ_app by lia. rewrite zip_with_app by (rewrite length_seqZ; lia).
    replace (seqZ (start + Z.of_nat (length l)) 1) with [start + Z.of_nat (length l)]
      by (rewrite seqZ_cons, seqZ_nil by lia; done).
    rewrite foldl_app. cbn [zip_with foldl fst snd].
    rewrite fmap_app in Hnd. apply NoDup_app in Hnd as (Hnd & Hnin & _).
    specialize (λ c k i, IH c k i Hnd).
    set (d := foldl (λ ret (iv : Z * Vertex), dict_set ret iv.2 iv.1) (∅ : VertexDict)
                    (zip (seqZ start (Z.of_nat (length l))) l)) in *.
    assert (Hfresh : ∀ k', k' ∈ l → vertex_value k' ≠ vertex_value a).
    { intros k' Hk' E. apply (Hnin (vertex_value a)).
      - rewrite <- E. apply list_elem_of_fmap. by exists k'.
      - apply list_elem_of_here. }
    assert (Hnone : d !! vertex_value a = None).
    { destruct (d !! vertex_value a) as [[k' i']|] eqn:E; [|done].
      apply IH in E as (_ & Hl & Hv). exfalso.
      apply (Hfresh k'); [by eapply list_elem_of_lookup_2|done]. }
    unfold dict_set. rewrite Hnone.
    destruct (decide (c = vertex_value a)) as [->|Hne].
    + rewrite lookup_insert_eq. split.
      * intros [= <- <-]. split; [lia|].
        replace (Z.to_nat (start + Z.of_nat (length l) - start)) with (length l) by lia.
        split; [by apply list_lookup_middle|done].
      * intros (Hi & Hl & Hv).
        destruct (decide (Z.to_nat (i - start) < length l)%nat) as [Hlt|Hge].
        -- rewrite lookup_app_l in Hl by done. exfalso.
           apply (Hfresh k); [by eapply list_elem_of_lookup_2|done].
        -- pose proof (lookup_lt_Some _ _ _ Hl) as Hlen.
           rewrite length_app in Hlen. cbn in Hlen.
           replace (Z.to_nat (i - start)) with (length l) in Hl by lia.
           rewrite list_lookup_middle in Hl by done. injection Hl as <-.
           do 2 f_equal. lia.
    + rewrite lookup_insert_ne by done. rewrite IH.
      split; intros (Hi & Hl & Hv); (split; [done|]); (split; [|done]).
      * by apply lookup_app_l_Some.
      * apply lookup_app_Some in Hl as [Hl|[_ Hl]]; [done|].
        apply list_lookup_singleton_Some in Hl as [_ ->]. congruence.
Qed.

Lemma mesh2vertices_lookup (mesh : Mesh) c k i :
  mesh2vertices mesh !! c = Some (k, i)
  ↔ 1 ≤ i ∧ sorted_unique mesh !! Z.to_nat (i - 1) = Some k ∧ vertex_value k = c.
Proof.
  unfold mesh2vertices. cbv zeta. apply index_dict_lookup.
  apply NoDup_sorted_unique_values.
Qed.

Lemma dict_get_mesh2vertices (mesh : Mesh) v i :
  dict_get (mesh2vertices mesh) v = Some i
  ↔ 1 ≤ i ∧
    ∃ k, sorted_unique mesh !! Z.to_nat (i - 1) = Some k ∧ same_vertex k v.
Proof.
  unfold dict_get. split.
  - destruct (mesh2vertices mesh !! vertex_value v) as [[k i']|] eqn:E; [|done].
    intros [= <-]. apply mesh2vertices_lookup in E as (Hi & Hl & Hv).
    split; [done|]. by exists k.
  - intros (Hi & k & Hl & Hv).
    assert (E : mesh2vertices mesh !! vertex_value v = Some (k, i))
      by (by apply mesh2vertices_lookup).
    by rewrite E.
Qed.


Lemma dict_get_is_Some (mesh : Mesh) v :
  is_Some (dict_get (mesh2vertices mesh) v)
  ↔ ∃ w, mesh_vertex mesh w ∧ same_vertex w v.
Proof.
  split.
  - intros [i (Hi & k & Hl & Hv)%dict_get_mesh2vertices]. exists k.
    split; [|done]. by eapply sorted_unique_mesh_vertex, list_elem_of_lookup_2.
  - intros (w & Hw & Hv).
    destruct (sorted_unique_kept mesh w Hw) as (k & [n Hn]%list_elem_of_lookup & Hk).
    exists (Z.of_nat n + 1). apply dict_get_mesh2vertices. split; [lia|].
    exists k. replace (Z.to_nat (Z.of_nat n + 1 - 1)) with n by lia.
    split; [done|]. unfold same_vertex in *. congruence.
Qed.

Lemma dict_keys_mesh2vertices (mesh : Mesh) :
  sorted vertex_leb (dict_keys (mesh2vertices mesh)) = sorted_unique mesh.
Proof.
  apply sorted_of_Permutation;
    [|apply NoDup_sorted_unique_values|apply sorted_unique_sorted].
  apply NoDup_Permutation.
  - unfold dict_keys. apply NoDup_fmap_2_strong; [|apply NoDup_map_to_list].
    intros [c [k i]] [c' [k' i']] H1%elem_of_map_to_list H2%elem_of_map_to_list.
    cbn [fst snd]. intros <-.
    pose proof H1 as (_ & _ & Hv)%mesh2vertices_lookup.
    pose proof H2 as (_ & _ & Hv')%mesh2vertices_lookup.
    assert (c' = c) as -> by congruence. congruence.
  - eapply NoDup_fmap_1, NoDup_sorted_unique_values.
  - intros k. unfold dict_keys. rewrite list_elem_of_fmap. split.
    + intros ([c [k' i]] & -> & H%elem_of_map_to_list). cbn [fst snd].
      apply mesh2vertices_lookup in H as (_ & Hl & _).
      by eapply list_elem_of_lookup_2.
    + intros [n Hn]%list_elem_of_lookup.
      exists (vertex_value k, (k, Z.of_nat n + 1)). split; [done|].
      apply elem_of_map_to_list, mesh2vertices_lookup. split; [lia|].
      by replace (Z.to_nat (Z.of_nat n + 1 - 1)) with n by lia.
Qed.

(** ** The rows of the file *)

Lemma mapM_total {A B} (f : A → option B) (g : A → B) (l : list A) :
  (∀ x, x ∈ l → f x = Some (g x)) → mapM f l = Some (g <$> l).
Proof.
  induction l as [|x l IH]; intros Hf; [done|].
  cbn [mapM fmap list_fmap]. rewrite Hf by set_solver. cbn [mbind option_bind].
  rewrite IH by set_solver. done.
Qed.

Lemma export_vertex_default_total (vertex : Vertex) :
  is_Some (export_vertex vertex default_settings).
Proof. destruct vertex as [[x y] z]. by eexists. Qed.

Lemma face_indices_total (mesh : Mesh) (face : Face) :
  face ∈ mesh →
  mapM (λ vertex, dict_get (mesh2vertices mesh) vertex) face
  = Some (get_index (mesh2vertices mesh) <$> face).
Proof.
  intros Hface. apply mapM_total. intros v Hv.
  destruct (proj2 (dict_get_is_Some mesh v)) as [i Hi].
  { exists v. split; [by exists face|done]. }
  unfold get_index. by rewrite Hi.
Qed.

Lemma export_mesh_rows_default (mesh : Mesh) :
  ∃ vertex_rows,
    mapM (λ vertex, export_vertex vertex default_settings) (sorted_unique mesh)
    = Some vertex_rows ∧
    export_mesh_rows mesh DEFAULT_EXPORT_SETTINGS
    = Some (vertex_rows ++ (face_row (mesh2vertices mesh) <$> mesh)).
Proof.
  unfold export_mesh_rows.
  change (parse_readable_export_settings DEFAULT_EXPORT_SETTINGS)
    with (Some default_settings).
  cbn [mbind option_bind]. cbv zeta. rewrite dict_keys_mesh2vertices.
  assert (Hv : mapM (λ vertex, export_vertex vertex default_settings)
                    (sorted_unique mesh)
               = Some ((λ vertex, default EmptyString
                                    (export_vertex vertex default_settings))
                         <$> sorted_unique mesh)).
  { apply mapM_total. intros v _.
    destruct (export_vertex_default_total v) as [r Hr]. by rewrite Hr. }
  eexists. split; [exact Hv|]. rewrite Hv. cbn [mbind option_bind].
  rewrite (mapM_total _ (face_row (mesh2vertices mesh))); [done|].
  intros face Hface. by rewrite face_indices_total.
Qed.






(** The rows of the vertices can change with the order of the faces: of two
    vertices that are equal for Python, [0.0] and [-0.0] in the first
    coordinate, the set keeps the one that comes first, and their rows
    differ. *)
Lemma export_mesh_zero_sign :
  export_mesh_rows [[(PyFloat false 0, PyInt 0, PyInt 0)];
                    [(PyFloat true 0, PyInt 0, PyInt 0)]]
    DEFAULT_EXPORT_SETTINGS
  = Some ["v 0.000000 0.000000 0.000000"; "f 1"; "f 1"]%string ∧
  export_mesh_rows [[(PyFloat true 0, PyInt 0, PyInt 0)];
                    [(PyFloat false 0, PyInt 0, PyInt 0)]]
    DEFAULT_EXPORT_SETTINGS
  = Some ["v -0.000000 0.000000 0.000000"; "f 1"; "f 1"]%string.
Proof. split; vm_compute; reflexivity. Qed.

(** ** MeshExporter: the numbering of the vertices *)


(** X10: the rows of [export_mesh] under the default settings.  The rows of
    the vertices that differ come first, then one row for each face; the
    numbers in the row of a face are the numbers of its vertices, and the
    number [i] of a vertex names the [i]-th row of the file.  That row is
    the row of the vertex of the mesh that the set has kept for it: one that
    Python finds equal to it, and the vertex itself when the mesh has no two
    vertices that are equal without being the same tuple. *)
Theorem export_mesh_rows_refer (mesh : Mesh) :
  ∃ rows,
    export_mesh_rows mesh DEFAULT_EXPORT_SETTINGS = Some rows ∧
    length rows = (size (mesh_unique mesh) + length mesh)%nat ∧
    ∀ k face, mesh !! k = Some face →
      ∃ face_indices,
        mapM (λ vertex, dict_get (mesh2vertices mesh) vertex) face
        = Some face_indices ∧
        rows !! (size (mesh_unique mesh) + k)%nat
        = Some (export_face_indices face_indices false) ∧
        ∀ j vertex i,
          face !! j = Some vertex → face_indices !! j = Some i →
          1 ≤ i ∧
          ∃ kept,
            mesh_vertex mesh kept ∧ same_vertex kept vertex ∧
            (one_writing mesh → kept = vertex) ∧
            rows !! Z.to_nat (i - 1) = export_vertex kept default_settings.
Proof.
  destruct (export_mesh_rows_default mesh) as (vertex_rows & Hv & Hrows).
  assert (Hlen : length vertex_rows = size (mesh_unique mesh)).
  { apply length_mapM in Hv. by rewrite <- Hv, length_sorted_unique. }
  exists (vertex_rows ++ (face_row (mesh2vertices mesh) <$> mesh)).
  split; [exact Hrows|]. split; [by rewrite length_app, length_fmap, Hlen|].
  intros k face Hface.
  assert (Hin : face ∈ mesh) by (by eapply list_elem_of_lookup_2).
  exists (get_index (mesh2vertices mesh) <$> face). split; [|split].
  - by apply face_indices_total.
  - rewrite lookup_app_r by lia.
    replace (size (mesh_unique mesh) + k - length vertex_rows)%nat with k by lia.
    by rewrite list_lookup_fmap, Hface.
  - intros j v i Hj Hi. rewrite list_lookup_fmap, Hj in Hi. injection Hi as <-.
    assert (Hmv : mesh_vertex mesh v).
    { exists face. split; [done|]. by eapply list_elem_of_lookup_2. }
    destruct (proj2 (dict_get_is_Some mesh v)) as [i Hi]; [by exists v|].
    unfold get_index. rewrite Hi. cbn [default]. unfold id.
    apply dict_get_mesh2vertices in Hi as (H1 & kept & Hl & Hsame).
    split; [exact H1|]. exists kept.
    assert (Hk : mesh_vertex mesh kept)
      by (by eapply sorted_unique_mesh_vertex, list_elem_of_lookup_2).
    split; [exact Hk|]. split; [exact Hsame|]. split.
    { intros Hone. by apply Hone. }
    apply lookup_lt_Some in Hl as Hlt. rewrite length_sorted_unique in Hlt.
    rewrite lookup_app_l by lia.
    apply mapM_Some in Hv.
    destruct (Forall2_lookup_l _ _ _ _ _ Hv Hl) as (row & Hrow & Hexp).
    by rewrite Hrow, Hexp.
Qed.
